(** * Path following kernel of OpenPilot (flight/libraries/paths.c)

    A shallow embedding of [path_progress] and of its three solvers
    [path_endpoint], [path_vector] and [path_circle].

    The C code computes on [float].  The embedding is written once over an
    interface, [FloatOps], that names every arithmetic operator, comparison,
    libm call and constant the code uses, so that each definition reads
    against the C text line by line.  Two instances interpret it:
    - [binary32_ops], IEEE 754 binary32, the arithmetic in which the code
      runs; [powf] and [atan2f] are parameters of it;
    - [R_ops], the real numbers: the same code without rounding, overflow
      or NaN.
    What a solver writes into the status is established for every
    arithmetic, hence for binary32; what depends on the sign, on the class
    or on the rounding of a [float] is established in binary32, the range
    of the angular progress from bounds on each rounded sum, difference and
    quotient; the geometry of the exact results (distances, angles,
    perpendicularity) is established on the reals, and is said to be so
    where it is stated.

    Part I holds the definitions, Part II what the code computes in each
    arithmetic, Part III the statements of the specification, Part IV
    further properties of the code. *)

From Stdlib Require Import Reals Lra Lia ZArith List Bool SpecFloat.
Import ListNotations.

(** * Part I: definitions *)

(** ** The arithmetic the code uses *)

Declare Scope cfloat_scope.
Delimit Scope cfloat_scope with cfloat.

Class FloatOps (F : Type) : Type := {
  (** the literals [0], [1], [2] (also [1.0f], [2.0f]) converted to [float] *)
  f0 : F;
  f1 : F;
  f2 : F;
  (** [1e-6f] *)
  c_1e_6f : F;
  (** [M_PI_F] of pios_math.h *)
  M_PI_F : F;
  (** [a + b], [a - b], [a * b], [a / b], [-a] *)
  fadd : F -> F -> F;
  fsub : F -> F -> F;
  fmul : F -> F -> F;
  fdiv : F -> F -> F;
  fneg : F -> F;
  (** [a < b] and [a <= b]; [a > b] is [b < a] and [a >= b] is [b <= a] *)
  flt : F -> F -> bool;
  fle : F -> F -> bool;
  (** libm: [sqrtf], [powf], [atan2f]; [sqrt_dbl] and [fabs] are the
      double-precision [sqrt] and [fabs], called on a [float] and stored
      back into a [float] *)
  sqrtf : F -> F;
  sqrt_dbl : F -> F;
  powf : F -> F -> F;
  atan2f : F -> F -> F;
  fabs : F -> F
}.

Notation "x + y" := (fadd x y) : cfloat_scope.
Notation "x - y" := (fsub x y) : cfloat_scope.
Notation "x * y" := (fmul x y) : cfloat_scope.
Notation "x / y" := (fdiv x y) : cfloat_scope.
Notation "- x" := (fneg x) : cfloat_scope.
Notation "x <? y" := (flt x y) (at level 70) : cfloat_scope.
Notation "x >? y" := (flt y x) (at level 70) : cfloat_scope.
Notation "x >=? y" := (fle y x) (at level 70) : cfloat_scope.

(** ** The path modes of pathdesired.h

    The header is generated and is not among the sources: the eight
    [PATHDESIRED_MODE_xxx] codes the switch names are taken as parameters.
    They are the labels of one C [switch], hence pairwise distinct. *)

Class PathDesiredModes : Type := {
  PATHDESIRED_MODE_FLYVECTOR : Z;
  PATHDESIRED_MODE_DRIVEVECTOR : Z;
  PATHDESIRED_MODE_FLYCIRCLERIGHT : Z;
  PATHDESIRED_MODE_DRIVECIRCLERIGHT : Z;
  PATHDESIRED_MODE_FLYCIRCLELEFT : Z;
  PATHDESIRED_MODE_DRIVECIRCLELEFT : Z;
  PATHDESIRED_MODE_FLYENDPOINT : Z;
  PATHDESIRED_MODE_DRIVEENDPOINT : Z
}.

Definition recognized_modes {M : PathDesiredModes} : list Z :=
  [ PATHDESIRED_MODE_FLYVECTOR; PATHDESIRED_MODE_DRIVEVECTOR;
    PATHDESIRED_MODE_FLYCIRCLERIGHT; PATHDESIRED_MODE_DRIVECIRCLERIGHT;
    PATHDESIRED_MODE_FLYCIRCLELEFT; PATHDESIRED_MODE_DRIVECIRCLELEFT;
    PATHDESIRED_MODE_FLYENDPOINT; PATHDESIRED_MODE_DRIVEENDPOINT ].

Definition distinct_modes {M : PathDesiredModes} : Prop := NoDup recognized_modes.

(** ** Data *)

Section Data.
Variable F : Type.

(** A [float x[3]]: north, east, down. *)
Record vec3 : Type := Vec3 { c0 : F; c1 : F; c2 : F }.

(** [struct path_status] of paths.h. *)
Record path_status : Type := PathStatus {
  fractional_progress : F;
  error : F;
  correction_direction : vec3;
  path_direction : vec3
}.

(** The assignments to the fields of [*status]. *)
Definition set_fractional_progress (s : path_status) (v : F) : path_status :=
  PathStatus v (error s) (correction_direction s) (path_direction s).

Definition set_error (s : path_status) (v : F) : path_status :=
  PathStatus (fractional_progress s) v (correction_direction s) (path_direction s).

Definition set_correction_direction (s : path_status) (v : vec3) : path_status :=
  PathStatus (fractional_progress s) (error s) v (path_direction s).

Definition set_path_direction (s : path_status) (v : vec3) : path_status :=
  PathStatus (fractional_progress s) (error s) (correction_direction s) v.
End Data.

Arguments Vec3 {F} _ _ _.
Arguments c0 {F} _.
Arguments c1 {F} _.
Arguments c2 {F} _.
Arguments PathStatus {F} _ _ _ _.
Arguments fractional_progress {F} _.
Arguments error {F} _.
Arguments correction_direction {F} _.
Arguments path_direction {F} _.
Arguments set_fractional_progress {F} _ _.
Arguments set_error {F} _ _.
Arguments set_correction_direction {F} _ _.
Arguments set_path_direction {F} _ _.

(** ** The code *)

Section Code.
Context {F : Type} {O : FloatOps F} {M : PathDesiredModes}.
Local Open Scope cfloat_scope.

(** Modelled from the spec: [boundf] is declared in mathmisc.h, which is not
    among the sources; the spec says "Clamp raw progress to [0, 1]". *)
Definition boundf (val lo hi : F) : F :=
  if val <? lo then lo else if val >? hi then hi else val.

(** Compute progress towards endpoint.  Deviation equals distance. *)
Definition path_endpoint (start_point end_point cur_point : vec3 F)
    (status : path_status F) (mode3D : bool) : path_status F :=
  (* we do not correct in this mode *)
  let status := set_correction_direction status (Vec3 f0 f0 f0) in
  (* Distance to go *)
  let path0 := c0 end_point - c0 start_point in
  let path1 := c1 end_point - c1 start_point in
  let path2 := if mode3D then c2 end_point - c2 start_point else f0 in
  (* Current progress location relative to end *)
  let diff0 := c0 end_point - c0 cur_point in
  let diff1 := c1 end_point - c1 cur_point in
  let diff2 := if mode3D then c2 end_point - c2 cur_point else f0 in
  let dist_diff := sqrtf (diff0 * diff0 + diff1 * diff1 + diff2 * diff2) in
  let dist_path := sqrtf (path0 * path0 + path1 * path1 + path2 * path2) in
  if dist_diff <? c_1e_6f then
    let status := set_fractional_progress status f1 in
    let status := set_error status f0 in
    set_path_direction status (Vec3 f0 f0 f1)
  else
    let status :=
      if dist_path + f1 >? dist_diff
      then set_fractional_progress status (f1 - dist_diff / (f1 + dist_path))
      else (* we don't want fractional_progress to become negative *)
        set_fractional_progress status f0 in
    let status := set_error status dist_diff in
    (* Compute direction to travel *)
    set_path_direction status
      (Vec3 (diff0 / dist_diff) (diff1 / dist_diff) (diff2 / dist_diff)).

(** Compute progress along path and deviation from it. *)
Definition path_vector (start_point end_point cur_point : vec3 F)
    (status : path_status F) (mode3D : bool) : path_status F :=
  (* Distance to go *)
  let path0 := c0 end_point - c0 start_point in
  let path1 := c1 end_point - c1 start_point in
  let path2 := if mode3D then c2 end_point - c2 start_point else f0 in
  (* Current progress location relative to start *)
  let diff0 := c0 cur_point - c0 start_point in
  let diff1 := c1 cur_point - c1 start_point in
  let diff2 := if mode3D then c2 cur_point - c2 start_point else f0 in
  let dot := path0 * diff0 + path1 * diff1 + path2 * diff2 in
  let dist_path := sqrtf (path0 * path0 + path1 * path1 + path2 * path2) in
  let status :=
    if dist_path >? c_1e_6f then
      (* Compute direction to travel & progress *)
      let status := set_path_direction status
        (Vec3 (path0 / dist_path) (path1 / dist_path) (path2 / dist_path)) in
      set_fractional_progress status (dot / (dist_path * dist_path))
    else
      (* if the path is too short, we cannot determine vector direction.
         Assume progress=1 and zero-length path. *)
      let status := set_path_direction status (Vec3 f0 f0 f0) in
      set_fractional_progress status f1 in
  (* Compute point on track that is closest to our current position.
     Limiting fractional_progress makes sure the resulting point is also
     limited to be between start and endpoint. *)
  let status :=
    set_fractional_progress status (boundf (fractional_progress status) f0 f1) in
  let track_point0 := fractional_progress status * path0 + c0 start_point in
  let track_point1 := fractional_progress status * path1 + c1 start_point in
  let track_point2 := fractional_progress status * path2 + c2 start_point in
  let status := set_correction_direction status
    (Vec3 (track_point0 - c0 cur_point) (track_point1 - c1 cur_point)
          (track_point2 - c2 cur_point)) in
  let status := set_error status
    (sqrt_dbl (c0 (correction_direction status) * c0 (correction_direction status) +
               c1 (correction_direction status) * c1 (correction_direction status) +
               c2 (correction_direction status) * c2 (correction_direction status))) in
  (* Normalize correction_direction but avoid division by zero *)
  if error status >? c_1e_6f then
    set_correction_direction status
      (Vec3 (c0 (correction_direction status) / error status)
            (c1 (correction_direction status) / error status)
            (c2 (correction_direction status) / error status))
  else
    set_correction_direction status (Vec3 f0 f0 f1).

(** Compute progress along circular path and deviation from it. *)
Definition path_circle (start_point end_point cur_point : vec3 F)
    (status : path_status F) (clockwise : bool) : path_status F :=
  (* Radius *)
  let radius_north := c0 end_point - c0 start_point in
  let radius_east := c1 end_point - c1 start_point in
  (* Current location relative to center *)
  let diff_north := c0 cur_point - c0 end_point in
  let diff_east := c1 cur_point - c1 end_point in
  let radius := sqrtf (powf radius_north f2 + powf radius_east f2) in
  let cradius := sqrtf (powf diff_north f2 + powf diff_east f2) in
  if cradius <? c_1e_6f then
    (* cradius is zero, just fly somewhere and make sure correction is still
       a normal *)
    let status := set_fractional_progress status f1 in
    let status := set_error status radius in
    let status := set_correction_direction status (Vec3 f0 f1 f0) in
    set_path_direction status (Vec3 f1 f0 f0)
  else
    let normal :=
      if clockwise
      then (* Compute the normal to the radius clockwise *)
        (- diff_east / cradius, diff_north / cradius)
      else (* Compute the normal to the radius counter clockwise *)
        (diff_east / cradius, - diff_north / cradius) in
    (* normalize progress to 0..1 *)
    let a_diff := atan2f diff_north diff_east in
    let a_radius := atan2f radius_north radius_east in
    let a_diff := if a_diff <? f0 then a_diff + f2 * M_PI_F else a_diff in
    let a_radius := if a_radius <? f0 then a_radius + f2 * M_PI_F else a_radius in
    let progress := (a_diff - a_radius + M_PI_F) / (f2 * M_PI_F) in
    let progress :=
      if progress <? f0 then progress + f1
      else if progress >=? f1 then progress - f1
      else progress in
    let progress := if clockwise then f1 - progress else progress in
    let status := set_fractional_progress status progress in
    (* error is current radius minus wanted radius - positive if too close *)
    let status := set_error status (radius - cradius) in
    (* Compute direction to correct error *)
    let status := set_correction_direction status
      (Vec3 ((if error status >? f0 then f1 else - f1) * diff_north / cradius)
            ((if error status >? f0 then f1 else - f1) * diff_east / cradius)
            f0) in
    (* Compute direction to travel *)
    let status := set_path_direction status (Vec3 (fst normal) (snd normal) f0) in
    set_error status (fabs (error status)).

(** Compute progress along path and deviation from it: the [switch] on the
    path mode, a [uint8_t]. *)
Definition path_progress (start_point end_point cur_point : vec3 F)
    (status : path_status F) (mode : Z) : path_status F :=
  if (mode =? PATHDESIRED_MODE_FLYVECTOR)%Z then
    path_vector start_point end_point cur_point status true
  else if (mode =? PATHDESIRED_MODE_DRIVEVECTOR)%Z then
    path_vector start_point end_point cur_point status false
  else if ((mode =? PATHDESIRED_MODE_FLYCIRCLERIGHT) ||
           (mode =? PATHDESIRED_MODE_DRIVECIRCLERIGHT))%Z then
    path_circle start_point end_point cur_point status true
  else if ((mode =? PATHDESIRED_MODE_FLYCIRCLELEFT) ||
           (mode =? PATHDESIRED_MODE_DRIVECIRCLELEFT))%Z then
    path_circle start_point end_point cur_point status false
  else if (mode =? PATHDESIRED_MODE_FLYENDPOINT)%Z then
    path_endpoint start_point end_point cur_point status true
  else
    (* PATHDESIRED_MODE_DRIVEENDPOINT and default:
       use the endpoint as default failsafe if called in unknown modes *)
    path_endpoint start_point end_point cur_point status false.

(** ** Which solver the switch selects *)

Inductive solver : Type :=
  | Endpoint (mode3D : bool)
  | Vector (mode3D : bool)
  | Circle (clockwise : bool).

Definition run_solver (k : solver) (start_point end_point cur_point : vec3 F)
    (status : path_status F) : path_status F :=
  match k with
  | Endpoint mode3D => path_endpoint start_point end_point cur_point status mode3D
  | Vector mode3D => path_vector start_point end_point cur_point status mode3D
  | Circle clockwise => path_circle start_point end_point cur_point status clockwise
  end.

(** The fixed mapping from the mode code to a solver and its flag, as the
    specification describes the dispatcher. *)
Definition selected_solver (mode : Z) : solver :=
  if (mode =? PATHDESIRED_MODE_FLYVECTOR)%Z then Vector true
  else if (mode =? PATHDESIRED_MODE_DRIVEVECTOR)%Z then Vector false
  else if (mode =? PATHDESIRED_MODE_FLYCIRCLERIGHT)%Z then Circle true
  else if (mode =? PATHDESIRED_MODE_DRIVECIRCLERIGHT)%Z then Circle true
  else if (mode =? PATHDESIRED_MODE_FLYCIRCLELEFT)%Z then Circle false
  else if (mode =? PATHDESIRED_MODE_DRIVECIRCLELEFT)%Z then Circle false
  else if (mode =? PATHDESIRED_MODE_FLYENDPOINT)%Z then Endpoint true
  else Endpoint false.

(** [a - b] with the third component computed only in 3D mode, as the code
    computes its [path] and [diff] arrays. *)
Definition diff3 (mode3D : bool) (a b : vec3 F) : vec3 F :=
  Vec3 (c0 a - c0 b) (c1 a - c1 b) (if mode3D then c2 a - c2 b else f0).

Definition dot3 (a b : vec3 F) : F := c0 a * c0 b + c1 a * c1 b + c2 a * c2 b.
End Code.

(** ** The vocabulary of the specification, in the arithmetic of the code

    The lengths, quotients and angles the specification speaks of, each
    computed with the operations the code uses for it. *)

Section Vocabulary.
Context {F : Type} {O : FloatOps F}.
Local Open Scope cfloat_scope.

(** The length |v|, through [sqrtf]. *)
Definition length3 (v : vec3 F) : F := sqrtf (dot3 v v).


(** The horizontal length |(north, east)|, through [powf] and [sqrtf]. *)
Definition hlength (north east : F) : F := sqrtf (powf north f2 + powf east f2).

(** [v / n], component by component. *)
Definition vec_div (v : vec3 F) (n : F) : vec3 F :=
  Vec3 (c0 v / n) (c1 v / n) (c2 v / n).



(** The bearing of the horizontal vector (north, east): [atan2f], to which
    2 PI is added when it is negative. *)
Definition normalised_bearing (north east : F) : F :=
  let a := atan2f north east in
  if a <? f0 then a + f2 * M_PI_F else a.

(** A progress wrapped by adding 1 when it is negative and subtracting 1 when
    it is 1 or more. *)
Definition wrap_progress (p : F) : F :=
  if p <? f0 then p + f1 else if p >=? f1 then p - f1 else p.

(** The angular progress of the counter-clockwise winding, from the
    horizontal vectors [diff = current - center] and
    [radius = center - start]. *)
Definition angular_progress (diff_north diff_east radius_north radius_east : F) : F :=
  wrap_progress
    ((normalised_bearing diff_north diff_east -
      normalised_bearing radius_north radius_east + M_PI_F) / (f2 * M_PI_F)).

End Vocabulary.

(** ** Exact real arithmetic

    The code read on the real numbers: no rounding, no overflow and no NaN;
    the constant [1e-6f] is 10^-6 and [M_PI_F] is PI. *)

Local Open Scope R_scope.

Definition Rltb (x y : R) : bool := if Rlt_dec x y then true else false.

Definition Rleb (x y : R) : bool := if Rle_dec x y then true else false.

(** [powf] on the reals: the square at the exponent 2, the only exponent the
    code uses, and the real power function elsewhere. *)
Definition R_powf (x y : R) : R := if Req_dec_T y 2 then x * x else Rpower x y.

(** [atan2f] on the reals: the angle of the point of abscissa [x] and
    ordinate [y], in the interval (-PI, PI]. *)
Definition R_atan2 (y x : R) : R :=
  if Rlt_dec 0 x then atan (y / x)
  else if Rlt_dec x 0 then
    if Rle_dec 0 y then atan (y / x) + PI else atan (y / x) - PI
  else if Rlt_dec 0 y then PI / 2
  else if Rlt_dec y 0 then - (PI / 2)
  else 0.

#[export] Instance R_ops : FloatOps R := {|
  f0 := 0;
  f1 := 1;
  f2 := 2;
  c_1e_6f := 1 / 1000000;
  M_PI_F := PI;
  fadd := Rplus;
  fsub := Rminus;
  fmul := Rmult;
  fdiv := Rdiv;
  fneg := Ropp;
  flt := Rltb;
  fle := Rleb;
  sqrtf := sqrt;
  sqrt_dbl := sqrt;
  powf := R_powf;
  atan2f := R_atan2;
  fabs := Rabs
|}.

(** ** IEEE 754 binary32 arithmetic

    The format of the C [float], from the specification of floating-point
    numbers of the standard library: 24 bits of precision, exponents below
    128, rounding to nearest even.  The standard does not fix the results of
    [powf] and [atan2f]: they are parameters of the instance. *)

Definition binary32_of_Z (n : Z) : spec_float := binary_normalize 24 128 n 0 false.

(** The conversions of a [float] to [double] and back. *)
Definition to_double (x : spec_float) : spec_float :=
  match x with
  | S754_finite s m e => binary_normalize 53 1024 (cond_Zopp s (Zpos m)) e s
  | _ => x
  end.

Definition to_float (x : spec_float) : spec_float :=
  match x with
  | S754_finite s m e => binary_normalize 24 128 (cond_Zopp s (Zpos m)) e s
  | _ => x
  end.

Definition binary32_ops (powf atan2f : spec_float -> spec_float -> spec_float) :
    FloatOps spec_float := {|
  f0 := S754_zero false;
  f1 := binary32_of_Z 1;
  f2 := binary32_of_Z 2;
  c_1e_6f := S754_finite false 8796093 (-43);
  M_PI_F := S754_finite false 13176795 (-22);
  fadd := SFadd 24 128;
  fsub := SFsub 24 128;
  fmul := SFmul 24 128;
  fdiv := SFdiv 24 128;
  fneg := SFopp;
  flt := SFltb;
  fle := SFleb;
  sqrtf := SFsqrt 24 128;
  sqrt_dbl := fun x => to_float (SFsqrt 53 1024 (to_double x));
  powf := powf;
  atan2f := atan2f;
  fabs := fun x => to_float (SFabs (to_double x))
|}.

(** A point with integer coordinates, and a status of NaN fields. *)
Definition binary32_point (north east down : Z) : vec3 spec_float :=
  Vec3 (binary32_of_Z north) (binary32_of_Z east) (binary32_of_Z down).

Definition binary32_status0 : path_status spec_float :=
  PathStatus S754_nan S754_nan
    (Vec3 S754_nan S754_nan S754_nan) (Vec3 S754_nan S754_nan S754_nan).

(** A float that is not below zero: zero, positive or NaN. *)
Definition not_below_zero (x : spec_float) : Prop := SFltb x (S754_zero false) = false.

(** A float that is a number: a zero or a finite value, neither an infinity
    nor NaN. *)
Definition is_finite (x : spec_float) : bool :=
  match x with
  | S754_zero _ | S754_finite _ _ _ => true
  | _ => false
  end.

(** A float that is a number and is not negative: a zero, a positive finite
    value or +infinity. *)
Definition is_nonneg_number (x : spec_float) : bool :=
  match x with
  | S754_zero _ | S754_infinity false | S754_finite false _ _ => true
  | _ => false
  end.

(** The constants [1e-6f] and [M_PI_F] of the code, and 1/2 and PI/2, in
    binary32. *)
Definition binary32_1e_6f : spec_float := S754_finite false 8796093 (-43).

Definition binary32_pi : spec_float := S754_finite false 13176795 (-22).

Definition binary32_half : spec_float := S754_finite false 8388608 (-24).


(** Stand-ins for libm in the concrete calls.  [powf x 2] is taken as a
    correctly rounded [powf] returns it, the square of [x] rounded once; the
    code uses no other exponent.  [atan2f] is taken where Annex F of the C
    standard fixes its result, on the four half-axes: a zero of the sign of
    [y] for [x > 0] and [y] a zero, PI of the sign of [y] for [x < 0] and [y]
    a zero, PI/2 of the sign of [y] for [x] a zero, each rounded to binary32.
    Off the axes the result depends on the libm and is not tabulated: NaN
    stands for it, and no statement below reads it. *)
Definition powf_square (x y : spec_float) : spec_float :=
  if SFeqb y (binary32_of_Z 2) then SFmul 24 128 x x else S754_nan.

Definition atan2f_on_axes (y x : spec_float) : spec_float :=
  match y, x with
  | S754_zero s, S754_finite false _ _ => S754_zero s
  | S754_zero s, S754_finite true _ _ => S754_finite s 13176795 (-22)
  | S754_finite s _ _, S754_zero _ => S754_finite s 13176795 (-23)
  | _, _ => S754_nan
  end.

Definition binary32_standin : FloatOps spec_float :=
  binary32_ops powf_square atan2f_on_axes.

(** ** Values and roundings of binary32

    What the bounds on the results of the binary32 operations are stated
    with.  A float that is a number and is canonical in binary32 has a value
    that is an integer number of units of 2^-149, the smallest positive
    float. *)

Section RoundingDefinitions.
Local Open Scope Z_scope.

(** A float of binary32 that is a number: a zero, or a finite value with a
    canonical mantissa and exponent. *)
Definition valid32 (x : spec_float) : Prop :=
  is_finite x = true /\ valid_binary 24 128 x = true.

(** The value of such a float, in units of 2^-149. *)
Definition Zval (x : spec_float) : Z :=
  match x with
  | S754_finite s m e => cond_Zopp s (Zpos m) * 2 ^ (e + 149)
  | _ => 0
  end.

(** An integer that stands for a value strictly above it. *)
Definition inexact (lx : location) : bool :=
  match lx with loc_Exact => false | _ => true end.

(** What [k] shifts to the right of the integer [M] leave, when the shift
    started from an inexact integer ([inex]) or from an exact one: the
    quotient, the last bit shifted out, and whether anything was lost. *)
Definition shifted (M : Z) (inex : bool) (k : Z) (mrs : shr_record) : Prop :=
  shr_m mrs = M / 2 ^ k /\
  (shr_r mrs || shr_s mrs = inex || negb (M mod 2 ^ k =? 0)) /\
  (1 <= k -> shr_r mrs = Z.odd (M / 2 ^ (k - 1)) /\
             shr_s mrs = inex || negb (M mod 2 ^ (k - 1) =? 0)).

(** The float of a sign, a mantissa and an exponent, an infinity when the
    exponent is above the largest one. *)
Definition encode32 (s : bool) (m e : Z) : spec_float :=
  match m with
  | Z0 => S754_zero s
  | Zpos p => if e <=? 104 then S754_finite s p e else S754_infinity s
  | Zneg _ => S754_nan
  end.

(** The float of a rounded mantissa of at most 24 bits, or 2^24. *)
Definition round_result (s : bool) (m1 e' : Z) : spec_float :=
  if m1 =? 2 ^ 24 then encode32 s (2 ^ 23) (e' + 1) else encode32 s m1 e'.

(** [r] is a rounding of the exact value [exact], given in units of 2^-149:
    a valid float, on the same side as [exact] of every float. *)
Definition rounds_to (exact : Z) (r : spec_float) : Prop :=
  valid32 r /\
  (forall C, valid32 C -> exact <= Zval C -> Zval r <= Zval C) /\
  (forall C, valid32 C -> Zval C <= exact -> Zval C <= Zval r).

(** [r] is not above a float when [exact] is below the middle of this float
    and the next one. *)
Definition rounds_down_below_middle (exact : Z) (r : spec_float) : Prop :=
  forall mc ec, bounded 24 128 mc ec = true ->
    2 * exact < 2 * (Zpos mc * 2 ^ (ec + 149)) + 2 ^ (ec + 149) ->
    Zval r <= Zpos mc * 2 ^ (ec + 149).

(** The float 1, and the product of 2 and [M_PI_F] in binary32. *)
Definition binary32_one : spec_float := S754_finite false 8388608 (-23).

Definition binary32_two_pi : spec_float := S754_finite false 13176795 (-21).

(** A bearing as [atan2f] returns it for arguments that are numbers: a
    float of binary32 between [- M_PI_F] and [M_PI_F]. *)
Definition angle_in_range (a : spec_float) : Prop :=
  valid32 a /\ SFleb (SFopp binary32_pi) a = true /\ SFleb a binary32_pi = true.

End RoundingDefinitions.
(** ** The vocabulary of the specification, on real vectors *)

Definition vsub (a b : vec3 R) : vec3 R :=
  Vec3 (c0 a - c0 b) (c1 a - c1 b) (c2 a - c2 b).

Definition vadd (a b : vec3 R) : vec3 R :=
  Vec3 (c0 a + c0 b) (c1 a + c1 b) (c2 a + c2 b).

Definition vscale (k : R) (a : vec3 R) : vec3 R :=
  Vec3 (k * c0 a) (k * c1 a) (k * c2 a).

Definition vdiv (a : vec3 R) (k : R) : vec3 R :=
  Vec3 (c0 a / k) (c1 a / k) (c2 a / k).

Definition vdot (a b : vec3 R) : R :=
  c0 a * c0 b + c1 a * c1 b + c2 a * c2 b.

Definition vnorm (a : vec3 R) : R := sqrt (vdot a a).

(** The vertical component zeroed when the 3D flag is off. *)
Definition vflat (mode3D : bool) (a : vec3 R) : vec3 R :=
  Vec3 (c0 a) (c1 a) (if mode3D then c2 a else 0).

Definition horizontal (a : vec3 R) : vec3 R := vflat false a.

Definition vzero : vec3 R := Vec3 0 0 0.

Definition unit_length (a : vec3 R) : Prop := vnorm a = 1.

(** [x] clamped to the interval from 0 to 1. *)
Definition clamp01 (x : R) : R := Rmax 0 (Rmin 1 x).

(** The threshold below which a length counts as zero. *)
Definition eps : R := 1 / 1000000.

(** The bearing of a horizontal vector: [atan2f] of its north and east
    components, brought into the interval from 0 to 2 PI. *)
Definition bearing (v : vec3 R) : R :=
  let a := R_atan2 (c0 v) (c1 v) in
  if Rlt_dec a 0 then a + 2 * PI else a.

(** A progress wrapped by adding or subtracting 1. *)
Definition wrap01 (p : R) : R :=
  if Rlt_dec p 0 then p + 1 else if Rle_dec 1 p then p - 1 else p.

(** The angular progress before it is wrapped. *)
Definition raw_progress (diff radius_vec : vec3 R) : R :=
  (bearing diff - bearing radius_vec + PI) / (2 * PI).

(** The sign function of the specification's formula
    [sign(signed_error) * diff / cradius]. *)
Definition Rsgn (x : R) : R :=
  if Rlt_dec 0 x then 1 else if Rlt_dec x 0 then - 1 else 0.

(** ** The solvers in the vocabulary of the specification *)

Definition endpoint_solution (start_point end_point cur_point : vec3 R)
    (mode3D : bool) : path_status R :=
  let path := vflat mode3D (vsub end_point start_point) in
  let diff := vflat mode3D (vsub end_point cur_point) in
  let d_diff := vnorm diff in
  let d_path := vnorm path in
  if Rlt_dec d_diff eps then PathStatus 1 0 vzero (Vec3 0 0 1)
  else PathStatus
         (if Rlt_dec d_diff (d_path + 1) then 1 - d_diff / (1 + d_path) else 0)
         d_diff vzero (vdiv diff d_diff).

Definition vector_solution (start_point end_point cur_point : vec3 R)
    (mode3D : bool) : path_status R :=
  let path := vflat mode3D (vsub end_point start_point) in
  let diff := vflat mode3D (vsub cur_point start_point) in
  let d_path := vnorm path in
  let raw := if Rlt_dec eps d_path then vdot path diff / Rsqr d_path else 1 in
  let progress := clamp01 raw in
  let track_point := vadd start_point (vscale progress path) in
  let correction := vsub track_point cur_point in
  let err := vnorm correction in
  PathStatus progress err
    (if Rlt_dec eps err then vdiv correction err else Vec3 0 0 1)
    (if Rlt_dec eps d_path then vdiv path d_path else vzero).

(** The side of the circle is decided as the code decides it: [1] when the
    radius exceeds the current radial distance, [-1] in every other case. *)
Definition circle_solution (start_point end_point cur_point : vec3 R)
    (clockwise : bool) : path_status R :=
  let radius_vec := horizontal (vsub end_point start_point) in
  let diff := horizontal (vsub cur_point end_point) in
  let radius := vnorm radius_vec in
  let cradius := vnorm diff in
  if Rlt_dec cradius eps then PathStatus 1 radius (Vec3 0 1 0) (Vec3 1 0 0)
  else
    let progress := wrap01 (raw_progress diff radius_vec) in
    PathStatus
      (if clockwise then 1 - progress else progress)
      (Rabs (radius - cradius))
      (vscale (if Rlt_dec cradius radius then 1 else - 1) (vdiv diff cradius))
      (if clockwise
       then Vec3 (- c1 diff / cradius) (c0 diff / cradius) 0
       else Vec3 (c1 diff / cradius) (- c0 diff / cradius) 0).

(** ** The vertical axis *)

(** Two points over the same place of the horizontal plane. *)
Definition same_horizontal {F : Type} (a b : vec3 F) : Prop :=
  c0 a = c0 b /\ c1 a = c1 b.

Section Vertical.
Context {M : PathDesiredModes}.

(** The vertical axis takes part in what [path_progress] reports in the
    field [field], in the mode [mode]: two calls that differ in the vertical
    coordinates only report different values. *)
Definition vertical_affects {X : Type} (field : path_status R -> X) (mode : Z) : Prop :=
  exists start_point end_point cur_point start_point' end_point' cur_point' status,
    same_horizontal start_point start_point' /\
    same_horizontal end_point end_point' /\
    same_horizontal cur_point cur_point' /\
    field (path_progress start_point end_point cur_point status mode) <>
    field (path_progress start_point' end_point' cur_point' status mode).

Definition fly_modes : list Z :=
  [ PATHDESIRED_MODE_FLYVECTOR; PATHDESIRED_MODE_FLYCIRCLELEFT;
    PATHDESIRED_MODE_FLYCIRCLERIGHT; PATHDESIRED_MODE_FLYENDPOINT ].

Definition drive_modes : list Z :=
  [ PATHDESIRED_MODE_DRIVEVECTOR; PATHDESIRED_MODE_DRIVECIRCLELEFT;
    PATHDESIRED_MODE_DRIVECIRCLERIGHT; PATHDESIRED_MODE_DRIVEENDPOINT ].

Definition circle_modes : list Z :=
  [ PATHDESIRED_MODE_FLYCIRCLELEFT; PATHDESIRED_MODE_FLYCIRCLERIGHT;
    PATHDESIRED_MODE_DRIVECIRCLELEFT; PATHDESIRED_MODE_DRIVECIRCLERIGHT ].

(** The claim that in every fly mode the vertical axis takes part in the
    distance (the error) and in the progress, and that in every drive mode it
    takes part in nothing. *)
Definition fly_drive_claim : Prop :=
  (forall mode, In mode fly_modes ->
     vertical_affects error mode /\ vertical_affects fractional_progress mode) /\
  (forall mode, In mode drive_modes -> ~ vertical_affects (fun r => r) mode).
End Vertical.

(** ** Concrete calls *)

(** An arbitrary incoming status. *)
Definition status0 : path_status R := PathStatus 0 0 vzero vzero.

(** Mode codes for the concrete calls; every general statement holds for any
    pairwise distinct codes. *)
Definition example_modes : PathDesiredModes := {|
  PATHDESIRED_MODE_FLYENDPOINT := 0;
  PATHDESIRED_MODE_FLYVECTOR := 1;
  PATHDESIRED_MODE_FLYCIRCLERIGHT := 2;
  PATHDESIRED_MODE_FLYCIRCLELEFT := 3;
  PATHDESIRED_MODE_DRIVEENDPOINT := 4;
  PATHDESIRED_MODE_DRIVEVECTOR := 5;
  PATHDESIRED_MODE_DRIVECIRCLELEFT := 6;
  PATHDESIRED_MODE_DRIVECIRCLERIGHT := 7
|}.

(** * Part II: what the code computes *)

(** ** The dispatcher, for every arithmetic *)

Section Dispatch.
Context {F : Type} {O : FloatOps F} {M : PathDesiredModes}.

Lemma path_progress_runs_selected :
  forall mode (start_point end_point cur_point : vec3 F) status,
    path_progress start_point end_point cur_point status mode =
    run_solver (selected_solver mode) start_point end_point cur_point status.
Proof.
  intros mode s e c st. unfold path_progress, selected_solver.
  repeat match goal with
         | |- context [(mode =? ?k)%Z] => destruct (mode =? k)%Z; simpl; try reflexivity
         end.
Qed.

Lemma selected_solver_unknown : forall mode,
  ~ In mode recognized_modes -> selected_solver mode = Endpoint false.
Proof.
  intros mode Hn. unfold selected_solver.
  repeat match goal with
         | |- context [(mode =? ?k)%Z] =>
             destruct (Z.eqb_spec mode k) as [->|_];
             [ exfalso; apply Hn; unfold recognized_modes; simpl; tauto | ]
         end.
  reflexivity.
Qed.

(** With pairwise distinct codes, each recognized mode selects its solver. *)
Lemma selected_solver_recognized : distinct_modes ->
  selected_solver PATHDESIRED_MODE_FLYVECTOR = Vector true /\
  selected_solver PATHDESIRED_MODE_DRIVEVECTOR = Vector false /\
  selected_solver PATHDESIRED_MODE_FLYCIRCLERIGHT = Circle true /\
  selected_solver PATHDESIRED_MODE_DRIVECIRCLERIGHT = Circle true /\
  selected_solver PATHDESIRED_MODE_FLYCIRCLELEFT = Circle false /\
  selected_solver PATHDESIRED_MODE_DRIVECIRCLELEFT = Circle false /\
  selected_solver PATHDESIRED_MODE_FLYENDPOINT = Endpoint true /\
  selected_solver PATHDESIRED_MODE_DRIVEENDPOINT = Endpoint false.
Proof.
  unfold distinct_modes, recognized_modes. intros Hd.
  repeat match goal with
         | Hd : NoDup (_ :: _) |- _ =>
             let Hn := fresh "Hn" in
             apply NoDup_cons_iff in Hd; destruct Hd as [Hn Hd]; simpl in Hn
         end.
  unfold selected_solver.
  repeat split;
    repeat first
      [ rewrite Z.eqb_refl
      | rewrite (proj2 (Z.eqb_neq _ _))
          by (let Heq := fresh in
              intro Heq; first [ tauto | symmetry in Heq; tauto ]) ];
    reflexivity.
Qed.
End Dispatch.

(** ** What each solver writes, for every arithmetic

    Every solver overwrites the four fields of the status: its result is a
    record that no longer mentions the status it received. *)

Section Writes.
Context {F : Type} {O : FloatOps F}.
Local Open Scope cfloat_scope.

Lemma path_endpoint_writes : forall start_point end_point cur_point status mode3D,
  let path := diff3 mode3D end_point start_point in
  let diff := diff3 mode3D end_point cur_point in
  let dist_diff := sqrtf (dot3 diff diff) in
  let dist_path := sqrtf (dot3 path path) in
  path_endpoint start_point end_point cur_point status mode3D =
  if dist_diff <? c_1e_6f
  then PathStatus f1 f0 (Vec3 f0 f0 f0) (Vec3 f0 f0 f1)
  else PathStatus
         (if dist_path + f1 >? dist_diff
          then f1 - dist_diff / (f1 + dist_path) else f0)
         dist_diff
         (Vec3 f0 f0 f0)
         (Vec3 (c0 diff / dist_diff) (c1 diff / dist_diff) (c2 diff / dist_diff)).
Proof.
  intros s e c st mode3D. cbv zeta. unfold path_endpoint, diff3, dot3. simpl.
  repeat match goal with
         | |- context [flt ?a ?b] => destruct (flt a b)
         end; reflexivity.
Qed.

Lemma path_vector_writes : forall start_point end_point cur_point status mode3D,
  let path := diff3 mode3D end_point start_point in
  let diff := diff3 mode3D cur_point start_point in
  let dist_path := sqrtf (dot3 path path) in
  let progress :=
    boundf (if dist_path >? c_1e_6f
            then dot3 path diff / (dist_path * dist_path) else f1) f0 f1 in
  let correction :=
    Vec3 (progress * c0 path + c0 start_point - c0 cur_point)
         (progress * c1 path + c1 start_point - c1 cur_point)
         (progress * c2 path + c2 start_point - c2 cur_point) in
  let err := sqrt_dbl (dot3 correction correction) in
  path_vector start_point end_point cur_point status mode3D =
  PathStatus
    progress
    err
    (if err >? c_1e_6f
     then Vec3 (c0 correction / err) (c1 correction / err) (c2 correction / err)
     else Vec3 f0 f0 f1)
    (if dist_path >? c_1e_6f
     then Vec3 (c0 path / dist_path) (c1 path / dist_path) (c2 path / dist_path)
     else Vec3 f0 f0 f0).
Proof.
  intros s e c st mode3D. cbv zeta. unfold path_vector, diff3, dot3. simpl.
  match goal with
  | |- context [flt c_1e_6f (sqrtf ?a)] => destruct (flt c_1e_6f (sqrtf a))
  end; simpl;
  match goal with
  | |- context [flt c_1e_6f (sqrt_dbl ?a)] => destruct (flt c_1e_6f (sqrt_dbl a))
  end; reflexivity.
Qed.

Lemma path_circle_writes : forall start_point end_point cur_point status clockwise,
  let radius_north := c0 end_point - c0 start_point in
  let radius_east := c1 end_point - c1 start_point in
  let diff_north := c0 cur_point - c0 end_point in
  let diff_east := c1 cur_point - c1 end_point in
  let radius := sqrtf (powf radius_north f2 + powf radius_east f2) in
  let cradius := sqrtf (powf diff_north f2 + powf diff_east f2) in
  let a_diff := atan2f diff_north diff_east in
  let a_radius := atan2f radius_north radius_east in
  let a_diff := if a_diff <? f0 then a_diff + f2 * M_PI_F else a_diff in
  let a_radius := if a_radius <? f0 then a_radius + f2 * M_PI_F else a_radius in
  let raw := (a_diff - a_radius + M_PI_F) / (f2 * M_PI_F) in
  let wrapped :=
    if raw <? f0 then raw + f1 else if raw >=? f1 then raw - f1 else raw in
  let side := if radius - cradius >? f0 then f1 else - f1 in
  path_circle start_point end_point cur_point status clockwise =
  if cradius <? c_1e_6f
  then PathStatus f1 radius (Vec3 f0 f1 f0) (Vec3 f1 f0 f0)
  else PathStatus
         (if clockwise then f1 - wrapped else wrapped)
         (fabs (radius - cradius))
         (Vec3 (side * diff_north / cradius) (side * diff_east / cradius) f0)
         (if clockwise
          then Vec3 (- diff_east / cradius) (diff_north / cradius) f0
          else Vec3 (diff_east / cradius) (- diff_north / cradius) f0).
Proof.
  intros s e c st clockwise. cbv zeta. unfold path_circle.
  match goal with
  | |- context [flt (sqrtf ?a) c_1e_6f] => destruct (flt (sqrtf a) c_1e_6f)
  end; [ reflexivity | ].
  destruct clockwise; reflexivity.
Qed.

(** X1.  Every call overwrites the whole status: for every arithmetic and
    every mode code, the status a call leaves does not depend on the status
    it received. *)
Lemma path_progress_overwrites :
  forall (M : PathDesiredModes) start_point end_point cur_point status status' mode,
    path_progress start_point end_point cur_point status mode =
    path_progress start_point end_point cur_point status' mode.
Proof.
  intros M s e c st st' mode. rewrite !path_progress_runs_selected.
  destruct (selected_solver mode); unfold run_solver.
  - rewrite !path_endpoint_writes. reflexivity.
  - rewrite !path_vector_writes. reflexivity.
  - rewrite !path_circle_writes. reflexivity.
Qed.

(** The circle solver reads the horizontal coordinates only. *)
Lemma path_circle_horizontal :
  forall start_point end_point cur_point start_point' end_point' cur_point'
         status status' clockwise,
    same_horizontal start_point start_point' ->
    same_horizontal end_point end_point' ->
    same_horizontal cur_point cur_point' ->
    path_circle start_point end_point cur_point status clockwise =
    path_circle start_point' end_point' cur_point' status' clockwise.
Proof.
  intros [s0 s1 s2] [e0 e1 e2] [x0 x1 x2] [s0' s1' s2'] [e0' e1' e2'] [x0' x1' x2'].
  intros st st' cw. unfold same_horizontal. simpl.
  intros [-> ->] [-> ->] [-> ->]. rewrite !path_circle_writes. reflexivity.
Qed.

(** So does the endpoint solver in 2D mode. *)
Lemma path_endpoint_horizontal :
  forall start_point end_point cur_point start_point' end_point' cur_point'
         status status',
    same_horizontal start_point start_point' ->
    same_horizontal end_point end_point' ->
    same_horizontal cur_point cur_point' ->
    path_endpoint start_point end_point cur_point status false =
    path_endpoint start_point' end_point' cur_point' status' false.
Proof.
  intros [s0 s1 s2] [e0 e1 e2] [x0 x1 x2] [s0' s1' s2'] [e0' e1' e2'] [x0' x1' x2'].
  intros st st'. unfold same_horizontal. simpl.
  intros [-> ->] [-> ->] [-> ->]. rewrite !path_endpoint_writes. reflexivity.
Qed.

(** In 2D mode the vector solver computes its progress and its path
    direction from the horizontal coordinates alone. *)
Lemma path_vector_horizontal :
  forall start_point end_point cur_point start_point' end_point' cur_point'
         status status',
    same_horizontal start_point start_point' ->
    same_horizontal end_point end_point' ->
    same_horizontal cur_point cur_point' ->
    fractional_progress (path_vector start_point end_point cur_point status false) =
    fractional_progress (path_vector start_point' end_point' cur_point' status' false) /\
    path_direction (path_vector start_point end_point cur_point status false) =
    path_direction (path_vector start_point' end_point' cur_point' status' false).
Proof.
  intros [s0 s1 s2] [e0 e1 e2] [x0 x1 x2] [s0' s1' s2'] [e0' e1' e2'] [x0' x1' x2'].
  intros st st'. unfold same_horizontal. simpl.
  intros [-> ->] [-> ->] [-> ->]. rewrite !path_vector_writes.
  split; reflexivity.
Qed.

(** The error is never below zero in an arithmetic where a square root and
    an absolute value never are; this holds of the reals, and of an
    arithmetic with NaN, where a comparison with NaN is false. *)
Lemma error_never_below_zero :
  (forall x, (sqrtf x <? f0) = false) ->
  (forall x, (sqrt_dbl x <? f0) = false) ->
  (forall x, (fabs x <? f0) = false) ->
  (f0 <? f0) = false ->
  forall (M : PathDesiredModes) start_point end_point cur_point status mode,
    (error (path_progress start_point end_point cur_point status mode) <? f0) = false.
Proof.
  intros Hsqrtf Hsqrt Hfabs Hzero M s e c st mode.
  rewrite path_progress_runs_selected.
  destruct (selected_solver mode); unfold run_solver.
  - rewrite path_endpoint_writes. cbv zeta.
    match goal with |- context [if ?b then _ else _] => destruct b end;
      simpl; auto.
  - rewrite path_vector_writes. cbv zeta. simpl. apply Hsqrt.
  - rewrite path_circle_writes. cbv zeta.
    match goal with |- context [if ?b then _ else _] => destruct b end;
      simpl; auto.
Qed.
End Writes.

(** ** Real arithmetic: auxiliary facts *)

Lemma Rltb_false : forall x y, Rltb x y = false <-> ~ x < y.
Proof. intros x y. unfold Rltb. destruct (Rlt_dec x y); split; intros; easy. Qed.

Lemma R_powf_2 : forall x, R_powf x 2 = x * x.
Proof. intros x. unfold R_powf. destruct (Req_dec_T 2 2); [reflexivity | contradiction]. Qed.

Lemma eps_pos : 0 < eps.
Proof. unfold eps. lra. Qed.

Lemma vdot_self_nonneg : forall a, 0 <= vdot a a.
Proof. intros [x y z]. unfold vdot. simpl. nra. Qed.

Lemma vnorm_nonneg : forall a, 0 <= vnorm a.
Proof. intros a. apply sqrt_pos. Qed.

Lemma vnorm_sqr : forall a, vnorm a * vnorm a = vdot a a.
Proof. intros a. apply sqrt_sqrt, vdot_self_nonneg. Qed.

Lemma vnorm_is : forall a n, 0 <= n -> vdot a a = n * n -> vnorm a = n.
Proof.
  intros a n Hn Hd. unfold vnorm. rewrite Hd. apply sqrt_square. assumption.
Qed.

Lemma vnorm_horizontal : forall a : vec3 R,
  vnorm (horizontal a) = sqrt (c0 a * c0 a + c1 a * c1 a).
Proof.
  intros [x y z]. unfold vnorm, horizontal, vflat, vdot. simpl. f_equal. ring.
Qed.

Lemma vnorm_horizontal_is : forall a n,
  0 <= n -> c0 a * c0 a + c1 a * c1 a = n * n -> vnorm (horizontal a) = n.
Proof.
  intros a n Hn Hs. rewrite vnorm_horizontal, Hs. apply sqrt_square. assumption.
Qed.

(** A non-zero vector divided by its length has length one. *)
Lemma unit_length_vdiv : forall a, 0 < vnorm a -> unit_length (vdiv a (vnorm a)).
Proof.
  intros a Hpos. unfold unit_length.
  assert (Hs := vnorm_sqr a).
  unfold vnorm at 1. replace (vdot (vdiv a (vnorm a)) (vdiv a (vnorm a))) with 1.
  - apply sqrt_1.
  - destruct a as [x y z]. unfold vdiv, vdot in *. simpl in *.
    set (n := vnorm (Vec3 x y z)) in *.
    assert (n <> 0) by lra. field_simplify_eq; [ | assumption ]. lra.
Qed.

Lemma unit_length_of_dot : forall a, vdot a a = 1 -> unit_length a.
Proof. intros a Ha. unfold unit_length, vnorm. rewrite Ha. apply sqrt_1. Qed.

Lemma unit_length_down : unit_length (Vec3 0 0 1).
Proof. apply unit_length_of_dot. unfold vdot. simpl. ring. Qed.

Lemma unit_length_east : unit_length (Vec3 0 1 0).
Proof. apply unit_length_of_dot. unfold vdot. simpl. ring. Qed.

Lemma unit_length_north : unit_length (Vec3 1 0 0).
Proof. apply unit_length_of_dot. unfold vdot. simpl. ring. Qed.

Lemma unit_length_opp : forall a, unit_length a -> unit_length (vscale (- 1) a).
Proof.
  intros [x y z] Ha. unfold unit_length, vnorm in *.
  replace (vdot (vscale (- 1) (Vec3 x y z)) (vscale (- 1) (Vec3 x y z)))
    with (vdot (Vec3 x y z) (Vec3 x y z)); [ assumption | ].
  unfold vdot, vscale. simpl. ring.
Qed.

Lemma vscale_1 : forall a, vscale 1 a = a.
Proof. intros [x y z]. unfold vscale. simpl. f_equal; ring. Qed.

(** The two horizontal normals of a horizontal unit vector have length one. *)
Lemma unit_length_normal : forall a k,
  c2 a = 0 -> unit_length (vdiv a k) ->
  unit_length (Vec3 (- c1 a / k) (c0 a / k) 0) /\
  unit_length (Vec3 (c1 a / k) (- c0 a / k) 0).
Proof.
  intros [x y z] k Hz Ha. simpl in Hz. subst z.
  unfold unit_length, vnorm in *. cbn [c0 c1 c2].
  split.
  - rewrite <- Ha. f_equal. unfold vdot, vdiv. simpl. unfold Rdiv. ring.
  - rewrite <- Ha. f_equal. unfold vdot, vdiv. simpl. unfold Rdiv. ring.
Qed.

Lemma clamp01_id : forall x, 0 <= x <= 1 -> clamp01 x = x.
Proof.
  intros x Hx. unfold clamp01, Rmax, Rmin.
  destruct (Rle_dec 1 x); destruct (Rle_dec 0 _); lra.
Qed.

Lemma clamp01_bounds : forall x, 0 <= clamp01 x <= 1.
Proof.
  intros x. unfold clamp01, Rmax, Rmin.
  destruct (Rle_dec 1 x); destruct (Rle_dec 0 _); lra.
Qed.

Lemma boundf_clamp01 : forall x, boundf x f0 f1 = clamp01 x.
Proof.
  intros x. unfold boundf, clamp01. cbn [f0 f1 flt R_ops].
  unfold Rltb, Rmax, Rmin.
  destruct (Rlt_dec x 0), (Rlt_dec 1 x), (Rle_dec 1 x);
    try destruct (Rle_dec 0 1); try destruct (Rle_dec 0 x); lra.
Qed.

Lemma R_atan2_bounds : forall y x, - PI < R_atan2 y x <= PI.
Proof.
  intros y x. unfold R_atan2.
  pose proof PI_RGT_0 as Hpi.
  pose proof (atan_bound (y / x)) as Hb.
  destruct (Rlt_dec 0 x) as [Hx|Hx]; [ lra | ].
  destruct (Rlt_dec x 0) as [Hx'|Hx'].
  - assert (Hinv : / x < 0) by (apply Rinv_lt_0_compat; assumption).
    destruct (Rle_dec 0 y) as [Hy|Hy].
    + assert (Hq : y / x <= 0) by (unfold Rdiv; nra).
      assert (Ha : atan (y / x) <= 0).
      { destruct Hq as [Hq|Hq].
        - left. rewrite <- atan_0. apply atan_increasing. assumption.
        - rewrite Hq, atan_0. lra. }
      lra.
    + assert (Hq : 0 < y / x) by (unfold Rdiv; nra).
      assert (Ha : 0 < atan (y / x)).
      { rewrite <- atan_0. apply atan_increasing. assumption. }
      lra.
  - destruct (Rlt_dec 0 y); [ lra | ]. destruct (Rlt_dec y 0); lra.
Qed.

Lemma R_atan2_north : forall y x, x = 0 -> 0 < y -> R_atan2 y x = PI / 2.
Proof.
  intros y x -> Hy. unfold R_atan2.
  destruct (Rlt_dec 0 0); [ lra | ]. destruct (Rlt_dec 0 y); [ reflexivity | lra ].
Qed.

Lemma R_atan2_south : forall y x, x = 0 -> y < 0 -> R_atan2 y x = - (PI / 2).
Proof.
  intros y x -> Hy. unfold R_atan2.
  destruct (Rlt_dec 0 0); [ lra | ]. destruct (Rlt_dec 0 y); [ lra | ].
  destruct (Rlt_dec y 0); [ reflexivity | lra ].
Qed.

Lemma bearing_bounds : forall v, 0 <= bearing v < 2 * PI.
Proof.
  intros v. unfold bearing. cbv zeta.
  pose proof (R_atan2_bounds (c0 v) (c1 v)) as Hb. pose proof PI_RGT_0.
  destruct (Rlt_dec _ 0); lra.
Qed.

Lemma bearing_north : forall v, c1 v = 0 -> 0 < c0 v -> bearing v = PI / 2.
Proof.
  intros v Hx Hy. unfold bearing. cbv zeta. rewrite R_atan2_north by assumption.
  pose proof PI_RGT_0. destruct (Rlt_dec (PI / 2) 0); lra.
Qed.

Lemma bearing_south : forall v, c1 v = 0 -> c0 v < 0 -> bearing v = 3 * PI / 2.
Proof.
  intros v Hx Hy. unfold bearing. cbv zeta. rewrite R_atan2_south by assumption.
  pose proof PI_RGT_0. destruct (Rlt_dec (- (PI / 2)) 0); lra.
Qed.

Lemma raw_progress_bounds : forall diff radius_vec,
  - (1 / 2) < raw_progress diff radius_vec < 3 / 2.
Proof.
  intros d rv. unfold raw_progress.
  pose proof (bearing_bounds d) as Hd. pose proof (bearing_bounds rv) as Hr.
  pose proof PI_RGT_0 as Hpi.
  set (n := bearing d - bearing rv + PI) in *.
  assert (Hn : - PI < n < 3 * PI) by (subst n; lra).
  assert (Hi : 0 < / (2 * PI)) by (apply Rinv_0_lt_compat; lra).
  assert (Hm : (2 * PI) * / (2 * PI) = 1) by (field; lra).
  unfold Rdiv. split; nra.
Qed.

Lemma wrap01_bounds : forall p, - 1 <= p < 2 -> 0 <= wrap01 p < 1.
Proof.
  intros p Hp. unfold wrap01.
  destruct (Rlt_dec p 0); [ lra | ]. destruct (Rle_dec 1 p); lra.
Qed.

(** ** The code computes the solutions of the specification *)

Ltac unfold_ops :=
  cbv [f0 f1 f2 c_1e_6f M_PI_F fadd fsub fmul fdiv fneg flt fle
       sqrtf sqrt_dbl powf atan2f fabs R_ops].

Lemma diff3_R : forall mode3D (a b : vec3 R),
  diff3 mode3D a b = vflat mode3D (vsub a b).
Proof. reflexivity. Qed.

Lemma correction_vector : forall p (path s c : vec3 R),
  Vec3 (p * c0 path + c0 s - c0 c) (p * c1 path + c1 s - c1 c)
       (p * c2 path + c2 s - c2 c) =
  vsub (vadd s (vscale p path)) c.
Proof. intros. unfold vsub, vadd, vscale. simpl. f_equal; ring. Qed.

Lemma path_endpoint_solution : forall start_point end_point cur_point status mode3D,
  path_endpoint start_point end_point cur_point status mode3D =
  endpoint_solution start_point end_point cur_point mode3D.
Proof.
  intros s e c st mode3D. rewrite path_endpoint_writes. cbv zeta.
  rewrite !diff3_R. change (@dot3 R R_ops) with vdot.
  unfold endpoint_solution.
  set (path := vflat mode3D (vsub e s)).
  set (diff := vflat mode3D (vsub e c)).
  unfold_ops. fold (vnorm path) (vnorm diff). unfold Rltb. fold eps.
  destruct (Rlt_dec (vnorm diff) eps); [ reflexivity | ].
  destruct (Rlt_dec (vnorm diff) (vnorm path + 1)); reflexivity.
Qed.

Lemma path_vector_solution : forall start_point end_point cur_point status mode3D,
  path_vector start_point end_point cur_point status mode3D =
  vector_solution start_point end_point cur_point mode3D.
Proof.
  intros s e c st mode3D. rewrite path_vector_writes. cbv zeta.
  rewrite boundf_clamp01, !diff3_R. change (@dot3 R R_ops) with vdot.
  unfold vector_solution.
  set (path := vflat mode3D (vsub e s)).
  set (diff := vflat mode3D (vsub c s)).
  unfold_ops. fold (vnorm path). unfold Rltb, Rsqr. fold eps.
  destruct (Rlt_dec eps (vnorm path)).
  all: match goal with |- context [clamp01 ?x] => set (progress := clamp01 x) end.
  all: rewrite correction_vector;
       set (corr := vsub (vadd s (vscale progress path)) c);
       fold (vnorm corr);
       destruct (Rlt_dec eps (vnorm corr)); reflexivity.
Qed.

Lemma path_circle_solution : forall start_point end_point cur_point status clockwise,
  path_circle start_point end_point cur_point status clockwise =
  circle_solution start_point end_point cur_point clockwise.
Proof.
  intros s e c st clockwise. rewrite path_circle_writes. cbv zeta.
  unfold circle_solution, raw_progress, bearing, wrap01. cbv zeta.
  rewrite !vnorm_horizontal.
  destruct s as [s0 s1 s2], e as [e0 e1 e2], c as [x0 x1 x2].
  unfold_ops. rewrite !R_powf_2. unfold horizontal, vflat, vsub, vscale, vdiv.
  cbn [c0 c1 c2]. fold eps. unfold Rltb, Rleb.
  set (radius := sqrt ((e0 - s0) * (e0 - s0) + (e1 - s1) * (e1 - s1))).
  set (cradius := sqrt ((x0 - e0) * (x0 - e0) + (x1 - e1) * (x1 - e1))).
  destruct (Rlt_dec cradius eps); [ reflexivity | ].
  destruct (Rlt_dec (R_atan2 (x0 - e0) (x1 - e1)) 0),
           (Rlt_dec (R_atan2 (e0 - s0) (e1 - s1)) 0).
  all: match goal with |- context [Rlt_dec ?raw 0] => set (p := raw) end.
  all: destruct (Rlt_dec p 0); [ | destruct (Rle_dec 1 p) ].
  all: destruct (Rlt_dec 0 (radius - cradius)), (Rlt_dec cradius radius);
       try lra.
  all: destruct clockwise; f_equal; f_equal; unfold Rdiv; ring.
Qed.

(** The progress of the vector solver stays on the segment. *)
Lemma path_vector_progress_on_segment :
  forall start_point end_point cur_point status mode3D,
    0 <= fractional_progress
           (path_vector start_point end_point cur_point status mode3D) <= 1.
Proof.
  intros s e c st mode3D. rewrite path_vector_solution.
  unfold vector_solution. cbv zeta. cbn [fractional_progress].
  apply clamp01_bounds.
Qed.

(** ** The directions of each solution *)

Lemma endpoint_directions : forall start_point end_point cur_point mode3D,
  let r := endpoint_solution start_point end_point cur_point mode3D in
  correction_direction r = vzero /\ unit_length (path_direction r).
Proof.
  intros s e c mode3D r. subst r. unfold endpoint_solution. cbv zeta.
  pose proof eps_pos.
  destruct (Rlt_dec _ eps); cbn [correction_direction path_direction].
  - split; [ reflexivity | apply unit_length_down ].
  - split; [ reflexivity | apply unit_length_vdiv; lra ].
Qed.

Lemma vector_directions : forall start_point end_point cur_point mode3D,
  let path := vflat mode3D (vsub end_point start_point) in
  let r := vector_solution start_point end_point cur_point mode3D in
  unit_length (correction_direction r) /\
  (eps < vnorm path -> unit_length (path_direction r)) /\
  (vnorm path <= eps -> path_direction r = vzero).
Proof.
  intros s e c mode3D path r. subst r. unfold vector_solution. cbv zeta.
  fold path. pose proof eps_pos.
  cbn [correction_direction path_direction].
  split; [ | split ].
  - destruct (Rlt_dec eps (vnorm (vsub _ c)));
      [ apply unit_length_vdiv; lra | apply unit_length_down ].
  - intros Hp. destruct (Rlt_dec eps (vnorm path)); [ | lra ].
    apply unit_length_vdiv; lra.
  - intros Hp. destruct (Rlt_dec eps (vnorm path)); [ lra | reflexivity ].
Qed.

Lemma circle_directions : forall start_point end_point cur_point clockwise,
  let r := circle_solution start_point end_point cur_point clockwise in
  unit_length (correction_direction r) /\ unit_length (path_direction r).
Proof.
  intros s e c cw r. subst r. unfold circle_solution. cbv zeta.
  set (diff := horizontal (vsub c e)). pose proof eps_pos.
  destruct (Rlt_dec (vnorm diff) eps);
    cbn [correction_direction path_direction].
  - split; [ apply unit_length_east | apply unit_length_north ].
  - assert (Hu : unit_length (vdiv diff (vnorm diff)))
      by (apply unit_length_vdiv; lra).
    split.
    + destruct (Rlt_dec (vnorm diff) _);
        [ rewrite vscale_1; assumption | apply unit_length_opp; assumption ].
    + destruct (unit_length_normal diff (vnorm diff) eq_refl Hu).
      destruct cw; assumption.
Qed.

(** ** The vertical coordinates *)

Ltac eval_vnorm n :=
  apply (vnorm_is _ n); [ lra | unfold vdot, vflat, vsub, vadd, vscale; simpl; lra ].

(** Two calls of the 3D endpoint solver that differ in the altitude of the
    current position only. *)
Lemma fly_endpoint_example :
  let at_end := endpoint_solution (Vec3 0 0 0) (Vec3 3 0 0) (Vec3 3 0 0) true in
  let below := endpoint_solution (Vec3 0 0 0) (Vec3 3 0 0) (Vec3 3 0 4) true in
  fractional_progress at_end = 1 /\ error at_end = 0 /\
  fractional_progress below = 0 /\ error below = 4.
Proof.
  cbv zeta. unfold endpoint_solution. cbv zeta.
  assert (H0 : vnorm (vflat true (vsub (Vec3 3 0 0) (Vec3 3 0 0))) = 0)
    by eval_vnorm 0.
  assert (H4 : vnorm (vflat true (vsub (Vec3 3 0 0) (Vec3 3 0 4))) = 4)
    by eval_vnorm 4.
  assert (H3 : vnorm (vflat true (vsub (Vec3 3 0 0) (Vec3 0 0 0))) = 3)
    by eval_vnorm 3.
  rewrite H0, H4, H3. unfold eps.
  destruct (Rlt_dec 0 (1 / 1000000)); [ | lra ].
  destruct (Rlt_dec 4 (1 / 1000000)); [ lra | ].
  destruct (Rlt_dec 4 (3 + 1)); [ lra | ].
  cbn [fractional_progress error]. repeat split; reflexivity.
Qed.

(** Two calls of the 3D vector solver that differ in the altitude of the
    current position only. *)
Lemma fly_vector_example :
  let at_end := vector_solution (Vec3 0 0 0) (Vec3 3 0 4) (Vec3 3 0 4) true in
  let below := vector_solution (Vec3 0 0 0) (Vec3 3 0 4) (Vec3 3 0 0) true in
  fractional_progress at_end = 1 /\ error at_end = 0 /\
  fractional_progress below = 9 / 25 /\ error below = 12 / 5.
Proof.
  cbv zeta. unfold vector_solution. cbv zeta.
  assert (H5 : vnorm (vflat true (vsub (Vec3 3 0 4) (Vec3 0 0 0))) = 5)
    by eval_vnorm 5.
  rewrite H5. pose proof eps_pos as Heps. assert (Heps1 : eps < 1) by (unfold eps; lra).
  destruct (Rlt_dec eps 5); [ | lra ].
  cbn [fractional_progress error].
  assert (Hp1 : clamp01 (vdot (vflat true (vsub (Vec3 3 0 4) (Vec3 0 0 0)))
                              (vflat true (vsub (Vec3 3 0 4) (Vec3 0 0 0))) / Rsqr 5) = 1).
  { replace (vdot _ _ / Rsqr 5) with 1
      by (unfold vdot, vflat, vsub, Rsqr; simpl; field).
    apply clamp01_id. lra. }
  assert (Hp2 : clamp01 (vdot (vflat true (vsub (Vec3 3 0 4) (Vec3 0 0 0)))
                              (vflat true (vsub (Vec3 3 0 0) (Vec3 0 0 0))) / Rsqr 5) = 9 / 25).
  { replace (vdot _ _ / Rsqr 5) with (9 / 25)
      by (unfold vdot, vflat, vsub, Rsqr; simpl; field).
    apply clamp01_id. lra. }
  rewrite Hp1, Hp2.
  repeat split.
  - eval_vnorm 0.
  - eval_vnorm (12 / 5).
Qed.

Lemma vertical_affects_whole :
  forall (M : PathDesiredModes) (X : Type) (field : path_status R -> X) mode,
    vertical_affects field mode -> vertical_affects (fun r => r) mode.
Proof.
  intros M X field mode (s & e & c & s' & e' & c' & st & Hs & He & Hc & Hne).
  exists s, e, c, s', e', c', st.
  split; [ exact Hs | ]. split; [ exact He | ]. split; [ exact Hc | ].
  intros Heq. apply Hne. rewrite Heq. reflexivity.
Qed.

Lemma circle_ignores_vertical :
  forall (M : PathDesiredModes) mode clockwise,
    selected_solver mode = Circle clockwise ->
    ~ vertical_affects (fun r => r) mode.
Proof.
  intros M mode cw Hsel (s & e & c & s' & e' & c' & st & Hs & He & Hc & Hne).
  apply Hne. rewrite !path_progress_runs_selected, Hsel. unfold run_solver.
  apply path_circle_horizontal; assumption.
Qed.

Lemma drive_endpoint_ignores_vertical :
  forall (M : PathDesiredModes) mode,
    selected_solver mode = Endpoint false ->
    ~ vertical_affects (fun r => r) mode.
Proof.
  intros M mode Hsel (s & e & c & s' & e' & c' & st & Hs & He & Hc & Hne).
  apply Hne. rewrite !path_progress_runs_selected, Hsel. unfold run_solver.
  apply path_endpoint_horizontal; assumption.
Qed.

Lemma fly_endpoint_uses_vertical :
  forall (M : PathDesiredModes) mode,
    selected_solver mode = Endpoint true ->
    vertical_affects error mode /\ vertical_affects fractional_progress mode.
Proof.
  intros M mode Hsel.
  destruct fly_endpoint_example as (Hp1 & He1 & Hp2 & He2).
  split.
  - exists (Vec3 0 0 0), (Vec3 3 0 0), (Vec3 3 0 0),
           (Vec3 0 0 0), (Vec3 3 0 0), (Vec3 3 0 4), status0.
    repeat split.
    rewrite !path_progress_runs_selected, Hsel. unfold run_solver.
    rewrite !path_endpoint_solution, He1, He2. lra.
  - exists (Vec3 0 0 0), (Vec3 3 0 0), (Vec3 3 0 0),
           (Vec3 0 0 0), (Vec3 3 0 0), (Vec3 3 0 4), status0.
    repeat split.
    rewrite !path_progress_runs_selected, Hsel. unfold run_solver.
    rewrite !path_endpoint_solution, Hp1, Hp2. lra.
Qed.

Lemma fly_vector_uses_vertical :
  forall (M : PathDesiredModes) mode,
    selected_solver mode = Vector true ->
    vertical_affects error mode /\ vertical_affects fractional_progress mode.
Proof.
  intros M mode Hsel.
  destruct fly_vector_example as (Hp1 & He1 & Hp2 & He2).
  split.
  - exists (Vec3 0 0 0), (Vec3 3 0 4), (Vec3 3 0 4),
           (Vec3 0 0 0), (Vec3 3 0 4), (Vec3 3 0 0), status0.
    repeat split.
    rewrite !path_progress_runs_selected, Hsel. unfold run_solver.
    rewrite !path_vector_solution, He1, He2. lra.
  - exists (Vec3 0 0 0), (Vec3 3 0 4), (Vec3 3 0 4),
           (Vec3 0 0 0), (Vec3 3 0 4), (Vec3 3 0 0), status0.
    repeat split.
    rewrite !path_progress_runs_selected, Hsel. unfold run_solver.
    rewrite !path_vector_solution, Hp1, Hp2. lra.
Qed.

Lemma drive_vector_progress_ignores_vertical :
  forall (M : PathDesiredModes) mode,
    selected_solver mode = Vector false ->
    ~ vertical_affects fractional_progress mode /\
    ~ vertical_affects path_direction mode.
Proof.
  intros M mode Hsel.
  split; intros (s & e & c & s' & e' & c' & st & Hs & He & Hc & Hne);
    apply Hne; rewrite !path_progress_runs_selected, Hsel; unfold run_solver;
    apply path_vector_horizontal; assumption.
Qed.

(** In 2D mode the vector solver still subtracts the altitude of the current
    position from that of the start point: the correction, and with it the
    error, depend on the vertical coordinates. *)
Lemma drive_vector_error_uses_vertical :
  forall (M : PathDesiredModes) mode,
    selected_solver mode = Vector false ->
    vertical_affects error mode.
Proof.
  intros M mode Hsel.
  exists (Vec3 0 0 0), (Vec3 3 0 0), (Vec3 3 0 0),
         (Vec3 0 0 0), (Vec3 3 0 0), (Vec3 3 0 4), status0.
  repeat split.
  rewrite !path_progress_runs_selected, Hsel. unfold run_solver.
  rewrite !path_vector_solution. unfold vector_solution. cbv zeta.
  assert (H3 : vnorm (vflat false (vsub (Vec3 3 0 0) (Vec3 0 0 0))) = 3)
    by eval_vnorm 3.
  rewrite H3. assert (Heps1 : eps < 1) by (unfold eps; lra).
  destruct (Rlt_dec eps 3); [ | lra ].
  cbn [error].
  assert (Hp1 : clamp01 (vdot (vflat false (vsub (Vec3 3 0 0) (Vec3 0 0 0)))
                              (vflat false (vsub (Vec3 3 0 0) (Vec3 0 0 0))) / Rsqr 3) = 1).
  { replace (vdot _ _ / Rsqr 3) with 1
      by (unfold vdot, vflat, vsub, Rsqr; simpl; field).
    apply clamp01_id. lra. }
  assert (Hp2 : clamp01 (vdot (vflat false (vsub (Vec3 3 0 0) (Vec3 0 0 0)))
                              (vflat false (vsub (Vec3 3 0 4) (Vec3 0 0 0))) / Rsqr 3) = 1).
  { replace (vdot _ _ / Rsqr 3) with 1
      by (unfold vdot, vflat, vsub, Rsqr; simpl; field).
    apply clamp01_id. lra. }
  rewrite Hp1, Hp2.
  assert (He1 : vnorm (vsub (vadd (Vec3 0 0 0)
                  (vscale 1 (vflat false (vsub (Vec3 3 0 0) (Vec3 0 0 0)))))
                  (Vec3 3 0 0)) = 0) by eval_vnorm 0.
  assert (He2 : vnorm (vsub (vadd (Vec3 0 0 0)
                  (vscale 1 (vflat false (vsub (Vec3 3 0 0) (Vec3 0 0 0)))))
                  (Vec3 3 0 4)) = 4) by eval_vnorm 4.
  rewrite He1, He2. lra.
Qed.

(** ** The code in binary32 arithmetic *)

Lemma binary_round_aux_not_below_zero : forall prec emax mx ex lx,
  not_below_zero (binary_round_aux prec emax false mx ex lx).
Proof.
  intros prec emax mx ex lx. unfold binary_round_aux.
  destruct (shr_fexp prec emax mx ex lx) as [mrs' e'].
  destruct (shr_fexp prec emax _ e' loc_Exact) as [mrs'' e''].
  destruct (shr_m mrs''); [ reflexivity | | reflexivity ].
  destruct (Z.leb e'' (Z.sub emax prec)); reflexivity.
Qed.

Lemma binary_round_not_below_zero : forall prec emax mx ex,
  not_below_zero (binary_round prec emax false mx ex).
Proof.
  intros prec emax mx ex. unfold binary_round.
  destruct (shl_align mx ex _) as [mz ez].
  apply binary_round_aux_not_below_zero.
Qed.

Lemma SFsqrt_not_below_zero : forall prec emax x,
  not_below_zero (SFsqrt prec emax x).
Proof.
  intros prec emax [s|[|]| |[|] m e]; try reflexivity.
  unfold SFsqrt. destruct (SFsqrt_core_binary prec emax (Zpos m) e) as [[mz ez] lz].
  apply binary_round_aux_not_below_zero.
Qed.

(** A value that is not below zero stays so when it is stored in a [float]. *)
Lemma to_float_not_below_zero : forall x,
  not_below_zero x -> not_below_zero (to_float x).
Proof.
  intros [s|s| |s m e] Hx; try exact Hx.
  destruct s; [ discriminate Hx | ].
  unfold to_float, cond_Zopp, binary_normalize.
  apply binary_round_not_below_zero.
Qed.

Lemma SFabs_not_below_zero : forall x, not_below_zero (SFabs x).
Proof. intros [s|s| |s m e]; reflexivity. Qed.

(** X3.  In binary32 arithmetic, whatever [powf] and [atan2f] return, and
    for every input, NaN and infinities included, the error after a call is
    never below zero. *)
Lemma binary32_error_not_below_zero :
  forall powf atan2f (M : PathDesiredModes) start_point end_point cur_point status mode,
    not_below_zero
      (error (path_progress (O := binary32_ops powf atan2f)
                start_point end_point cur_point status mode)).
Proof.
  intros powf atan2f M s e c st mode.
  apply (error_never_below_zero (O := binary32_ops powf atan2f)).
  - intros x. apply SFsqrt_not_below_zero.
  - intros x. apply to_float_not_below_zero, SFsqrt_not_below_zero.
  - intros x. apply to_float_not_below_zero, SFabs_not_below_zero.
  - reflexivity.
Qed.

(** The calls of the specification's scenarios, computed in binary32. *)
Example binary32_endpoint_half_way : forall powf atan2f,
  path_endpoint (O := binary32_ops powf atan2f)
    (binary32_point 0 0 0) (binary32_point 10 0 0) (binary32_point 5 0 0)
    binary32_status0 true =
  PathStatus
    (SFsub 24 128 (binary32_of_Z 1)
       (SFdiv 24 128 (binary32_of_Z 5) (binary32_of_Z 11)))
    (binary32_of_Z 5)
    (binary32_point 0 0 0) (binary32_point 1 0 0).
Proof. intros. vm_compute. reflexivity. Qed.

Example binary32_vector_off_track : forall powf atan2f,
  path_vector (O := binary32_ops powf atan2f)
    (binary32_point 0 0 0) (binary32_point 10 0 0) (binary32_point 5 5 0)
    binary32_status0 true =
  PathStatus
    (SFdiv 24 128 (binary32_of_Z 1) (binary32_of_Z 2))
    (binary32_of_Z 5)
    (binary32_point 0 (-1) 0) (binary32_point 1 0 0).
Proof. intros. vm_compute. reflexivity. Qed.

(** In 2D mode, four units below the end of the path: the progress is 1 and
    the error is the difference of altitude. *)
Example binary32_drive_vector_altitude : forall powf atan2f,
  path_vector (O := binary32_ops powf atan2f)
    (binary32_point 0 0 0) (binary32_point 3 0 0) (binary32_point 3 0 4)
    binary32_status0 false =
  PathStatus (binary32_of_Z 1) (binary32_of_Z 4)
    (binary32_point 0 0 (-1)) (binary32_point 1 0 0).
Proof. intros. vm_compute. reflexivity. Qed.

(** On the circle, with a [powf] that squares at the exponent 2 and whatever
    [atan2f] returns: the error is 0 and the correction points to the
    center; its east component is the negative zero. *)
Example binary32_on_circle_correction : forall atan2f,
  let r := path_circle (O := binary32_ops (fun x _ => SFmul 24 128 x x) atan2f)
             (binary32_point 0 0 0) (binary32_point 10 0 0) (binary32_point 20 0 0)
             binary32_status0 false in
  error r = S754_zero false /\
  correction_direction r =
  Vec3 (binary32_of_Z (-1)) (S754_zero true) (S754_zero false).
Proof. intros. split; vm_compute; reflexivity. Qed.

(** The difference of a number and itself is the positive zero. *)
Lemma SFsub_diag : forall x, is_finite x = true -> SFsub 24 128 x x = S754_zero false.
Proof.
  intros [[|]|[|]| |s m e] H; try discriminate H; try reflexivity.
  unfold SFsub. cbv zeta. rewrite Z.sub_diag. reflexivity.
Qed.

(** What is not below zero is NaN, or at least zero. *)
Lemma not_below_zero_cases : forall x,
  not_below_zero x -> x = S754_nan \/ SFleb (S754_zero false) x = true.
Proof.
  intros [s|[|]| |[|] m e] H; try discriminate H; auto.
Qed.

(** ** Rounding in binary32

    The sum, the difference and the quotient of two floats are roundings of
    the exact results: valid floats that no float separates from them. *)

Section Rounding.
Local Open Scope Z_scope.

(** The exponent of the binade of magnitude [e] in binary32. *)
Lemma fexp32 : forall e, fexp 24 128 e = Z.max (e - 24) (-149).
Proof. reflexivity. Qed.

Lemma digits_spec : forall p,
  2 ^ (Zpos (digits2_pos p) - 1) <= Zpos p < 2 ^ Zpos (digits2_pos p).
Proof.
  induction p as [p IH|p IH|]; simpl digits2_pos.
  - rewrite Pos2Z.inj_succ.
    replace (Z.succ (Zpos (digits2_pos p)) - 1) with (Z.succ (Zpos (digits2_pos p) - 1)) by lia.
    rewrite !Z.pow_succ_r by lia. lia.
  - rewrite Pos2Z.inj_succ.
    replace (Z.succ (Zpos (digits2_pos p)) - 1) with (Z.succ (Zpos (digits2_pos p) - 1)) by lia.
    rewrite !Z.pow_succ_r by lia. lia.
  - simpl. lia.
Qed.

(** The number of digits of a positive integer is fixed by the powers of 2
    around it. *)
Lemma digits_unique : forall p d, 2 ^ (d - 1) <= Zpos p < 2 ^ d -> 0 < d -> Zpos (digits2_pos p) = d.
Proof.
  intros p d [Hlo Hhi] Hd. destruct (digits_spec p) as [Hlo' Hhi'].
  assert (Hp : 0 < Zpos (digits2_pos p)) by lia.
  destruct (Z.lt_trichotomy (Zpos (digits2_pos p)) d) as [H|[H|H]]; [ | exact H | ].
  - exfalso. assert (2 ^ Zpos (digits2_pos p) <= 2 ^ (d - 1)) by (apply Z.pow_le_mono_r; lia). lia.
  - exfalso. assert (2 ^ d <= 2 ^ (Zpos (digits2_pos p) - 1)) by (apply Z.pow_le_mono_r; lia). lia.
Qed.

(** An integer of [d] binary digits lies between 2^(d-1) and 2^d. *)
Lemma Zdigits2_spec : forall m, 0 < m -> 2 ^ (Zdigits2 m - 1) <= m < 2 ^ Zdigits2 m.
Proof. intros [|p|p] H; try lia. apply digits_spec. Qed.

Lemma Zdigits2_pos : forall m, 0 < m -> 0 < Zdigits2 m.
Proof. intros [|p|p] H; simpl; lia. Qed.

(** The number of digits of an integer is fixed by the powers of 2 around it. *)
Lemma Zdigits2_unique : forall m d, 2 ^ (d - 1) <= m < 2 ^ d -> 0 < d -> Zdigits2 m = d.
Proof.
  intros [|p|p] d [Hlo Hhi] Hd.
  - exfalso. assert (0 < 2 ^ (d - 1)) by (apply Z.pow_pos_nonneg; lia). lia.
  - apply digits_unique; auto.
  - exfalso. assert (0 < 2 ^ (d - 1)) by (apply Z.pow_pos_nonneg; lia). lia.
Qed.

(** ** Shifting a mantissa to the right *)

(** The iteration of the library is the iteration over the natural numbers. *)
Lemma iter_pos_nat : forall (A : Type) (f : A -> A) p x,
  iter_pos f p x = Nat.iter (Pos.to_nat p) f x.
Proof.
  intros A f. induction p as [p IH|p IH|]; intros x; simpl iter_pos.
  - rewrite !IH. rewrite Pos2Nat.inj_xI.
    replace (S (2 * Pos.to_nat p))%nat with (Pos.to_nat p + S (Pos.to_nat p))%nat by lia.
    rewrite Nat.iter_add. f_equal. rewrite Nat.iter_succ_r. reflexivity.
  - rewrite !IH. rewrite Pos2Nat.inj_xO.
    replace (2 * Pos.to_nat p)%nat with (Pos.to_nat p + Pos.to_nat p)%nat by lia.
    rewrite Nat.iter_add. reflexivity.
  - reflexivity.
Qed.

(** One shift halves the mantissa, keeps the bit shifted out and remembers
    whether anything was lost before. *)
Lemma shr_1_spec : forall m r s, 0 <= m ->
  shr_1 (Build_shr_record m r s) = Build_shr_record (m / 2) (Z.odd m) (r || s).
Proof.
  intros m r s Hm. rewrite <- Z.div2_div.
  destruct m as [|[p|p|]|]; try reflexivity. lia.
Qed.

Lemma shifted_step : forall M inex k mrs, 0 <= M -> 0 <= k ->
  shifted M inex k mrs -> shifted M inex (k + 1) (shr_1 mrs).
Proof.
  intros M inex k [m r s] HM Hk (Hm & Hrs & Hk1). simpl in Hm, Hrs.
  assert (H2k : 0 < 2 ^ k) by (apply Z.pow_pos_nonneg; lia).
  assert (Hm0 : 0 <= m) by (subst m; apply Z.div_pos; lia).
  rewrite shr_1_spec by exact Hm0.
  assert (Hmod : M mod 2 ^ (k + 1) = M mod 2 ^ k + 2 ^ k * (m mod 2)).
  { rewrite Z.pow_add_r by lia. change (2 ^ 1) with 2.
    rewrite Z.rem_mul_r by lia. subst m. reflexivity. }
  assert (Hrange : 0 <= M mod 2 ^ k < 2 ^ k) by (apply Z.mod_pos_bound; lia).
  assert (Hodd : m mod 2 = if Z.odd m then 1 else 0).
  { rewrite Zmod_odd. reflexivity. }
  unfold shifted; simpl. repeat split.
  - subst m. rewrite Z.pow_add_r by lia. change (2 ^ 1) with 2.
    rewrite Z.div_div by lia. reflexivity.
  - rewrite Hrs, Hmod, Hodd.
    destruct (Z.odd m), inex, (Z.eqb_spec (M mod 2 ^ k) 0) as [E|E]; simpl;
      try reflexivity; try rewrite E;
      try (symmetry; apply negb_true_iff, Z.eqb_neq; lia);
      try (symmetry; apply negb_false_iff, Z.eqb_eq; lia).
  - replace (k + 1 - 1) with k by lia. subst m. reflexivity.
  - replace (k + 1 - 1) with k by lia. exact Hrs.
Qed.

Lemma shifted_iter : forall M inex mrs (n : nat), 0 <= M ->
  shifted M inex 0 mrs -> shifted M inex (Z.of_nat n) (Nat.iter n shr_1 mrs).
Proof.
  intros M inex mrs n HM H0. induction n as [|n IH].
  - exact H0.
  - rewrite Nat2Z.inj_succ. unfold Z.succ. simpl Nat.iter.
    apply shifted_step; [ exact HM | lia | exact IH ].
Qed.

Lemma shifted_start : forall M lx,
  shifted M (match lx with loc_Exact => false | _ => true end) 0 (shr_record_of_loc M lx).
Proof.
  intros M lx. unfold shifted. change (2 ^ 0) with 1. rewrite Z.div_1_r, Z.mod_1_r.
  repeat split; try lia; destruct lx as [|[| |]]; reflexivity.
Qed.

(** A shift by [n] places leaves what [shifted] describes. *)
Lemma shr_shifted : forall M lx ex n, 0 <= M -> 0 <= n ->
  exists mrs, shr (shr_record_of_loc M lx) ex n = (mrs, ex + n) /\
              shifted M (inexact lx) n mrs.
Proof.
  intros M lx ex n HM Hn. destruct n as [|p|p]; try lia.
  - exists (shr_record_of_loc M lx). split.
    + simpl. f_equal. lia.
    + apply shifted_start.
  - exists (iter_pos shr_1 p (shr_record_of_loc M lx)). split.
    + reflexivity.
    + rewrite iter_pos_nat. rewrite <- (positive_nat_Z p).
      apply shifted_iter; [ exact HM | apply shifted_start ].
Qed.

(** ** Rounding to nearest even *)

(** Rounding keeps the mantissa or adds 1 to it. *)
Lemma round_nearest_even_cases : forall q l,
  round_nearest_even q l = q \/ round_nearest_even q l = q + 1.
Proof.
  intros q [|[| |]]; simpl; auto. destruct (Z.even q); auto.
Qed.

(** The mantissa is increased only when something was lost. *)
Lemma round_up_inexact : forall M inex n mrs, 0 <= M -> 0 <= n ->
  shifted M inex n mrs ->
  round_nearest_even (M / 2 ^ n) (loc_of_shr_record mrs) = M / 2 ^ n + 1 ->
  inex = true \/ M mod 2 ^ n <> 0.
Proof.
  intros M inex n [m r s] HM Hn (_ & Hrs & _) Hup. simpl in Hrs.
  destruct r, s; simpl in Hup; try lia;
    destruct inex; auto; right; simpl in Hrs;
    symmetry in Hrs; apply negb_true_iff, Z.eqb_neq in Hrs; exact Hrs.
Qed.

(** The mantissa of an exact integer is kept when less than half a unit
    was lost. *)
Lemma round_down_below_half : forall M n mrs, 0 <= M -> 0 <= n ->
  shifted M false n mrs ->
  2 * (M mod 2 ^ n) < 2 ^ n ->
  round_nearest_even (M / 2 ^ n) (loc_of_shr_record mrs) = M / 2 ^ n.
Proof.
  intros M n [m r s] HM Hn (_ & Hrs & Hk) Hhalf. simpl in Hrs, Hk.
  destruct (Z.eq_dec n 0) as [-> | Hn0].
  - change (2 ^ 0) with 1 in Hrs. rewrite Z.mod_1_r in Hrs. simpl in Hrs.
    apply orb_false_iff in Hrs. destruct Hrs as [-> ->]. reflexivity.
  - destruct Hk as [Hr _]; [ lia | ].
    assert (H2 : 0 < 2 ^ (n - 1)) by (apply Z.pow_pos_nonneg; lia).
    assert (Hsplit : M mod 2 ^ n = M mod 2 ^ (n - 1) + 2 ^ (n - 1) * ((M / 2 ^ (n - 1)) mod 2)).
    { replace n with ((n - 1) + 1) at 1 by lia. rewrite Z.pow_add_r by lia.
      change (2 ^ 1) with 2. rewrite Z.rem_mul_r by lia. reflexivity. }
    assert (Hpow : 2 ^ n = 2 * 2 ^ (n - 1)).
    { replace n with ((n - 1) + 1) at 1 by lia. rewrite Z.pow_add_r by lia.
      change (2 ^ 1) with 2. lia. }
    assert (Hb : 0 <= M mod 2 ^ (n - 1) < 2 ^ (n - 1)) by (apply Z.mod_pos_bound; lia).
    rewrite Zmod_odd in Hsplit. rewrite <- Hr in Hsplit.
    destruct r.
    + exfalso. lia.
    + destruct s; reflexivity.
Qed.

Lemma shr_no_shift : forall mrs e n, n <= 0 -> shr mrs e n = (mrs, e).
Proof. intros mrs e [|p|p] H; try reflexivity. lia. Qed.

(** The result of the rounding of the inexact integer [mx], at the exponent
    [ex]: the mantissa is shifted to the exponent of its binade, and rounded
    from what the shift has lost. *)
Lemma binary_round_aux_spec : forall s mx ex lx,
  0 <= mx ->
  let e' := fexp 24 128 (Zdigits2 mx + ex) in
  let q := mx / 2 ^ (e' - ex) in
  ex <= e' ->
  exists m1,
    (m1 = q \/ m1 = q + 1) /\
    (m1 = q + 1 -> inexact lx = true \/ mx mod 2 ^ (e' - ex) <> 0) /\
    (inexact lx = false -> 2 * (mx mod 2 ^ (e' - ex)) < 2 ^ (e' - ex) -> m1 = q) /\
    0 <= m1 <= 2 ^ 24 /\
    (e' = -149 \/ 2 ^ 23 <= m1) /\
    binary_round_aux 24 128 s mx ex lx =
      if m1 =? 2 ^ 24 then encode32 s (2 ^ 23) (e' + 1) else encode32 s m1 e'.
Proof.
  intros s mx ex lx Hmx e' q Hn.
  assert (He' : -149 <= e') by (unfold e'; rewrite fexp32; lia).
  destruct (shr_shifted mx lx ex (e' - ex) Hmx) as (mrs & Hshr & Hsh); [ lia | ].
  assert (H2n : 0 < 2 ^ (e' - ex)) by (apply Z.pow_pos_nonneg; lia).
  assert (Hq0 : 0 <= q) by (apply Z.div_pos; lia).
  assert (Hq : q < 2 ^ 24 /\ (e' = -149 \/ 2 ^ 23 <= q)).
  { destruct (Z.eq_dec mx 0) as [-> | Hnz].
    - unfold q. rewrite Z.div_0_l by lia. split; [ reflexivity | ].
      left. unfold e' in *. simpl Zdigits2 in *. rewrite fexp32 in *. lia.
    - destruct (Zdigits2_spec mx) as [Hlo Hhi]; [ lia | ].
      assert (Hd : 0 < Zdigits2 mx) by (apply Zdigits2_pos; lia).
      assert (Hfe : e' = Z.max (Zdigits2 mx + ex - 24) (-149)) by (unfold e'; apply fexp32).
      split.
      + apply Z.div_lt_upper_bound; [ lia | ].
        rewrite <- Z.pow_add_r by lia.
        eapply Z.lt_le_trans; [ exact Hhi | ]. apply Z.pow_le_mono_r; lia.
      + destruct (Z.eq_dec e' (-149)) as [E|E]; [ left; exact E | right ].
        apply Z.div_le_lower_bound; [ lia | ].
        rewrite <- Z.pow_add_r by lia.
        eapply Z.le_trans; [ | exact Hlo ]. apply Z.pow_le_mono_r; lia. }
  set (m1 := round_nearest_even q (loc_of_shr_record mrs)).
  assert (Hcases : m1 = q \/ m1 = q + 1) by apply round_nearest_even_cases.
  assert (Hsm : shr_m mrs = q) by (destruct Hsh as (H & _); exact H).
  exists m1. split; [ exact Hcases | ]. split; [ | split; [ | split; [ | split ] ] ].
  - intros Hup. apply (round_up_inexact mx (inexact lx) (e' - ex) mrs); try lia; auto.
  - intros Hex Hhalf. rewrite Hex in Hsh.
    apply (round_down_below_half mx (e' - ex) mrs); try lia; auto.
  - lia.
  - lia.
  - unfold binary_round_aux, shr_fexp. fold e'.
    replace (shr (shr_record_of_loc mx lx) ex (e' - ex)) with (mrs, e')
      by (rewrite Hshr; f_equal; lia).
    rewrite Hsm. fold m1.
    destruct (Z.eqb_spec m1 (2 ^ 24)) as [E24 | N24].
    + rewrite E24. change (Zdigits2 (2 ^ 24)) with 25.
      replace (fexp 24 128 (25 + e') - e') with 1 by (rewrite fexp32; lia).
      reflexivity.
    + assert (Hd1 : Zdigits2 m1 <= 24).
      { destruct (Z.eq_dec m1 0) as [-> | Hnz]; [ simpl; lia | ].
        destruct (Zdigits2_spec m1) as [Hlo Hhi]; [ lia | ].
        destruct (Z_le_gt_dec (Zdigits2 m1) 24) as [H|H]; [ exact H | exfalso ].
        assert (2 ^ 24 <= 2 ^ (Zdigits2 m1 - 1)) by (apply Z.pow_le_mono_r; lia). lia. }
      rewrite shr_no_shift by (rewrite fexp32; lia).
      simpl shr_m. unfold encode32. destruct m1; reflexivity.
Qed.

(** ** The value of a float, in units of 2^-149 *)

(** A canonical mantissa and exponent of binary32: the exponent is between
    -149 and 104, the mantissa is below 2^24, and at least 2^23 unless the
    exponent is -149. *)
Lemma bounded_spec : forall m e,
  bounded 24 128 m e = true <->
  (-149 <= e <= 104 /\ Zpos m < 2 ^ 24 /\ (e = -149 \/ 2 ^ 23 <= Zpos m)).
Proof.
  intros m e. unfold bounded, canonical_mantissa.
  rewrite andb_true_iff, Z.eqb_eq, Z.leb_le, fexp32.
  change (128 - 24) with 104.
  destruct (digits_spec m) as [Hlo Hhi].
  assert (Hd : 0 < Zpos (digits2_pos m)) by lia.
  split.
  - intros [Hc He].
    assert (Hd24 : Zpos (digits2_pos m) <= 24) by lia.
    split; [ lia | split ].
    + eapply Z.lt_le_trans; [ exact Hhi | apply Z.pow_le_mono_r; lia ].
    + destruct (Z.eq_dec e (-149)) as [E|E]; [ left; exact E | right ].
      assert (Zpos (digits2_pos m) = 24) by lia.
      replace 23 with (Zpos (digits2_pos m) - 1) by lia. exact Hlo.
  - intros (He & Hm & Hn). split; [ | lia ].
    assert (Hd24 : Zpos (digits2_pos m) <= 24).
    { destruct (Z_le_gt_dec (Zpos (digits2_pos m)) 24) as [H|H]; [ exact H | exfalso ].
      assert (2 ^ 24 <= 2 ^ (Zpos (digits2_pos m) - 1)) by (apply Z.pow_le_mono_r; lia). lia. }
    destruct Hn as [E | Hn]; [ lia | ].
    assert (24 <= Zpos (digits2_pos m)).
    { destruct (Z_le_gt_dec 24 (Zpos (digits2_pos m))) as [H|H]; [ exact H | exfalso ].
      assert (2 ^ Zpos (digits2_pos m) <= 2 ^ 23) by (apply Z.pow_le_mono_r; lia). lia. }
    lia.
Qed.

(** Of two canonical positive floats, the one of smaller exponent is the
    smaller. *)
Lemma canonical_lt : forall m1 e1 m2 e2,
  bounded 24 128 m1 e1 = true -> bounded 24 128 m2 e2 = true -> e1 < e2 ->
  Zpos m1 * 2 ^ (e1 + 149) < Zpos m2 * 2 ^ (e2 + 149).
Proof.
  intros m1 e1 m2 e2 H1 H2 Hlt.
  apply bounded_spec in H1. apply bounded_spec in H2.
  destruct H1 as (He1 & Hm1 & _). destruct H2 as (He2 & _ & [E | Hm2]); [ lia | ].
  assert (P1 : 0 < 2 ^ (e1 + 149)) by (apply Z.pow_pos_nonneg; lia).
  assert (P2 : 0 < 2 ^ (e2 + 149)) by (apply Z.pow_pos_nonneg; lia).
  apply Z.lt_le_trans with (2 ^ 24 * 2 ^ (e1 + 149)).
  - apply Z.mul_lt_mono_pos_r; assumption.
  - apply Z.le_trans with (2 ^ 23 * 2 ^ (e2 + 149)).
    + rewrite <- !Z.pow_add_r by lia. apply Z.pow_le_mono_r; lia.
    + apply Z.mul_le_mono_nonneg_r; lia.
Qed.

Lemma canonical_compare : forall m1 e1 m2 e2,
  bounded 24 128 m1 e1 = true -> bounded 24 128 m2 e2 = true ->
  match Z.compare e1 e2 with
  | Lt => Lt
  | Gt => Gt
  | Eq => Pos.compare_cont Eq m1 m2
  end = (Zpos m1 * 2 ^ (e1 + 149) ?= Zpos m2 * 2 ^ (e2 + 149)).
Proof.
  intros m1 e1 m2 e2 H1 H2.
  destruct (Z.compare_spec e1 e2) as [E | L | G].
  - subst e2. change (Pos.compare_cont Eq m1 m2) with (Zpos m1 ?= Zpos m2).
    assert (P : 0 < 2 ^ (e1 + 149)).
    { apply Z.pow_pos_nonneg; [ lia | ]. apply bounded_spec in H1. lia. }
    destruct (Z.compare_spec (Zpos m1) (Zpos m2)) as [E | L | G]; symmetry.
    + apply Z.compare_eq_iff. rewrite E. reflexivity.
    + apply Z.compare_lt_iff. apply Z.mul_lt_mono_pos_r; assumption.
    + apply Z.compare_gt_iff. apply Z.mul_lt_mono_pos_r; assumption.
  - symmetry. apply Z.compare_lt_iff. apply canonical_lt; assumption.
  - symmetry. apply Z.compare_gt_iff. apply canonical_lt; assumption.
Qed.

Lemma Zval_finite_pos : forall m e, -149 <= e -> 0 < Zpos m * 2 ^ (e + 149).
Proof.
  intros m e He. apply Z.mul_pos_pos; [ lia | apply Z.pow_pos_nonneg; lia ].
Qed.

Lemma Zval_finite : forall s m e,
  Zval (S754_finite s m e) = cond_Zopp s (Zpos m * 2 ^ (e + 149)).
Proof.
  intros [|] m e; unfold Zval, cond_Zopp; [ apply Z.mul_opp_l | reflexivity ].
Qed.

Lemma Zval_zero : forall s, Zval (S754_zero s) = 0.
Proof. reflexivity. Qed.

(** The comparison of two valid floats is the comparison of their values. *)
Lemma SFcompare_Zval : forall x y, valid32 x -> valid32 y ->
  SFcompare x y = Some (Zval x ?= Zval y).
Proof.
  intros x y [Fx Vx] [Fy Vy].
  destruct x as [sx| | |sx mx ex]; try discriminate Fx;
  destruct y as [sy| | |sy my ey]; try discriminate Fy;
  unfold valid_binary in Vx, Vy; rewrite ?Zval_finite, ?Zval_zero.
  - reflexivity.
  - apply bounded_spec in Vy. assert (P := Zval_finite_pos my ey).
    unfold SFcompare. f_equal. destruct sy; unfold cond_Zopp; symmetry.
    + apply Z.compare_gt_iff. lia.
    + apply Z.compare_lt_iff. lia.
  - apply bounded_spec in Vx. assert (P := Zval_finite_pos mx ex).
    unfold SFcompare. f_equal. destruct sx; unfold cond_Zopp; symmetry.
    + apply Z.compare_lt_iff. lia.
    + apply Z.compare_gt_iff. lia.
  - assert (Cxy := canonical_compare mx ex my ey Vx Vy).
    apply bounded_spec in Vx. apply bounded_spec in Vy.
    assert (Px := Zval_finite_pos mx ex). assert (Py := Zval_finite_pos my ey).
    unfold SFcompare. f_equal.
    destruct sx, sy; unfold cond_Zopp.
    + rewrite Z.compare_opp.
      rewrite (Z.compare_antisym (Z.pos mx * 2 ^ (ex + 149)) (Z.pos my * 2 ^ (ey + 149))).
      rewrite <- Cxy.
      destruct (ex ?= ey); reflexivity.
    + symmetry. apply Z.compare_lt_iff. lia.
    + symmetry. apply Z.compare_gt_iff. lia.
    + exact Cxy.
Qed.

Lemma SFltb_Zval : forall x y, valid32 x -> valid32 y ->
  SFltb x y = (Zval x <? Zval y).
Proof.
  intros x y Hx Hy. unfold SFltb. rewrite (SFcompare_Zval x y Hx Hy).
  unfold Z.ltb. destruct (Zval x ?= Zval y); reflexivity.
Qed.

Lemma SFleb_Zval : forall x y, valid32 x -> valid32 y ->
  SFleb x y = (Zval x <=? Zval y).
Proof.
  intros x y Hx Hy. unfold SFleb. rewrite (SFcompare_Zval x y Hx Hy).
  unfold Z.leb. destruct (Zval x ?= Zval y); reflexivity.
Qed.

(** ** Bounds on a rounded result *)

Lemma pow2_lt_inv : forall a b, 0 <= b -> 2 ^ a < 2 ^ b -> a < b.
Proof.
  intros a b Hb H. destruct (Z_lt_ge_dec a b) as [L|G]; [ exact L | exfalso ].
  assert (2 ^ b <= 2 ^ a) by (apply Z.pow_le_mono_r; lia). lia.
Qed.

(** A rounded mantissa and its exponent make a valid float of the expected
    value, when this value is below 2^128. *)
Lemma round_result_valid : forall s m1 e',
  0 <= m1 <= 2 ^ 24 -> -149 <= e' -> (e' = -149 \/ 2 ^ 23 <= m1) ->
  m1 * 2 ^ (e' + 149) < 2 ^ 277 ->
  valid32 (round_result s m1 e') /\
  Zval (round_result s m1 e') = cond_Zopp s (m1 * 2 ^ (e' + 149)).
Proof.
  intros s m1 e' Hm He Hn Hb. unfold round_result.
  assert (P : 0 < 2 ^ (e' + 149)) by (apply Z.pow_pos_nonneg; lia).
  destruct (Z.eqb_spec m1 (2 ^ 24)) as [E | N].
  - subst m1. rewrite <- Z.pow_add_r in Hb by lia.
    apply pow2_lt_inv in Hb; [ | lia ].
    change (2 ^ 23) with 8388608. unfold encode32.
    destruct (Z.leb_spec (e' + 1) 104) as [L | G]; [ | lia ].
    split.
    + split; [ reflexivity | ]. unfold valid_binary. apply bounded_spec.
      change (2 ^ 24) with 16777216. change (2 ^ 23) with 8388608. lia.
    + rewrite Zval_finite. f_equal.
      replace (e' + 1 + 149) with (1 + (e' + 149)) by lia.
      rewrite Z.pow_add_r by lia. change (2 ^ 24) with 16777216. change (2 ^ 1) with 2. lia.
  - destruct m1 as [|p|p]; [ | | lia ].
    + unfold encode32. split; [ split; reflexivity | ].
      rewrite Zval_zero. destruct s; reflexivity.
    + assert (He104 : e' <= 104).
      { destruct Hn as [-> | Hn]; [ lia | ].
        assert (2 ^ 23 * 2 ^ (e' + 149) < 2 ^ 277).
        { eapply Z.le_lt_trans; [ | exact Hb ]. apply Z.mul_le_mono_nonneg_r; lia. }
        rewrite <- Z.pow_add_r in H by lia. apply pow2_lt_inv in H; lia. }
      unfold encode32. destruct (Z.leb_spec e' 104) as [L | G]; [ | lia ].
      split.
      * split; [ reflexivity | ]. unfold valid_binary. apply bounded_spec. lia.
      * apply Zval_finite.
Qed.

(** Every float is below 2^128. *)
Lemma valid32_lt_top : forall C, valid32 C -> Zval C < 2 ^ 277.
Proof.
  intros C [F V]. destruct C as [s| | |s m e]; try discriminate F.
  - reflexivity.
  - unfold valid_binary in V. apply bounded_spec in V. destruct V as (He & Hm & _).
    rewrite Zval_finite.
    assert (P : 0 < 2 ^ (e + 149)) by (apply Z.pow_pos_nonneg; lia).
    assert (Zpos m * 2 ^ (e + 149) < 2 ^ 277).
    { apply Z.lt_le_trans with (2 ^ 24 * 2 ^ (e + 149)).
      - apply Z.mul_lt_mono_pos_r; lia.
      - rewrite <- Z.pow_add_r by lia. apply Z.pow_le_mono_r; lia. }
    destruct s; unfold cond_Zopp; lia.
Qed.

Section RoundArith.

Variables (mx ex e' m1 : Z) (lx : location).
Hypothesis Hmx : 0 <= mx.
Hypothesis Hex : -149 <= ex.
Hypothesis He' : e' = fexp 24 128 (Zdigits2 mx + ex).
Hypothesis Hn : ex <= e'.
Hypothesis H1 : m1 = mx / 2 ^ (e' - ex) \/ m1 = mx / 2 ^ (e' - ex) + 1.
Hypothesis H2 : m1 = mx / 2 ^ (e' - ex) + 1 ->
  inexact lx = true \/ mx mod 2 ^ (e' - ex) <> 0.
Hypothesis H3 : inexact lx = false ->
  2 * (mx mod 2 ^ (e' - ex)) < 2 ^ (e' - ex) -> m1 = mx / 2 ^ (e' - ex).
Hypothesis H4 : e' = -149 \/ 2 ^ 23 <= m1.

Lemma round_arith_facts :
  0 < 2 ^ (ex + 149) /\ 0 < 2 ^ (e' - ex) /\
  2 ^ (e' + 149) = 2 ^ (e' - ex) * 2 ^ (ex + 149) /\
  mx = mx / 2 ^ (e' - ex) * 2 ^ (e' - ex) + mx mod 2 ^ (e' - ex) /\
  0 <= mx mod 2 ^ (e' - ex) < 2 ^ (e' - ex) /\ -149 <= e'.
Proof.
  assert (PE : 0 < 2 ^ (ex + 149)) by (apply Z.pow_pos_nonneg; lia).
  assert (PN : 0 < 2 ^ (e' - ex)) by (apply Z.pow_pos_nonneg; lia).
  repeat split; try assumption.
  - rewrite <- Z.pow_add_r by lia. f_equal. lia.
  - rewrite Z.mul_comm. apply Z.div_mod. lia.
  - apply Z.mod_pos_bound. exact PN.
  - apply Z.mod_pos_bound. exact PN.
  - rewrite He', fexp32. lia.
Qed.

(** A float above the integer lies on the grid of the rounding. *)
Lemma grid_exponent : forall mc ec, bounded 24 128 mc ec = true ->
  mx * 2 ^ (ex + 149) < 2 ^ 24 * 2 ^ (ec + 149) -> e' <= ec.
Proof.
  intros mc ec Hc Hlt. apply bounded_spec in Hc. destruct Hc as (Hec & _).
  rewrite He', fexp32.
  destruct (Z.eq_dec mx 0) as [Z0 | NZ].
  - rewrite Z0 in *. simpl Zdigits2 in *. rewrite fexp32 in He'. lia.
  - destruct (Zdigits2_spec mx) as [Hlo _]; [ lia | ].
    assert (Hd := Zdigits2_pos mx ltac:(lia)).
    assert (PE : 0 < 2 ^ (ex + 149)) by (apply Z.pow_pos_nonneg; lia).
    assert (2 ^ (Zdigits2 mx - 1) * 2 ^ (ex + 149) < 2 ^ 24 * 2 ^ (ec + 149)).
    { eapply Z.le_lt_trans; [ | exact Hlt ]. apply Z.mul_le_mono_nonneg_r; lia. }
    rewrite <- !Z.pow_add_r in H by lia.
    apply pow2_lt_inv in H; lia.
Qed.

(** The rounded integer is not above a float that the integer is not above. *)
Lemma round_upper : forall C, valid32 C ->
  mx * 2 ^ (ex + 149) <= Zval C ->
  (inexact lx = true -> mx * 2 ^ (ex + 149) < Zval C) ->
  m1 * 2 ^ (e' + 149) <= Zval C.
Proof.
  intros C [FC VC] Hle Hstrict.
  destruct round_arith_facts as (PE & PN & HG & Hdiv & Hrem & He149).
  set (E := 2 ^ (ex + 149)) in *. set (N := 2 ^ (e' - ex)) in *.
  set (q := mx / N) in *. set (rem := mx mod N) in *.
  destruct C as [sc| | |sc mc ec]; try discriminate FC.
  - rewrite Zval_zero in *.
    assert (Hz : mx = 0) by nia.
    assert (Hq : q = 0) by (unfold q; rewrite Hz; apply Z.div_0_l; lia).
    assert (Hr : rem = 0) by (unfold rem; rewrite Hz; apply Z.mod_0_l; lia).
    destruct H1 as [-> | Hup]; [ rewrite Hq; lia | ].
    destruct (H2 Hup) as [I | R]; [ | contradiction ].
    specialize (Hstrict I). nia.
  - unfold valid_binary in VC. assert (VC' := VC). apply bounded_spec in VC'.
    rewrite Zval_finite in *.
    assert (PC := Zval_finite_pos mc ec ltac:(lia)).
    destruct sc; unfold cond_Zopp in *; [ exfalso; nia | ].
    assert (Hgrid : e' <= ec).
    { apply (grid_exponent mc ec VC). fold E.
      apply Z.le_lt_trans with (Zpos mc * 2 ^ (ec + 149)); [ exact Hle | ].
      apply Z.mul_lt_mono_pos_r; [ apply Z.pow_pos_nonneg; lia | lia ]. }
    assert (HC : Zpos mc * 2 ^ (ec + 149) = (Zpos mc * 2 ^ (ec - e')) * (N * E)).
    { rewrite <- HG, <- Z.mul_assoc, <- Z.pow_add_r by lia. do 2 f_equal. lia. }
    set (c' := Zpos mc * 2 ^ (ec - e')) in *.
    rewrite HC in *. rewrite HG.
    assert (Hqc : q <= c') by nia.
    destruct H1 as [-> | Hup].
    + apply Z.mul_le_mono_nonneg_r; nia.
    + rewrite Hup. apply Z.mul_le_mono_nonneg_r; [ nia | ].
      destruct (H2 Hup) as [I | R]; [ specialize (Hstrict I); nia | ].
      nia.
Qed.

(** The rounded integer is not below a float that is below the next integer. *)
Lemma round_lower : forall C, valid32 C ->
  Zval C < (mx + 1) * 2 ^ (ex + 149) -> Zval C <= m1 * 2 ^ (e' + 149).
Proof.
  intros C [FC VC] Hle.
  destruct round_arith_facts as (PE & PN & HG & Hdiv & Hrem & He149).
  set (E := 2 ^ (ex + 149)) in *. set (N := 2 ^ (e' - ex)) in *.
  set (q := mx / N) in *. set (rem := mx mod N) in *.
  assert (Hq0 : 0 <= q) by (unfold q; apply Z.div_pos; lia).
  assert (Hm1 : q <= m1) by (destruct H1; lia).
  assert (PG : 0 < 2 ^ (e' + 149)) by (apply Z.pow_pos_nonneg; lia).
  destruct C as [sc| | |sc mc ec]; try discriminate FC.
  - rewrite Zval_zero. nia.
  - unfold valid_binary in VC. assert (VC' := VC). apply bounded_spec in VC'.
    rewrite Zval_finite in *.
    assert (PC := Zval_finite_pos mc ec ltac:(lia)).
    destruct sc; unfold cond_Zopp in *; [ nia | ].
    destruct (Z_le_gt_dec e' ec) as [Hgrid | Hfine].
    + assert (HC : Zpos mc * 2 ^ (ec + 149) = (Zpos mc * 2 ^ (ec - e')) * (N * E)).
      { rewrite <- HG, <- Z.mul_assoc, <- Z.pow_add_r by lia. do 2 f_equal. lia. }
      set (c' := Zpos mc * 2 ^ (ec - e')) in *.
      rewrite HC in *. rewrite HG.
      apply Z.mul_le_mono_nonneg_r; [ nia | ].
      assert (c' <= q) by nia. lia.
    + destruct H4 as [E149 | Hnorm]; [ lia | ].
      apply Z.le_trans with (2 ^ 23 * 2 ^ (e' + 149)).
      * apply Z.le_trans with (2 ^ 24 * 2 ^ (ec + 149)).
        -- apply Z.mul_le_mono_nonneg_r; [ apply Z.pow_nonneg; lia | lia ].
        -- rewrite <- !Z.pow_add_r by lia. apply Z.pow_le_mono_r; lia.
      * apply Z.mul_le_mono_nonneg_r; lia.
Qed.

(** The rounded integer is not above a float when the integer is exact and
    below the middle of this float and the next one. *)
Lemma round_nearest_upper : forall mc ec, bounded 24 128 mc ec = true ->
  inexact lx = false ->
  2 * (mx * 2 ^ (ex + 149)) < 2 * (Zpos mc * 2 ^ (ec + 149)) + 2 ^ (ec + 149) ->
  m1 * 2 ^ (e' + 149) <= Zpos mc * 2 ^ (ec + 149).
Proof.
  intros mc ec VC Hexact Hhalf.
  destruct round_arith_facts as (PE & PN & HG & Hdiv & Hrem & He149).
  assert (VC' := VC). apply bounded_spec in VC'. destruct VC' as (Hec & Hmc & Hnc).
  assert (PC : 0 < 2 ^ (ec + 149)) by (apply Z.pow_pos_nonneg; lia).
  assert (Hgrid : e' <= ec).
  { apply (grid_exponent mc ec VC). nia. }
  destruct (Z.eq_dec e' ec) as [Eq | Ne].
  - subst ec. rewrite HG in *.
    set (E := 2 ^ (ex + 149)) in *. set (N := 2 ^ (e' - ex)) in *.
    set (q := mx / N) in *. set (rem := mx mod N) in *.
    assert (Hqc : q <= Zpos mc) by nia.
    apply Z.mul_le_mono_nonneg_r; [ nia | ].
    destruct (Z.eq_dec q (Zpos mc)) as [Eqc | Nqc].
    + rewrite <- Eqc. rewrite H3; [ lia | exact Hexact | ].
      nia.
    + destruct H1; lia.
  - assert (Hlt : mx * 2 ^ (ex + 149) < Zpos mc * 2 ^ (ec + 149)).
    { destruct Hnc as [E149 | Hnorm]; [ lia | ].
      apply Z.lt_le_trans with (2 ^ 23 * 2 ^ (ec + 149));
        [ | apply Z.mul_le_mono_nonneg_r; lia ].
      destruct (Z.eq_dec mx 0) as [Z0 | NZ];
        [ rewrite Z0, Z.mul_0_l; apply Z.mul_pos_pos; [ reflexivity | exact PC ] | ].
      destruct (Zdigits2_spec mx) as [_ Hhi]; [ lia | ].
      assert (Hd := Zdigits2_pos mx ltac:(lia)).
      apply Z.lt_le_trans with (2 ^ Zdigits2 mx * 2 ^ (ex + 149));
        [ apply Z.mul_lt_mono_pos_r; lia | ].
      rewrite <- !Z.pow_add_r by lia. apply Z.pow_le_mono_r; [ lia | ].
      rewrite He', fexp32 in Hgrid, Ne. lia. }
    assert (Hup := round_upper (S754_finite false mc ec)).
    rewrite Zval_finite in Hup. unfold cond_Zopp in Hup.
    apply Hup.
    + split; [ reflexivity | exact VC ].
    + lia.
    + rewrite Hexact. discriminate.
Qed.

End RoundArith.

(** The rounding of an inexact integer, between the floats around it. *)
Lemma binary_round_aux_bounds : forall s mx ex lx B,
  0 <= mx -> -149 <= ex -> ex <= fexp 24 128 (Zdigits2 mx + ex) ->
  valid32 B ->
  mx * 2 ^ (ex + 149) <= Zval B ->
  (inexact lx = true -> mx * 2 ^ (ex + 149) < Zval B) ->
  exists v, 0 <= v /\
    valid32 (binary_round_aux 24 128 s mx ex lx) /\
    Zval (binary_round_aux 24 128 s mx ex lx) = cond_Zopp s v /\
    (forall C, valid32 C -> mx * 2 ^ (ex + 149) <= Zval C ->
       (inexact lx = true -> mx * 2 ^ (ex + 149) < Zval C) -> v <= Zval C) /\
    (forall C, valid32 C -> Zval C < (mx + 1) * 2 ^ (ex + 149) -> Zval C <= v) /\
    (forall mc ec, bounded 24 128 mc ec = true -> inexact lx = false ->
       2 * (mx * 2 ^ (ex + 149)) < 2 * (Zpos mc * 2 ^ (ec + 149)) + 2 ^ (ec + 149) ->
       v <= Zpos mc * 2 ^ (ec + 149)).
Proof.
  intros s mx ex lx B Hmx Hex Hn HB HleB HltB.
  destruct (binary_round_aux_spec s mx ex lx Hmx Hn)
    as (m1 & H1 & H2 & H3 & Hr & H4 & Heq).
  set (e' := fexp 24 128 (Zdigits2 mx + ex)) in *.
  assert (He' : -149 <= e') by (unfold e'; rewrite fexp32; lia).
  assert (Hup := round_upper mx ex e' m1 lx Hmx Hex eq_refl Hn H1 H2 H3 H4).
  assert (Hlo := round_lower mx ex e' m1 Hmx Hex eq_refl Hn H1 H4).
  assert (Hne := round_nearest_upper mx ex e' m1 lx Hmx Hex eq_refl Hn H1 H2 H3 H4).
  assert (Hv : m1 * 2 ^ (e' + 149) < 2 ^ 277).
  { eapply Z.le_lt_trans; [ apply (Hup B HB HleB HltB) | apply valid32_lt_top; exact HB ]. }
  destruct (round_result_valid s m1 e' Hr He' H4 Hv) as [Hvalid Hval].
  unfold round_result in Hvalid, Hval. rewrite <- Heq in Hvalid, Hval.
  exists (m1 * 2 ^ (e' + 149)).
  split; [ apply Z.mul_nonneg_nonneg; [ lia | apply Z.pow_nonneg; lia ] | ].
  split; [ exact Hvalid | ]. split; [ exact Hval | ].
  split; [ exact Hup | ]. split; [ exact Hlo | exact Hne ].
Qed.

(** ** Alignment of two mantissas *)

Lemma Pos_iter_xO : forall m d, Zpos (Pos.iter xO m d) = Zpos m * 2 ^ Zpos d.
Proof.
  intros m d. induction d as [|d IH] using Pos.peano_ind.
  - simpl. lia.
  - rewrite Pos.iter_succ, Pos2Z.inj_xO, IH, Pos2Z.inj_succ, Z.pow_succ_r by lia. lia.
Qed.

(** Aligning a mantissa to a smaller exponent multiplies it by a power of 2. *)
Lemma shl_align_spec : forall mx ex ex',
  snd (shl_align mx ex ex') = Z.min ex ex' /\
  Zpos (fst (shl_align mx ex ex')) = Zpos mx * 2 ^ (ex - Z.min ex ex').
Proof.
  intros mx ex ex'. unfold shl_align.
  destruct (ex' - ex) as [|d|d] eqn:E; simpl fst; simpl snd.
  - replace (Z.min ex ex') with ex by lia. rewrite Z.sub_diag. simpl. lia.
  - replace (Z.min ex ex') with ex by lia. rewrite Z.sub_diag. simpl. lia.
  - replace (Z.min ex ex') with ex' by lia. split; [ reflexivity | ].
    rewrite Pos_iter_xO. f_equal. f_equal. lia.
Qed.

Lemma Zdigits2_shift : forall m k, 0 < m -> 0 <= k ->
  Zdigits2 (m * 2 ^ k) = Zdigits2 m + k.
Proof.
  intros m k Hm Hk. destruct (Zdigits2_spec m Hm) as [Hlo Hhi].
  assert (Hd := Zdigits2_pos m Hm).
  assert (P : 0 < 2 ^ k) by (apply Z.pow_pos_nonneg; lia).
  apply Zdigits2_unique; [ | lia ]. split.
  - replace (Zdigits2 m + k - 1) with ((Zdigits2 m - 1) + k) by lia.
    rewrite Z.pow_add_r by lia. apply Z.mul_le_mono_nonneg_r; lia.
  - rewrite Z.pow_add_r by lia. apply Z.mul_lt_mono_pos_r; lia.
Qed.

(** The rounding of an integer mantissa at an exponent, between the floats
    around it. *)
Lemma binary_round_bounds : forall s mx ex B,
  -149 <= ex -> valid32 B -> Zpos mx * 2 ^ (ex + 149) <= Zval B ->
  exists v, 0 <= v /\
    valid32 (binary_round 24 128 s mx ex) /\
    Zval (binary_round 24 128 s mx ex) = cond_Zopp s v /\
    (forall C, valid32 C -> Zpos mx * 2 ^ (ex + 149) <= Zval C -> v <= Zval C) /\
    (forall C, valid32 C -> Zval C <= Zpos mx * 2 ^ (ex + 149) -> Zval C <= v) /\
    (forall mc ec, bounded 24 128 mc ec = true ->
       2 * (Zpos mx * 2 ^ (ex + 149)) < 2 * (Zpos mc * 2 ^ (ec + 149)) + 2 ^ (ec + 149) ->
       v <= Zpos mc * 2 ^ (ec + 149)).
Proof.
  intros s mx ex B Hex HB HleB. unfold binary_round.
  set (fe := fexp 24 128 (Zpos (digits2_pos mx) + ex)).
  destruct (shl_align_spec mx ex fe) as [Hez Hmz].
  destruct (shl_align mx ex fe) as [mz ez]. simpl fst in Hmz. simpl snd in Hez.
  assert (Hfe : -149 <= fe) by (unfold fe; rewrite fexp32; lia).
  assert (Hez149 : -149 <= ez) by lia.
  assert (Hdig : Zdigits2 (Zpos mz) + ez = Zpos (digits2_pos mx) + ex).
  { rewrite Hmz, Zdigits2_shift by lia. simpl Zdigits2. lia. }
  assert (HU : Zpos mz * 2 ^ (ez + 149) = Zpos mx * 2 ^ (ex + 149)).
  { rewrite Hmz, <- Z.mul_assoc, <- Z.pow_add_r by lia. do 2 f_equal. lia. }
  destruct (binary_round_aux_bounds s (Zpos mz) ez loc_Exact B)
    as (v & Hv0 & Hvalid & Hval & Hup & Hlo & Hne); try lia; auto.
  - rewrite Hdig. fold fe. lia.
  - discriminate.
  - exists v. rewrite HU in *.
    split; [ exact Hv0 | ]. split; [ exact Hvalid | ]. split; [ exact Hval | ].
    split; [ | split ].
    + intros C HC Hle. apply Hup; auto. discriminate.
    + intros C HC Hle. apply Hlo; auto.
      assert (0 < 2 ^ (ex + 149)) by (apply Z.pow_pos_nonneg; lia). lia.
    + intros mc ec Hb Hhalf. apply Hne; auto.
Qed.

(** ** Sums, differences and quotients of floats *)

Lemma valid32_opp : forall x, valid32 x -> valid32 (SFopp x).
Proof. intros [s| | |s m e] [F V]; try discriminate F; split; assumption. Qed.

Lemma Zval_opp : forall x, Zval (SFopp x) = - Zval x.
Proof.
  intros [s| | |s m e]; try reflexivity. unfold SFopp.
  rewrite !Zval_finite. destruct s; unfold cond_Zopp; simpl negb; lia.
Qed.

(** A float is a rounding of its own value. *)
Lemma rounds_to_exact : forall r, valid32 r -> rounds_to (Zval r) r.
Proof. intros r Hr. split; [ exact Hr | split; intros C _ H; exact H ]. Qed.

(** The float of a signed integer at an exponent is a rounding of it. *)
Lemma binary_normalize_rounds : forall z ez B,
  -149 <= ez -> valid32 B -> Z.abs z * 2 ^ (ez + 149) <= Zval B ->
  rounds_to (z * 2 ^ (ez + 149)) (binary_normalize 24 128 z ez false) /\
  rounds_down_below_middle (z * 2 ^ (ez + 149)) (binary_normalize 24 128 z ez false).
Proof.
  intros z ez B Hez HB Hle.
  assert (P : 0 < 2 ^ (ez + 149)) by (apply Z.pow_pos_nonneg; lia).
  destruct z as [|p|p]; unfold binary_normalize.
  - rewrite Z.mul_0_l. split.
    + apply (rounds_to_exact (S754_zero false)). split; reflexivity.
    + intros mc ec Hb _. rewrite Zval_zero. apply bounded_spec in Hb.
      assert (0 < 2 ^ (ec + 149)) by (apply Z.pow_pos_nonneg; lia). nia.
  - destruct (binary_round_bounds false p ez B Hez HB Hle)
      as (v & Hv0 & Hvalid & Hval & Hup & Hlo & Hne).
    unfold cond_Zopp in Hval. split; [ split; [ exact Hvalid | split ] | ].
    + intros C HC H. rewrite Hval. apply Hup; assumption.
    + intros C HC H. rewrite Hval. apply Hlo; assumption.
    + intros mc ec Hb H. rewrite Hval. apply Hne; assumption.
  - change (Z.abs (Z.neg p)) with (Zpos p) in Hle.
    destruct (binary_round_bounds true p ez B Hez HB Hle)
      as (v & Hv0 & Hvalid & Hval & Hup & Hlo & Hne).
    unfold cond_Zopp in Hval.
    change (Z.neg p) with (- Zpos p). rewrite Z.mul_opp_l.
    split; [ split; [ exact Hvalid | split ] | ].
    + intros C HC H. rewrite Hval.
      assert (HL := Hlo (SFopp C) (valid32_opp C HC)). rewrite Zval_opp in HL. lia.
    + intros C HC H. rewrite Hval.
      assert (HU := Hup (SFopp C) (valid32_opp C HC)). rewrite Zval_opp in HU. lia.
    + intros mc ec Hb _. rewrite Hval. apply bounded_spec in Hb.
      assert (0 < 2 ^ (ec + 149)) by (apply Z.pow_pos_nonneg; lia). nia.
Qed.

Lemma aligned_value : forall s m e ez, -149 <= ez -> ez <= e ->
  cond_Zopp s (Zpos (fst (shl_align m e ez))) * 2 ^ (ez + 149) =
  Zval (S754_finite s m e).
Proof.
  intros s m e ez Hez Hle. destruct (shl_align_spec m e ez) as [_ Hm].
  rewrite Hm. replace (Z.min e ez) with ez by lia.
  rewrite Zval_finite.
  assert (Zpos m * 2 ^ (e - ez) * 2 ^ (ez + 149) = Zpos m * 2 ^ (e + 149)).
  { rewrite <- Z.mul_assoc, <- Z.pow_add_r by lia. do 2 f_equal. lia. }
  destruct s; unfold cond_Zopp; lia.
Qed.

Lemma valid32_exponent : forall s m e, valid32 (S754_finite s m e) -> -149 <= e.
Proof. intros s m e [_ V]. unfold valid_binary in V. apply bounded_spec in V. lia. Qed.

(** The sum of two floats is a rounding of the sum of their values. *)
Lemma SFadd_rounds : forall x y B, valid32 x -> valid32 y -> valid32 B ->
  Z.abs (Zval x + Zval y) <= Zval B ->
  rounds_to (Zval x + Zval y) (SFadd 24 128 x y).
Proof.
  intros x y B Hx Hy HB Hle.
  destruct x as [sx| | |sx mx ex]; try (destruct Hx as [F _]; discriminate F);
  destruct y as [sy| | |sy my ey]; try (destruct Hy as [F _]; discriminate F).
  - replace (SFadd 24 128 (S754_zero sx) (S754_zero sy)) with (S754_zero (sx && sy))
      by (destruct sx, sy; reflexivity).
    apply (rounds_to_exact (S754_zero (sx && sy))). split; reflexivity.
  - unfold SFadd. rewrite Zval_zero, Z.add_0_l. apply rounds_to_exact. exact Hy.
  - unfold SFadd. rewrite Zval_zero, Z.add_0_r. apply rounds_to_exact. exact Hx.
  - assert (Ex := valid32_exponent _ _ _ Hx). assert (Ey := valid32_exponent _ _ _ Hy).
    unfold SFadd. set (ez := Z.min ex ey).
    rewrite <- (aligned_value sx mx ex ez), <- (aligned_value sy my ey ez) by lia.
    rewrite <- Z.mul_add_distr_r.
    rewrite <- (aligned_value sx mx ex ez), <- (aligned_value sy my ey ez) in Hle by lia.
    rewrite <- Z.mul_add_distr_r in Hle.
    apply (binary_normalize_rounds _ ez B); [ lia | exact HB | ].
    rewrite Z.abs_mul in Hle. rewrite Z.abs_eq with (n := 2 ^ (ez + 149)) in Hle; [ exact Hle | ].
    apply Z.pow_nonneg. lia.
Qed.

(** The sum of two finite floats is not above a float when the exact sum is
    below the middle of this float and the next one. *)
Lemma SFadd_rounds_down_below_middle : forall sx mx ex sy my ey B,
  valid32 (S754_finite sx mx ex) -> valid32 (S754_finite sy my ey) -> valid32 B ->
  Z.abs (Zval (S754_finite sx mx ex) + Zval (S754_finite sy my ey)) <= Zval B ->
  rounds_down_below_middle (Zval (S754_finite sx mx ex) + Zval (S754_finite sy my ey))
    (SFadd 24 128 (S754_finite sx mx ex) (S754_finite sy my ey)).
Proof.
  intros sx mx ex sy my ey B Hx Hy HB Hle.
  assert (Ex := valid32_exponent _ _ _ Hx). assert (Ey := valid32_exponent _ _ _ Hy).
  unfold SFadd. set (ez := Z.min ex ey).
  rewrite <- (aligned_value sx mx ex ez), <- (aligned_value sy my ey ez) by lia.
  rewrite <- Z.mul_add_distr_r.
  rewrite <- (aligned_value sx mx ex ez), <- (aligned_value sy my ey ez) in Hle by lia.
  rewrite <- Z.mul_add_distr_r in Hle.
  apply (binary_normalize_rounds _ ez B); [ lia | exact HB | ].
  rewrite Z.abs_mul in Hle. rewrite Z.abs_eq with (n := 2 ^ (ez + 149)) in Hle; [ exact Hle | ].
  apply Z.pow_nonneg. lia.
Qed.

(** A difference is the sum with the opposite. *)
Lemma SFsub_add_opp : forall x y, SFsub 24 128 x y = SFadd 24 128 x (SFopp y).
Proof.
  intros [sx|sx| |sx mx ex] [sy|sy| |sy my ey]; try reflexivity;
    try (destruct sx, sy; reflexivity).
Qed.

(** The difference of two floats is a rounding of the difference of their values. *)
Lemma SFsub_rounds : forall x y B, valid32 x -> valid32 y -> valid32 B ->
  Z.abs (Zval x - Zval y) <= Zval B ->
  rounds_to (Zval x - Zval y) (SFsub 24 128 x y).
Proof.
  intros x y B Hx Hy HB Hle. rewrite SFsub_add_opp.
  replace (Zval x - Zval y) with (Zval x + Zval (SFopp y)) in * by (rewrite Zval_opp; lia).
  apply (SFadd_rounds x (SFopp y) B); auto. apply valid32_opp. exact Hy.
Qed.

Lemma fexp32_monotone : forall a b, a <= b -> fexp 24 128 a <= fexp 24 128 b.
Proof. intros a b H. rewrite !fexp32. lia. Qed.

Lemma Zdigits2_lower : forall q k, 0 <= q -> (1 <= k -> 2 ^ (k - 1) <= q) -> k <= Zdigits2 q.
Proof.
  intros q k Hq Hk. destruct (Z_le_gt_dec k 0) as [L | G].
  - destruct q; simpl; lia.
  - specialize (Hk ltac:(lia)).
    assert (P : 0 < 2 ^ (k - 1)) by (apply Z.pow_pos_nonneg; lia).
    destruct (Zdigits2_spec q ltac:(lia)) as [_ Hhi].
    assert (Hd := Zdigits2_pos q ltac:(lia)).
    assert (H : 2 ^ (k - 1) < 2 ^ Zdigits2 q) by lia.
    apply pow2_lt_inv in H; lia.
Qed.

(** The integer quotient that the division rounds. *)
Lemma SFdiv_core_binary_spec : forall mx ex my ey,
  exists q e' l r,
    SFdiv_core_binary 24 128 (Zpos mx) ex (Zpos my) ey = (q, e', l) /\
    0 <= q /\
    e' = Z.min (fexp 24 128 (Zdigits2 (Zpos mx) + ex - (Zdigits2 (Zpos my) + ey)))
               (ex - ey) /\
    e' <= fexp 24 128 (Zdigits2 q + e') /\
    Zpos mx * 2 ^ (ex - ey - e') = Zpos my * q + r /\
    0 <= r < Zpos my /\
    inexact l = negb (r =? 0).
Proof.
  intros mx ex my ey. unfold SFdiv_core_binary.
  set (d1 := Zdigits2 (Zpos mx)). set (d2 := Zdigits2 (Zpos my)).
  set (e' := Z.min (fexp 24 128 (d1 + ex - (d2 + ey))) (ex - ey)).
  set (s := ex - ey - e').
  assert (He' : e' <= ex - ey) by (unfold e'; lia).
  assert (Hs : 0 <= s) by (unfold s; lia).
  set (m' := match s with Z0 => Zpos mx | Zpos _ => Z.shiftl (Zpos mx) s | Zneg _ => 0 end).
  assert (Hm' : m' = Zpos mx * 2 ^ s).
  { unfold m'. destruct s as [|p|p] eqn:Es.
    - simpl. lia.
    - apply Z.shiftl_mul_pow2. lia.
    - lia. }
  assert (Hdm := Z_div_mod m' (Zpos my) ltac:(lia)).
  destruct (Z.div_eucl m' (Zpos my)) as [q r].
  destruct Hdm as [Hdm Hr].
  assert (P2s : 0 < 2 ^ s) by (apply Z.pow_pos_nonneg; lia).
  assert (Hq : 0 <= q) by nia.
  exists q, e', (new_location (Zpos my) r), r.
  split; [ reflexivity | ]. split; [ exact Hq | ]. split; [ reflexivity | ].
  split; [ | split; [ | split ] ].
  - apply Z.le_trans with (fexp 24 128 (d1 + ex - (d2 + ey))); [ unfold e'; lia | ].
    apply fexp32_monotone.
    assert (Hk : d1 + s - d2 <= Zdigits2 q).
    { apply Zdigits2_lower; [ exact Hq | ]. intros Hk1.
      destruct (Zdigits2_spec (Zpos mx) ltac:(lia)) as [Hlo1 _].
      destruct (Zdigits2_spec (Zpos my) ltac:(lia)) as [_ Hhi2].
      fold d1 in Hlo1. fold d2 in Hhi2.
      assert (Hd1 : 0 < d1) by (apply Zdigits2_pos; lia).
      assert (Hd2 : 0 < d2) by (apply Zdigits2_pos; lia).
      assert (Hpow : 2 ^ (d1 + s - d2 - 1) * 2 ^ d2 = 2 ^ (d1 - 1) * 2 ^ s).
      { rewrite <- !Z.pow_add_r by lia. f_equal. lia. }
      assert (P : 0 < 2 ^ (d1 + s - d2 - 1)) by (apply Z.pow_pos_nonneg; lia).
      assert (Hlow : 2 ^ (d1 + s - d2 - 1) * Zpos my <= m').
      { rewrite Hm'. apply Z.le_trans with (2 ^ (d1 - 1) * 2 ^ s).
        - rewrite <- Hpow. apply Z.mul_le_mono_nonneg_l; lia.
        - apply Z.mul_le_mono_nonneg_r; lia. }
      nia. }
    unfold s in Hk. lia.
  - fold s. rewrite <- Hm'. exact Hdm.
  - lia.
  - unfold new_location, new_location_even, new_location_odd.
    destruct (Z.even (Zpos my)), (r =? 0); reflexivity.
Qed.

(** The quotient of a float by a positive float lies on the same side as the
    exact quotient of every float, when the exponent of the dividend is less
    than 149 below that of the divisor. *)
Lemma SFdiv_bounds : forall x my ey B,
  valid32 x -> valid32 (S754_finite false my ey) ->
  (forall s m e, x = S754_finite s m e -> -149 <= e - ey) -> valid32 B ->
  Z.abs (Zval x) * 2 ^ 149 <= Zval B * Zval (S754_finite false my ey) ->
  valid32 (SFdiv 24 128 x (S754_finite false my ey)) /\
  (forall C, valid32 C ->
     Zval x * 2 ^ 149 <= Zval C * Zval (S754_finite false my ey) ->
     Zval (SFdiv 24 128 x (S754_finite false my ey)) <= Zval C) /\
  (forall C, valid32 C ->
     Zval C * Zval (S754_finite false my ey) <= Zval x * 2 ^ 149 ->
     Zval C <= Zval (SFdiv 24 128 x (S754_finite false my ey))).
Proof.
  intros x my ey B Hx Hy Hey HB Hle.
  assert (Ey := valid32_exponent _ _ _ Hy).
  assert (PA : 0 < 2 ^ (ey + 149)) by (apply Z.pow_pos_nonneg; lia).
  rewrite Zval_finite in *. unfold cond_Zopp in *.
  set (Y := Zpos my * 2 ^ (ey + 149)) in *.
  assert (PY : 0 < Y) by (unfold Y; nia).
  destruct x as [sx| | |sx mx ex]; try (destruct Hx as [F _]; discriminate F).
  - unfold SFdiv. split; [ split; reflexivity | ].
    change (Zval (S754_zero (xorb sx false))) with 0.
    change (Zval (S754_zero sx)) with 0. rewrite Z.mul_0_l.
    split; intros C HC H; nia.
  - assert (Ex := valid32_exponent _ _ _ Hx).
    specialize (Hey sx mx ex eq_refl).
    destruct (SFdiv_core_binary_spec mx ex my ey)
      as (q & e' & l & r & Hcore & Hq & Hmin & Hfexp & Hdiv & Hr & Hl).
    assert (He' : -149 <= e' <= ex - ey) by (rewrite Hmin, fexp32; lia).
    clear Hmin.
    unfold SFdiv. rewrite Hcore. rewrite xorb_false_r.
    assert (PG : 0 < 2 ^ (e' + 149)) by (apply Z.pow_pos_nonneg; lia).
    set (G := 2 ^ (e' + 149)) in *.
    assert (Hx2 : Zpos mx * 2 ^ (ex + 149) * 2 ^ 149 = (Zpos my * q + r) * G * 2 ^ (ey + 149)).
    { rewrite <- Hdiv. unfold G. rewrite <- !Z.mul_assoc, <- !Z.pow_add_r by lia.
      do 2 f_equal. lia. }
    assert (Habs : Z.abs (Zval (S754_finite sx mx ex)) = Zpos mx * 2 ^ (ex + 149)).
    { rewrite Zval_finite. assert (0 < Zpos mx * 2 ^ (ex + 149)) by (apply Zval_finite_pos; lia).
      destruct sx; unfold cond_Zopp; lia. }
    rewrite Habs, Hx2 in Hle.
    assert (Hinex : inexact l = true -> 0 < r).
    { rewrite Hl. intros H. apply negb_true_iff, Z.eqb_neq in H. lia. }
    assert (HleB : (Zpos my * q + r) * G <= Zval B * Zpos my).
    { unfold Y in Hle. nia. }
    destruct (binary_round_aux_bounds sx q e' l B)
      as (v & Hv0 & Hvalid & Hval & Hup & Hlo & _); try lia; auto.
    + fold G. nia.
    + fold G. intros I. specialize (Hinex I). nia.
    + fold G in Hup, Hlo. split; [ exact Hvalid | ]. rewrite Hval.
      rewrite Zval_finite.
      assert (Hcross : forall c : Z,
        (Zpos mx * 2 ^ (ex + 149) * 2 ^ 149 <= c * Y <-> (Zpos my * q + r) * G <= c * Zpos my) /\
        (c * Y <= Zpos mx * 2 ^ (ex + 149) * 2 ^ 149 <-> c * Zpos my <= (Zpos my * q + r) * G)).
      { intros c. rewrite Hx2. unfold Y. split; split; intros H; nia. }
      assert (Hupper : forall C, valid32 C -> (Zpos my * q + r) * G <= Zval C * Zpos my -> v <= Zval C).
      { intros C HC H. apply Hup; [ exact HC | nia | ].
        intros I. specialize (Hinex I). nia. }
      assert (Hlower : forall C, valid32 C -> Zval C * Zpos my <= (Zpos my * q + r) * G -> Zval C <= v).
      { intros C HC H. apply Hlo; [ exact HC | nia ]. }
      destruct sx; unfold cond_Zopp; split; intros C HC H.
      * assert (HL := Hlower (SFopp C) (valid32_opp C HC)). rewrite Zval_opp in HL.
        destruct (Hcross (- Zval C)) as [_ Hc2].
        cut (- Zval C <= v); [ lia | ]. apply HL. apply Hc2. lia.
      * assert (HU := Hupper (SFopp C) (valid32_opp C HC)). rewrite Zval_opp in HU.
        destruct (Hcross (- Zval C)) as [Hc1 _].
        cut (v <= - Zval C); [ lia | ]. apply HU. apply Hc1. lia.
      * apply Hupper; [ exact HC | ]. apply (Hcross (Zval C)). exact H.
      * apply Hlower; [ exact HC | ]. apply (Hcross (Zval C)). exact H.
Qed.

(** ** The floats next to a float *)

(** Above a float of mantissa [k] at the exponent [t - 149], the next float
    is at least one unit of this exponent further. *)
Lemma valid32_above_step : forall x k t, valid32 x ->
  2 ^ 23 <= k -> 0 <= t -> k * 2 ^ t < Zval x -> (k + 1) * 2 ^ t <= Zval x.
Proof.
  intros x k t [F V] Hk Ht Hlt.
  assert (Pt : 0 < 2 ^ t) by (apply Z.pow_pos_nonneg; lia).
  destruct x as [s| | |s m e]; try discriminate F.
  - rewrite Zval_zero in Hlt. nia.
  - unfold valid_binary in V. apply bounded_spec in V. destruct V as (He & Hm & _).
    rewrite Zval_finite in *.
    assert (P : 0 < 2 ^ (e + 149)) by (apply Z.pow_pos_nonneg; lia).
    destruct s; unfold cond_Zopp in *; [ nia | ].
    destruct (Z_le_gt_dec t (e + 149)) as [L | G].
    + assert (Hsplit : 2 ^ (e + 149) = 2 ^ (e + 149 - t) * 2 ^ t).
      { rewrite <- Z.pow_add_r by lia. f_equal. lia. }
      rewrite Hsplit in *. rewrite Z.mul_assoc in *.
      apply Z.mul_le_mono_nonneg_r; [ lia | ].
      assert (k < Zpos m * 2 ^ (e + 149 - t)) by nia. lia.
    + exfalso.
      assert (Zpos m * 2 ^ (e + 149) < 2 ^ 23 * 2 ^ t).
      { apply Z.lt_le_trans with (2 ^ 24 * 2 ^ (e + 149)).
        - apply Z.mul_lt_mono_pos_r; lia.
        - rewrite <- !Z.pow_add_r by lia. apply Z.pow_le_mono_r; lia. }
      nia.
Qed.

(** Below 2^24 units of an exponent, the floats are at most 2^24 - 1 of
    these units. *)
Lemma valid32_below_step : forall x t, valid32 x -> 0 <= t ->
  Zval x < 2 ^ 24 * 2 ^ t -> Zval x <= (2 ^ 24 - 1) * 2 ^ t.
Proof.
  intros x t [F V] Ht Hlt.
  assert (Pt : 0 < 2 ^ t) by (apply Z.pow_pos_nonneg; lia).
  destruct x as [s| | |s m e]; try discriminate F.
  - rewrite Zval_zero. change (2 ^ 24 - 1) with 16777215. lia.
  - unfold valid_binary in V. apply bounded_spec in V. destruct V as (He & Hm & _).
    rewrite Zval_finite in *.
    assert (P : 0 < 2 ^ (e + 149)) by (apply Z.pow_pos_nonneg; lia).
    destruct s; unfold cond_Zopp in *;
      [ change (2 ^ 24 - 1) with 16777215; nia | ].
    destruct (Z_le_gt_dec (e + 149) t) as [L | G].
    + apply Z.le_trans with ((2 ^ 24 - 1) * 2 ^ (e + 149)).
      * apply Z.mul_le_mono_nonneg_r; lia.
      * apply Z.mul_le_mono_nonneg_l; [ change (2 ^ 24 - 1) with 16777215; lia | ].
        apply Z.pow_le_mono_r; lia.
    + assert (Hsplit : 2 ^ (e + 149) = 2 ^ (e + 149 - t) * 2 ^ t).
      { rewrite <- Z.pow_add_r by lia. f_equal. lia. }
      rewrite Hsplit in *. rewrite Z.mul_assoc in *.
      apply Z.mul_le_mono_nonneg_r; [ lia | ].
      assert (Zpos m * 2 ^ (e + 149 - t) < 2 ^ 24) by nia. lia.
Qed.

(** ** The range of the angular progress in binary32 *)

Lemma valid32_const : forall s m e, bounded 24 128 m e = true -> valid32 (S754_finite s m e).
Proof. intros s m e H. split; [ reflexivity | exact H ]. Qed.

Lemma valid32_zero : forall s, valid32 (S754_zero s).
Proof. intros s. split; reflexivity. Qed.

Lemma SFltb_true_Zval : forall x y, valid32 x -> valid32 y ->
  SFltb x y = true <-> Zval x < Zval y.
Proof. intros x y Hx Hy. rewrite SFltb_Zval by assumption. apply Z.ltb_lt. Qed.

Lemma SFleb_true_Zval : forall x y, valid32 x -> valid32 y ->
  SFleb x y = true <-> Zval x <= Zval y.
Proof. intros x y Hx Hy. rewrite SFleb_Zval by assumption. apply Z.leb_le. Qed.

(** A bearing in range, in units of 2^-149: [M_PI_F] is 13176795 * 2^127. *)
Lemma angle_in_range_Zval : forall a, angle_in_range a ->
  valid32 a /\ - (13176795 * 2 ^ 127) <= Zval a <= 13176795 * 2 ^ 127.
Proof.
  intros a (Hv & Hlo & Hhi). split; [ exact Hv | ].
  apply SFleb_true_Zval in Hlo; [ | apply valid32_const; reflexivity | exact Hv ].
  apply SFleb_true_Zval in Hhi; [ | exact Hv | apply valid32_const; reflexivity ].
  exact (conj Hlo Hhi).
Qed.

(** The normalised bearing is a float of [0, 2 PI]. *)
Lemma binary32_normalised_bearing_range : forall a, angle_in_range a ->
  let b := if SFltb a (S754_zero false) then SFadd 24 128 a binary32_two_pi else a in
  valid32 b /\ 0 <= Zval b <= 13176795 * 2 ^ 128.
Proof.
  intros a Ha b. apply angle_in_range_Zval in Ha. destruct Ha as (Hv & Hlo & Hhi).
  subst b. destruct (SFltb a (S754_zero false)) eqn:Hneg.
  - apply SFltb_true_Zval in Hneg; [ | exact Hv | apply valid32_zero ].
    rewrite Zval_zero in Hneg.
    assert (V2 : valid32 binary32_two_pi) by (apply valid32_const; reflexivity).
    assert (V1 : valid32 binary32_pi) by (apply valid32_const; reflexivity).
    destruct (SFadd_rounds a binary32_two_pi binary32_two_pi Hv V2 V2) as (Hvb & Hup & Hdown).
    { change (Zval binary32_two_pi) with (13176795 * 2 ^ 128). lia. }
    split; [ exact Hvb | ].
    specialize (Hup binary32_two_pi V2). specialize (Hdown binary32_pi V1).
    change (Zval binary32_two_pi) with (13176795 * 2 ^ 128) in *.
    change (Zval binary32_pi) with (13176795 * 2 ^ 127) in *.
    lia.
  - assert (Hge : ~ Zval a < Zval (S754_zero false)).
    { intros H. apply SFltb_true_Zval in H; [ congruence | exact Hv | apply valid32_zero ]. }
    rewrite Zval_zero in Hge. split; [ exact Hv | lia ].
Qed.

(** The quotient by 2 PI of the difference of two bearings of [0, 2 PI],
    shifted by PI: a float of [-1/2, 7/4], which is at most -9 * 2^-28
    when it is negative. *)
Lemma binary32_raw_progress_range : forall u v,
  valid32 u -> 0 <= Zval u <= 13176795 * 2 ^ 128 ->
  valid32 v -> 0 <= Zval v <= 13176795 * 2 ^ 128 ->
  let raw := SFdiv 24 128 (SFadd 24 128 (SFsub 24 128 u v) binary32_pi) binary32_two_pi in
  valid32 raw /\ - 2 ^ 148 <= Zval raw <= 7 * 2 ^ 147 /\
  (Zval raw < 0 -> Zval raw <= - (9 * 2 ^ 121)).
Proof.
  intros u v Hu Ru Hv Rv raw.
  assert (V2 : valid32 binary32_two_pi) by (apply valid32_const; reflexivity).
  assert (V1 : valid32 binary32_pi) by (apply valid32_const; reflexivity).
  assert (V1' : valid32 (SFopp binary32_pi)) by (apply valid32_const; reflexivity).
  assert (V2' : valid32 (SFopp binary32_two_pi)) by (apply valid32_const; reflexivity).
  (* the difference *)
  destruct (SFsub_rounds u v binary32_two_pi Hu Hv V2) as (Hvx & Hxup & Hxlo).
  { change (Zval binary32_two_pi) with (13176795 * 2 ^ 128). lia. }
  set (x := SFsub 24 128 u v) in *.
  specialize (Hxup binary32_two_pi V2). specialize (Hxlo (SFopp binary32_two_pi) V2').
  change (Zval binary32_two_pi) with (13176795 * 2 ^ 128) in *.
  change (Zval (SFopp binary32_two_pi)) with (- (13176795 * 2 ^ 128)) in *.
  assert (Rx : - (13176795 * 2 ^ 128) <= Zval x <= 13176795 * 2 ^ 128) by lia.
  clear Hxup Hxlo.
  (* the shift by PI *)
  set (ten := S754_finite false 10485760 (-20)).
  assert (V10 : valid32 ten) by (apply valid32_const; reflexivity).
  destruct (SFadd_rounds x binary32_pi ten Hvx V1 V10) as (Hvn & Hnup & Hnlo).
  { change (Zval binary32_pi) with (13176795 * 2 ^ 127).
    change (Zval ten) with (10 * 2 ^ 149). lia. }
  set (n := SFadd 24 128 x binary32_pi) in *.
  assert (Rn : - (13176795 * 2 ^ 127) <= Zval n <= 10 * 2 ^ 149).
  { specialize (Hnup ten V10). specialize (Hnlo (SFopp binary32_pi) V1').
    change (Zval binary32_pi) with (13176795 * 2 ^ 127) in *.
    change (Zval (SFopp binary32_pi)) with (- (13176795 * 2 ^ 127)) in *.
    change (Zval ten) with (10 * 2 ^ 149) in *. lia. }
  assert (Sn : Zval n < 0 -> Zval n <= - 2 ^ 127).
  { intros Hneg.
    assert (Hx : Zval x + Zval binary32_pi < 0).
    { destruct (Z_lt_ge_dec (Zval x + Zval binary32_pi) 0) as [L | G]; [ exact L | exfalso ].
      specialize (Hnlo (S754_zero false) (valid32_zero false)).
      rewrite Zval_zero in Hnlo. lia. }
    change (Zval binary32_pi) with (13176795 * 2 ^ 127) in *.
    assert (Hstep := valid32_above_step (SFopp x) 13176795 127 (valid32_opp x Hvx)).
    rewrite Zval_opp in Hstep.
    set (small := S754_finite true 8388608 (-45)).
    assert (Vs : valid32 small) by (apply valid32_const; reflexivity).
    specialize (Hnup small Vs). change (Zval small) with (- 2 ^ 127) in Hnup.
    apply Hnup. lia. }
  (* the quotient *)
  set (two := S754_finite false 8388608 (-22)).
  assert (Vtwo : valid32 two) by (apply valid32_const; reflexivity).
  assert (Hexp : forall s m e, n = S754_finite s m e -> -149 <= e - -21).
  { intros s m e Heq. rewrite Heq in Hvn. apply valid32_exponent in Hvn. lia. }
  destruct (SFdiv_bounds n 13176795 (-21) two Hvn V2 Hexp Vtwo)
    as (Hvr & Hrup & Hrlo).
  { change (Zval (S754_finite false 13176795 (-21))) with (13176795 * 2 ^ 128).
    change (Zval two) with (2 * 2 ^ 149). lia. }
  fold binary32_two_pi in Hvr, Hrup, Hrlo. fold raw in Hvr, Hrup, Hrlo.
  change (Zval binary32_two_pi) with (13176795 * 2 ^ 128) in *.
  split; [ exact Hvr | ]. split; [ split | ].
  - set (half := S754_finite true 8388608 (-24)).
    assert (Vh : valid32 half) by (apply valid32_const; reflexivity).
    specialize (Hrlo half Vh). change (Zval half) with (- 2 ^ 148) in Hrlo.
    apply Hrlo. lia.
  - set (top := S754_finite false 14680064 (-23)).
    assert (Vt : valid32 top) by (apply valid32_const; reflexivity).
    specialize (Hrup top Vt). change (Zval top) with (7 * 2 ^ 147) in Hrup.
    apply Hrup. lia.
  - intros Hneg.
    assert (Hnneg : Zval n < 0).
    { destruct (Z_lt_ge_dec (Zval n) 0) as [L | G]; [ exact L | exfalso ].
      specialize (Hrlo (S754_zero false) (valid32_zero false)).
      rewrite Zval_zero in Hrlo. lia. }
    specialize (Sn Hnneg).
    set (below := S754_finite true 9437184 (-48)).
    assert (Vb : valid32 below) by (apply valid32_const; reflexivity).
    specialize (Hrup below Vb). change (Zval below) with (- (9 * 2 ^ 121)) in Hrup.
    apply Hrup. lia.
Qed.

(** The wrap of such a quotient is a float of [0, 1), and its mirror a float
    of (0, 1]. *)
Lemma binary32_wrap_range : forall raw,
  valid32 raw -> - 2 ^ 148 <= Zval raw <= 7 * 2 ^ 147 ->
  (Zval raw < 0 -> Zval raw <= - (9 * 2 ^ 121)) ->
  let p := if SFltb raw (S754_zero false) then SFadd 24 128 raw binary32_one
           else if SFleb binary32_one raw then SFsub 24 128 raw binary32_one
           else raw in
  valid32 p /\ 0 <= Zval p < 2 ^ 149.
Proof.
  intros raw Hv Rr Sr p.
  assert (V1 : valid32 binary32_one) by (apply valid32_const; reflexivity).
  subst p. destruct (SFltb raw (S754_zero false)) eqn:Hneg.
  - apply SFltb_true_Zval in Hneg; [ | exact Hv | apply valid32_zero ].
    rewrite Zval_zero in Hneg. specialize (Sr Hneg).
    destruct (SFadd_rounds raw binary32_one binary32_one Hv V1 V1) as (Hvp & Hup & Hlo).
    { change (Zval binary32_one) with (2 ^ 149). lia. }
    split; [ exact Hvp | ].
    set (half := S754_finite false 8388608 (-24)).
    assert (Vh : valid32 half) by (apply valid32_const; reflexivity).
    specialize (Hlo half Vh). change (Zval half) with (2 ^ 148) in Hlo.
    change (Zval binary32_one) with (2 ^ 149) in *.
    split; [ lia | ].
    destruct raw as [s| | |s m e]; try (destruct Hv as [F _]; discriminate F).
    + rewrite Zval_zero in Hneg. lia.
    + assert (Hmid := SFadd_rounds_down_below_middle s m e false 8388608 (-23)
                        binary32_one Hv V1 V1).
      fold binary32_one in Hmid. change (Zval binary32_one) with (2 ^ 149) in Hmid.
      specialize (Hmid ltac:(lia) 16777215%positive (-24) eq_refl).
      change (-24 + 149) with 125 in Hmid.
      assert (Zval (SFadd 24 128 (S754_finite s m e) binary32_one) <= 16777215 * 2 ^ 125).
      { apply Hmid. lia. }
      lia.
  - assert (Hge : 0 <= Zval raw).
    { destruct (Z_lt_ge_dec (Zval raw) 0) as [L | G]; [ exfalso | lia ].
      assert (H : SFltb raw (S754_zero false) = true).
      { apply SFltb_true_Zval; [ exact Hv | apply valid32_zero | rewrite Zval_zero; exact L ]. }
      congruence. }
    destruct (SFleb binary32_one raw) eqn:Hbig.
    + apply SFleb_true_Zval in Hbig; [ | exact V1 | exact Hv ].
      change (Zval binary32_one) with (2 ^ 149) in Hbig.
      destruct (SFsub_rounds raw binary32_one binary32_one Hv V1 V1) as (Hvp & Hup & Hlo).
      { change (Zval binary32_one) with (2 ^ 149). lia. }
      split; [ exact Hvp | ].
      set (top := S754_finite false 12582912 (-24)).
      assert (Vt : valid32 top) by (apply valid32_const; reflexivity).
      specialize (Hup top Vt). change (Zval top) with (3 * 2 ^ 147) in Hup.
      specialize (Hlo (S754_zero false) (valid32_zero false)). rewrite Zval_zero in Hlo.
      change (Zval binary32_one) with (2 ^ 149) in *. lia.
    + split; [ exact Hv | ]. split; [ exact Hge | ].
      destruct (Z_lt_ge_dec (Zval raw) (2 ^ 149)) as [L | G]; [ exact L | exfalso ].
      assert (H : SFleb binary32_one raw = true).
      { apply SFleb_true_Zval; [ exact V1 | exact Hv | ].
        change (Zval binary32_one) with (2 ^ 149). lia. }
      congruence.
Qed.

(** The mirror of a float of [0, 1) is a float of [2^-24, 1]. *)
Lemma binary32_mirror_range : forall p, valid32 p -> 0 <= Zval p < 2 ^ 149 ->
  valid32 (SFsub 24 128 binary32_one p) /\
  2 ^ 125 <= Zval (SFsub 24 128 binary32_one p) <= 2 ^ 149.
Proof.
  intros p Hv Rp.
  assert (V1 : valid32 binary32_one) by (apply valid32_const; reflexivity).
  destruct (SFsub_rounds binary32_one p binary32_one V1 Hv V1) as (Hvp & Hup & Hlo).
  { change (Zval binary32_one) with (2 ^ 149). lia. }
  split; [ exact Hvp | ].
  assert (Hstep := valid32_below_step p 125 Hv ltac:(lia)).
  set (ulp := S754_finite false 8388608 (-47)).
  assert (Vu : valid32 ulp) by (apply valid32_const; reflexivity).
  specialize (Hup binary32_one V1). specialize (Hlo ulp Vu).
  change (Zval ulp) with (2 ^ 125) in Hlo.
  change (Zval binary32_one) with (2 ^ 149) in *.
  change (2 ^ 24 * 2 ^ 125) with (2 ^ 149) in Hstep.
  change ((2 ^ 24 - 1) * 2 ^ 125) with (2 ^ 149 - 2 ^ 125) in Hstep.
  lia.
Qed.

(** In binary32, with bearings in [-PI, PI], the counter-clockwise progress
    lies in [0, 1) and the clockwise progress in (0, 1]. *)
Lemma binary32_angular_progress_range : forall pw at2 dn de rn re,
  angle_in_range (at2 dn de) -> angle_in_range (at2 rn re) ->
  let O := binary32_ops pw at2 in
  let p := angular_progress (O := O) dn de rn re in
  (SFleb (S754_zero false) p = true /\ SFltb p (binary32_of_Z 1) = true) /\
  (SFltb (S754_zero false) (SFsub 24 128 (binary32_of_Z 1) p) = true /\
   SFleb (SFsub 24 128 (binary32_of_Z 1) p) (binary32_of_Z 1) = true).
Proof.
  intros pw at2 dn de rn re Hd Hr O p.
  destruct (binary32_normalised_bearing_range _ Hd) as (Vu & Ru).
  destruct (binary32_normalised_bearing_range _ Hr) as (Vv & Rv).
  destruct (binary32_raw_progress_range _ _ Vu Ru Vv Rv) as (Vraw & Rraw & Sraw).
  destruct (binary32_wrap_range _ Vraw Rraw Sraw) as (Vp & Rp).
  destruct (binary32_mirror_range _ Vp Rp) as (Vm & Rm).
  assert (V1 : valid32 binary32_one) by (apply valid32_const; reflexivity).
  change (binary32_of_Z 1) with binary32_one.
  match type of Rp with
  | _ <= Zval ?q < _ => assert (Hp : p = q) by reflexivity
  end.
  rewrite Hp.
  split; split.
  - apply SFleb_true_Zval; [ apply valid32_zero | exact Vp | rewrite Zval_zero; lia ].
  - apply SFltb_true_Zval; [ exact Vp | exact V1 | ].
    change (Zval binary32_one) with (2 ^ 149). lia.
  - apply SFltb_true_Zval; [ apply valid32_zero | exact Vm | rewrite Zval_zero ].
    assert (0 < 2 ^ 125) by reflexivity. lia.
  - apply SFleb_true_Zval; [ exact Vm | exact V1 | ].
    change (Zval binary32_one) with (2 ^ 149). lia.
Qed.

(** ** Every operation returns a float of binary32 *)

Lemma encode32_valid_binary : forall s m e,
  0 <= m < 2 ^ 24 -> -149 <= e -> (e = -149 \/ 2 ^ 23 <= m) ->
  valid_binary 24 128 (encode32 s m e) = true.
Proof.
  intros s m e Hm He Hn. unfold encode32.
  destruct m as [|p|p]; [ reflexivity | | lia ].
  destruct (Z.leb_spec e 104) as [L | G]; [ | reflexivity ].
  unfold valid_binary. apply bounded_spec. lia.
Qed.

Lemma round_result_valid_binary : forall s m1 e',
  0 <= m1 <= 2 ^ 24 -> -149 <= e' -> (e' = -149 \/ 2 ^ 23 <= m1) ->
  valid_binary 24 128 (round_result s m1 e') = true.
Proof.
  intros s m1 e' Hm He Hn. unfold round_result.
  destruct (Z.eqb_spec m1 (2 ^ 24)) as [E | N].
  - apply encode32_valid_binary; [ | lia | right ].
    + change (2 ^ 23) with 8388608. change (2 ^ 24) with 16777216. lia.
    + lia.
  - apply encode32_valid_binary; [ lia | exact He | exact Hn ].
Qed.

(** The rounding of an inexact integer is a float of binary32, of the sign
    it is given: never NaN. *)
Lemma binary_round_aux_valid : forall s mx ex lx,
  0 <= mx -> ex <= fexp 24 128 (Zdigits2 mx + ex) ->
  valid_binary 24 128 (binary_round_aux 24 128 s mx ex lx) = true.
Proof.
  intros s mx ex lx Hmx Hn.
  destruct (binary_round_aux_spec s mx ex lx Hmx Hn)
    as (m1 & _ & _ & _ & Hr & H4 & Heq).
  rewrite Heq. apply round_result_valid_binary; [ exact Hr | | exact H4 ].
  rewrite fexp32. lia.
Qed.

Lemma binary_round_valid : forall s m e,
  valid_binary 24 128 (binary_round 24 128 s m e) = true.
Proof.
  intros s m e. unfold binary_round.
  set (fe := fexp 24 128 (Zpos (digits2_pos m) + e)).
  destruct (shl_align_spec m e fe) as [Hez Hmz].
  destruct (shl_align m e fe) as [mz ez]. simpl fst in Hmz. simpl snd in Hez.
  apply binary_round_aux_valid; [ lia | ].
  assert (Hdig : Zdigits2 (Zpos mz) + ez = Zpos (digits2_pos m) + e).
  { rewrite Hmz, Zdigits2_shift by lia. simpl Zdigits2. lia. }
  rewrite Hdig. fold fe. lia.
Qed.

Lemma binary_normalize_valid : forall z e,
  valid_binary 24 128 (binary_normalize 24 128 z e false) = true.
Proof.
  intros [|p|p] e; unfold binary_normalize;
    [ reflexivity | apply binary_round_valid | apply binary_round_valid ].
Qed.

Lemma SFadd_valid : forall x y,
  valid_binary 24 128 x = true -> valid_binary 24 128 y = true ->
  valid_binary 24 128 (SFadd 24 128 x y) = true.
Proof.
  intros [sx|sx| |sx mx ex] [sy|sy| |sy my ey] Hx Hy;
    try reflexivity; try assumption;
    try (destruct sx, sy; reflexivity).
  apply binary_normalize_valid.
Qed.

Lemma SFopp_valid : forall x,
  valid_binary 24 128 x = true -> valid_binary 24 128 (SFopp x) = true.
Proof. intros [s|s| |s m e] H; simpl; auto. Qed.

Lemma SFsub_valid : forall x y,
  valid_binary 24 128 x = true -> valid_binary 24 128 y = true ->
  valid_binary 24 128 (SFsub 24 128 x y) = true.
Proof.
  intros x y Hx Hy. rewrite SFsub_add_opp.
  apply SFadd_valid; [ exact Hx | apply SFopp_valid; exact Hy ].
Qed.

Lemma SFmul_valid : forall x y,
  valid_binary 24 128 x = true -> valid_binary 24 128 y = true ->
  valid_binary 24 128 (SFmul 24 128 x y) = true.
Proof.
  intros [sx|sx| |sx mx ex] [sy|sy| |sy my ey] Hx Hy; try reflexivity.
  unfold SFmul. apply binary_round_aux_valid; [ lia | ].
  unfold valid_binary in Hx, Hy. apply bounded_spec in Hx. apply bounded_spec in Hy.
  rewrite fexp32.
  destruct Hx as (Hex & Hmx & [Ex | Nx]); destruct Hy as (Hey & Hmy & [Ey | Ny]);
    try lia.
  - assert (Hd : 24 <= Zdigits2 (Zpos (mx * my))).
    { apply Zdigits2_lower; [ lia | ]. intros _. change (2 ^ (24 - 1)) with (2 ^ 23).
      rewrite Pos2Z.inj_mul. nia. }
    lia.
  - assert (Hd : 24 <= Zdigits2 (Zpos (mx * my))).
    { apply Zdigits2_lower; [ lia | ]. intros _. change (2 ^ (24 - 1)) with (2 ^ 23).
      rewrite Pos2Z.inj_mul. nia. }
    lia.
  - assert (Hd : 24 <= Zdigits2 (Zpos (mx * my))).
    { apply Zdigits2_lower; [ lia | ]. intros _. change (2 ^ (24 - 1)) with (2 ^ 23).
      rewrite Pos2Z.inj_mul. nia. }
    lia.
Qed.

(** The integer square root that the square root rounds: its exponent is
    not above the exponent of its binade. *)
Lemma SFsqrt_core_binary_spec : forall m e,
  exists q e' l,
    SFsqrt_core_binary 24 128 (Zpos m) e = (q, e', l) /\
    0 <= q /\ e' <= fexp 24 128 (Zdigits2 q + e').
Proof.
  intros m e. unfold SFsqrt_core_binary.
  set (d := Zdigits2 (Zpos m)).
  set (e' := Z.min (fexp 24 128 (Z.div2 (d + e + 1))) (Z.div2 e)).
  set (s := e - 2 * e').
  assert (He2 : 2 * Z.div2 e <= e) by (rewrite Z.div2_div; apply Z.mul_div_le; lia).
  assert (Hs : 0 <= s) by (unfold s, e'; lia).
  set (m' := match s with Z0 => Zpos m | Zpos _ => Z.shiftl (Zpos m) s | Zneg _ => 0 end).
  assert (Hm' : m' = Zpos m * 2 ^ s).
  { unfold m'. destruct s as [|p|p] eqn:Es.
    - simpl. lia.
    - apply Z.shiftl_mul_pow2. lia.
    - lia. }
  assert (P2s : 0 < 2 ^ s) by (apply Z.pow_pos_nonneg; lia).
  assert (Hm'0 : 0 < m') by (rewrite Hm'; nia).
  assert (Hsq := Z.sqrtrem_spec m' ltac:(lia)).
  destruct (Z.sqrtrem m') as [q r]. destruct Hsq as [Hsq Hr].
  assert (Hq : 0 <= q) by lia.
  eexists q, e', _. split; [ reflexivity | ]. split; [ exact Hq | ].
  apply Z.le_trans with (fexp 24 128 (Z.div2 (d + e + 1))); [ unfold e'; lia | ].
  apply fexp32_monotone.
  assert (Hq1 : 0 < q) by nia.
  assert (Hdm : Zdigits2 m' = d + s).
  { rewrite Hm'. apply Zdigits2_shift; lia. }
  destruct (Zdigits2_spec m' Hm'0) as [Hlo _].
  destruct (Zdigits2_spec q Hq1) as [_ Hhi].
  assert (Hdq := Zdigits2_pos q Hq1).
  assert (Hd0 : 0 < d) by (apply Zdigits2_pos; lia).
  rewrite Hdm in Hlo.
  assert (Hlt : 2 ^ (d + s - 1) < 2 ^ (2 * Zdigits2 q)).
  { replace (2 * Zdigits2 q) with (Zdigits2 q + Zdigits2 q) by lia.
    rewrite Z.pow_add_r by lia. nia. }
  apply pow2_lt_inv in Hlt; [ | lia ].
  rewrite Z.div2_div. unfold s in Hlt.
  assert ((d + e + 1) / 2 < Zdigits2 q + e' + 1)
    by (apply Z.div_lt_upper_bound; lia).
  lia.
Qed.

Lemma SFsqrt_valid : forall x,
  valid_binary 24 128 (SFsqrt 24 128 x) = true.
Proof.
  intros [s|[|]| |[|] m e]; try reflexivity.
  unfold SFsqrt.
  destruct (SFsqrt_core_binary_spec m e) as (q & e' & l & Hcore & Hq & Hfexp).
  rewrite Hcore. apply binary_round_aux_valid; assumption.
Qed.

Lemma SFadd_comm : forall x y, SFadd 24 128 x y = SFadd 24 128 y x.
Proof.
  intros [sx|sx| |sx mx ex] [sy|sy| |sy my ey]; try reflexivity;
    try (destruct sx, sy; reflexivity).
  unfold SFadd. rewrite (Z.min_comm ey ex). rewrite Z.add_comm. reflexivity.
Qed.

(** The quotient of a float that is not negative by a greater float is a
    float of [0, 1]. *)
Lemma SFdiv_below_one : forall x y, valid32 x -> valid32 y ->
  0 <= Zval x < Zval y ->
  valid32 (SFdiv 24 128 x y) /\ 0 <= Zval (SFdiv 24 128 x y) <= 2 ^ 149.
Proof.
  intros x y Hx Hy [Hx0 Hxy].
  assert (V1 : valid32 binary32_one) by (apply valid32_const; reflexivity).
  destruct y as [sy| | |sy my ey]; try (destruct Hy as [F _]; discriminate F).
  { rewrite Zval_zero in Hxy. lia. }
  assert (Ey := valid32_exponent _ _ _ Hy).
  assert (PY := Zval_finite_pos my ey Ey).
  destruct sy; [ rewrite Zval_finite in Hxy; unfold cond_Zopp in Hxy; lia | ].
  destruct x as [sx| | |sx mx ex]; try (destruct Hx as [F _]; discriminate F).
  { unfold SFdiv. split; [ split; reflexivity | ].
    change (Zval (S754_zero (xorb sx false))) with 0. split; [ lia | ].
    apply Z.pow_nonneg. lia. }
  assert (Ex := valid32_exponent _ _ _ Hx).
  assert (PX := Zval_finite_pos mx ex Ex).
  destruct sx; [ rewrite Zval_finite in Hx0; unfold cond_Zopp in Hx0; lia | ].
  destruct (Z_le_gt_dec (-149) (ex - ey)) as [Hal | Hfar].
  - destruct (SFdiv_bounds (S754_finite false mx ex) my ey binary32_one Hx Hy)
      as (Hv & Hup & Hlo).
    + intros s m e Heq. injection Heq as _ _ <-. exact Hal.
    + exact V1.
    + change (Zval binary32_one) with (2 ^ 149).
      rewrite Z.abs_eq by lia. rewrite (Z.mul_comm (2 ^ 149)).
      apply Z.mul_le_mono_nonneg_r; [ apply Z.pow_nonneg; lia | lia ].
    + split; [ exact Hv | ]. split.
      * specialize (Hlo (S754_zero false) (valid32_zero false)).
        rewrite Zval_zero in Hlo. apply Hlo. nia.
      * specialize (Hup binary32_one V1).
        change (Zval binary32_one) with (2 ^ 149) in Hup. apply Hup.
        rewrite (Z.mul_comm (2 ^ 149)).
        apply Z.mul_le_mono_nonneg_r; [ apply Z.pow_nonneg; lia | lia ].
  - destruct (SFdiv_core_binary_spec mx ex my ey)
      as (q & e' & l & r & Hcore & Hq & Hmin & Hfexp & Hdiv & Hr & Hl).
    assert (He' : e' = ex - ey) by (rewrite Hmin, fexp32; lia).
    rewrite He' in Hdiv. replace (ex - ey - (ex - ey)) with 0 in Hdiv by lia.
    change (2 ^ 0) with 1 in Hdiv.
    assert (Hqm : q < 2 ^ 24).
    { unfold valid32, valid_binary in Hx. destruct Hx as [_ Vx].
      apply bounded_spec in Vx. nia. }
    unfold SFdiv. rewrite Hcore. rewrite xorb_false_r.
    destruct (binary_round_aux_spec false q e' l Hq Hfexp)
      as (m1 & _ & _ & _ & Hm1 & H4 & Heq).
    assert (Hfe : fexp 24 128 (Zdigits2 q + e') = -149).
    { rewrite fexp32.
      assert (Zdigits2 q <= 24).
      { destruct (Z.eq_dec q 0) as [-> | Hnz]; [ simpl; lia | ].
        destruct (Zdigits2_spec q ltac:(lia)) as [Hlo _].
        destruct (Z_le_gt_dec (Zdigits2 q) 24) as [L | G]; [ exact L | exfalso ].
        assert (2 ^ 24 <= 2 ^ (Zdigits2 q - 1)) by (apply Z.pow_le_mono_r; lia).
        lia. }
      lia. }
    rewrite Hfe in Heq, H4.
    change (-149 + 149) with 0 in *.
    destruct (round_result_valid false m1 (-149) Hm1 ltac:(lia) H4) as [Hv Hval].
    { change (-149 + 149) with 0. change (2 ^ 0) with 1.
      apply Z.le_lt_trans with (2 ^ 24); [ lia | reflexivity ]. }
    unfold round_result in Hv, Hval. rewrite <- Heq in Hv, Hval.
    split; [ exact Hv | ]. rewrite Hval. unfold cond_Zopp.
    change (-149 + 149) with 0. change (2 ^ 0) with 1.
    split; [ lia | ].
    apply Z.le_trans with (2 ^ 24); [ lia | ].
    apply Z.pow_le_mono_r; lia.
Qed.

(** ** The range of the progress of the endpoint solver in binary32 *)

(** The progress of the regular branch of the endpoint solver, from the two
    distances: a float of [0, 1], whatever the distances are. *)
Lemma binary32_endpoint_formula_range : forall d p,
  valid_binary 24 128 d = true -> not_below_zero d ->
  valid_binary 24 128 p = true ->
  let one := binary32_of_Z 1 in
  let fp := if SFltb d (SFadd 24 128 p one)
            then SFsub 24 128 one (SFdiv 24 128 d (SFadd 24 128 one p))
            else S754_zero false in
  SFleb (S754_zero false) fp = true /\ SFleb fp one = true.
Proof.
  intros d p Vd Nd Vp one fp. subst fp.
  assert (Vs : valid_binary 24 128 (SFadd 24 128 p one) = true)
    by (apply SFadd_valid; [ exact Vp | reflexivity ]).
  rewrite (SFadd_comm one p).
  set (s := SFadd 24 128 p one) in *.
  destruct (SFltb d s) eqn:Hlt; [ | split; reflexivity ].
  assert (V1 : valid32 binary32_one) by (apply valid32_const; reflexivity).
  unfold not_below_zero in Nd.
  destruct d as [sd|[|]| |[|] md ed]; try discriminate Nd;
    try (destruct s as [ss|[|]| |[|] ms es]; discriminate Hlt).
  - destruct s as [ss|[|]| |[|] ms es]; try discriminate Hlt;
      split; reflexivity.
  - destruct s as [ss|[|]| |[|] ms es]; try discriminate Hlt;
      [ split; reflexivity | ].
    assert (Hvd : valid32 (S754_finite false md ed)) by (split; [ reflexivity | exact Vd ]).
    assert (Hvs : valid32 (S754_finite false ms es)) by (split; [ reflexivity | exact Vs ]).
    apply SFltb_true_Zval in Hlt; [ | exact Hvd | exact Hvs ].
    assert (Pd : 0 < Zval (S754_finite false md ed)).
    { rewrite Zval_finite. apply Zval_finite_pos. apply (valid32_exponent _ _ _ Hvd). }
    destruct (SFdiv_below_one _ _ Hvd Hvs ltac:(lia)) as [Vq Rq].
    set (q := SFdiv 24 128 (S754_finite false md ed) (S754_finite false ms es)) in *.
    change one with binary32_one.
    destruct (SFsub_rounds binary32_one q binary32_one V1 Vq V1) as (Vf & Hup & Hlo).
    { change (Zval binary32_one) with (2 ^ 149). lia. }
    specialize (Hup binary32_one V1).
    specialize (Hlo (S754_zero false) (valid32_zero false)).
    rewrite Zval_zero in Hlo. change (Zval binary32_one) with (2 ^ 149) in *.
    split.
    + apply SFleb_true_Zval; [ apply valid32_zero | exact Vf | rewrite Zval_zero; lia ].
    + apply SFleb_true_Zval; [ exact Vf | exact V1 | ].
      change (Zval binary32_one) with (2 ^ 149). lia.
Qed.

End Rounding.
(** * Part III: the statements of the specification *)

(** ** The vector solver *)



(** A point of the segment in exact arithmetic, off the track by a rounding
    error in binary32: at start (0,0,0), end (300,400,0), current (27,36,0)
    the code reports the error 2^-19, above its threshold, and the
    correction direction (1,0,0). *)
Example binary32_vector_rounding : forall powf atan2f,
  let r := path_vector (O := binary32_ops powf atan2f)
             (binary32_point 0 0 0) (binary32_point 300 400 0)
             (binary32_point 27 36 0) binary32_status0 true in
  error r = S754_finite false 8388608 (-42) /\
  correction_direction r = binary32_point 1 0 0.
Proof. intros. split; vm_compute; reflexivity. Qed.

(** ** The circle solver *)

(** In binary32, away from the center, when the horizontal vector from the
    center to the current position and the one from the start point to the
    center are the same two floats, the two bearings are one float and the
    two lengths are one float: their differences are the positive zero. *)
Lemma binary32_circle_same_vector :
  forall pw at2 start_point end_point cur_point status clockwise,
    let O := binary32_ops pw at2 in
    let radius_north := fsub (FloatOps := O) (c0 end_point) (c0 start_point) in
    let radius_east := fsub (FloatOps := O) (c1 end_point) (c1 start_point) in
    let radius := hlength (O := O) radius_north radius_east in
    let a := normalised_bearing (O := O) radius_north radius_east in
    let r := path_circle (O := O) start_point end_point cur_point status clockwise in
    fsub (FloatOps := O) (c0 cur_point) (c0 end_point) = radius_north ->
    fsub (FloatOps := O) (c1 cur_point) (c1 end_point) = radius_east ->
    SFltb radius binary32_1e_6f = false ->
    fractional_progress r =
    (let p := wrap_progress (O := O)
                (fdiv (fadd (SFsub 24 128 a a) M_PI_F) (fmul f2 M_PI_F)) in
     if clockwise then fsub (FloatOps := O) f1 p else p) /\
    error r = fabs (FloatOps := O) (SFsub 24 128 radius radius).
Proof.
  intros pw at2 s e c st cw O rn re radius a r Hn He Hreg.
  subst r. rewrite path_circle_writes. cbv zeta. rewrite Hn, He.
  fold rn re.
  change (sqrtf (FloatOps := O) (fadd (powf (FloatOps := O) rn f2)
                                      (powf (FloatOps := O) re f2)))
    with radius.
  change (flt (FloatOps := O) radius c_1e_6f)
    with (SFltb radius binary32_1e_6f).
  rewrite Hreg. cbn [fractional_progress error]. split; reflexivity.
Qed.



(** The upper end of the range of the bearings is reached by rounding: a
    bearing of -2^-30, as [atan2f] returns it for a point east of the center
    and very slightly south of it, is less than half a unit in the last
    place of 2 PI, and its sum with 2 PI is the float 2 PI itself. *)
Example binary32_bearing_rounding : forall powf atan2f north east,
  atan2f north east = S754_finite true 8388608 (-53) ->
  normalised_bearing (O := binary32_ops powf atan2f) north east = binary32_two_pi.
Proof.
  intros pw at2 north east Ha. unfold normalised_bearing. cbv zeta.
  change (atan2f (FloatOps := binary32_ops pw at2)) with at2.
  rewrite Ha. vm_compute. reflexivity.
Qed.
(** C3, as stated, fails on the circle itself: there the signed error is 0,
    its sign is 0 and the formula gives the zero vector, while the code
    reports the unit vector towards the center. *)
Lemma path_circle_sign_counterexample :
  let start_point := Vec3 0 0 0 in
  let end_point := Vec3 10 0 0 in
  let cur_point := Vec3 20 0 0 in
  let radius := vnorm (horizontal (vsub end_point start_point)) in
  let diff := horizontal (vsub cur_point end_point) in
  let cradius := vnorm diff in
  let r := path_circle start_point end_point cur_point status0 false in
  eps <= cradius /\
  correction_direction r = Vec3 (- 1) 0 0 /\
  vscale (Rsgn (radius - cradius)) (vdiv diff cradius) = Vec3 0 0 0 /\
  correction_direction r <> vscale (Rsgn (radius - cradius)) (vdiv diff cradius).
Proof.
  intros s e c radius diff cradius r.
  assert (Hr : radius = 10).
  { apply vnorm_horizontal_is; [ lra | simpl; lra ]. }
  assert (Hd : cradius = 10).
  { apply vnorm_horizontal_is; [ lra | simpl; lra ]. }
  assert (Hcode : correction_direction r = Vec3 (- 1) 0 0).
  { subst r. rewrite path_circle_solution. unfold circle_solution. cbv zeta.
    fold s e c. fold diff. fold cradius. fold radius. rewrite Hr, Hd.
    unfold eps. destruct (Rlt_dec 10 (1 / 1000000)); [ lra | ].
    destruct (Rlt_dec 10 10); [ lra | ].
    cbn [correction_direction]. unfold vscale, vdiv. simpl. f_equal; lra. }
  assert (Hspec : vscale (Rsgn (radius - cradius)) (vdiv diff cradius) = Vec3 0 0 0).
  { rewrite Hr, Hd. unfold Rsgn.
    destruct (Rlt_dec 0 (10 - 10)); [ lra | ].
    destruct (Rlt_dec (10 - 10) 0); [ lra | ].
    unfold vscale. f_equal; lra. }
  split; [ rewrite Hd; unfold eps; lra | ].
  split; [ exact Hcode | ]. split; [ exact Hspec | ].
  rewrite Hcode, Hspec. intros Heq. apply (f_equal (@c0 R)) in Heq.
  simpl in Heq. lra.
Qed.

(** C3, amended.  Circle solver, radial error, in the arithmetic of the code
    and in every other: when the current radial distance is not below 1e-6,
    with radius and cradius the horizontal lengths the code computes, the
    error is |radius - cradius| and the correction direction is horizontal,
    s * diff / cradius, with s = 1, away from the center, when
    radius - cradius > 0, and s = -1, towards the center, in every other
    case: the factor is never 0.  In binary32, when the computed cradius
    equals the computed radius and is a finite number, the error is 0 and
    the correction direction is - diff / cradius. *)
Theorem path_circle_radial_error :
  (forall (F : Type) (O : FloatOps F) start_point end_point cur_point status clockwise,
     let diff_north := (c0 cur_point - c0 end_point)%cfloat in
     let diff_east := (c1 cur_point - c1 end_point)%cfloat in
     let radius :=
       hlength (c0 end_point - c0 start_point)%cfloat
               (c1 end_point - c1 start_point)%cfloat in
     let cradius := hlength diff_north diff_east in
     let s := if (radius - cradius >? f0)%cfloat then f1 else (- f1)%cfloat in
     let r := path_circle start_point end_point cur_point status clockwise in
     (cradius <? c_1e_6f)%cfloat = false ->
     error r = fabs (radius - cradius)%cfloat /\
     correction_direction r =
     Vec3 (s * diff_north / cradius)%cfloat (s * diff_east / cradius)%cfloat f0) /\
  (forall powf atan2f start_point end_point cur_point status clockwise,
     let O := binary32_ops powf atan2f in
     let diff_north := fsub (FloatOps := O) (c0 cur_point) (c0 end_point) in
     let diff_east := fsub (FloatOps := O) (c1 cur_point) (c1 end_point) in
     let radius :=
       hlength (O := O) (fsub (c0 end_point) (c0 start_point))
                        (fsub (c1 end_point) (c1 start_point)) in
     let cradius := hlength (O := O) diff_north diff_east in
     let minus_one := binary32_of_Z (-1) in
     let r := path_circle (O := O) start_point end_point cur_point status clockwise in
     SFltb cradius binary32_1e_6f = false ->
     cradius = radius ->
     is_finite radius = true ->
     error r = S754_zero false /\
     correction_direction r =
     Vec3 (SFdiv 24 128 (SFmul 24 128 minus_one diff_north) cradius)
          (SFdiv 24 128 (SFmul 24 128 minus_one diff_east) cradius)
          (S754_zero false)).
Proof.
  split.
  - intros F O s e c st cw dn de radius cradius side r Hreg. subst r.
    rewrite path_circle_writes. cbv zeta. fold dn de.
    change (sqrtf (fadd (powf dn f2) (powf de f2))) with cradius.
    rewrite Hreg. cbn [error correction_direction]. split; reflexivity.
  - intros pw at2 s e c st cw O dn de radius cradius minus_one r Hreg Heq Hfin.
    subst r. rewrite path_circle_writes. cbv zeta. fold dn de.
    change (sqrtf (FloatOps := O) (fadd (powf (FloatOps := O) dn f2)
                                        (powf (FloatOps := O) de f2)))
      with cradius.
    change (flt (FloatOps := O) cradius c_1e_6f)
      with (SFltb cradius binary32_1e_6f).
    rewrite Hreg. cbn [error correction_direction].
    change (sqrtf (FloatOps := O)
              (fadd (powf (FloatOps := O) (fsub (c0 e) (c0 s)) f2)
                    (powf (FloatOps := O) (fsub (c1 e) (c1 s)) f2)))
      with radius.
    rewrite Heq.
    change (fsub (FloatOps := O) radius radius) with (SFsub 24 128 radius radius).
    rewrite (SFsub_diag radius Hfin). split; reflexivity.
Qed.

(** C3 in binary32 with the square for [powf x 2]: at start (0,0,0), center
    (10,0,0) and current (10,5,0), inside the circle, the error is 5 and the
    correction direction (0,1,0), away from the center; at current (20,0,0),
    on the circle, the error is 0 and the correction direction (-1,-0,0),
    towards the center. *)
Lemma path_circle_radial_error_witness :
  let inside := path_circle (O := binary32_standin) (binary32_point 0 0 0)
                  (binary32_point 10 0 0) (binary32_point 10 5 0)
                  binary32_status0 false in
  let on_circle := path_circle (O := binary32_standin) (binary32_point 0 0 0)
                     (binary32_point 10 0 0) (binary32_point 20 0 0)
                     binary32_status0 false in
  (error inside = binary32_of_Z 5 /\
   correction_direction inside = binary32_point 0 1 0) /\
  (error on_circle = S754_zero false /\
   correction_direction on_circle =
   Vec3 (binary32_of_Z (-1)) (S754_zero true) (S754_zero false)).
Proof.
  cbv zeta. split.
  - destruct (proj1 path_circle_radial_error spec_float binary32_standin
                (binary32_point 0 0 0) (binary32_point 10 0 0)
                (binary32_point 10 5 0) binary32_status0 false) as [He Hc];
      [ vm_compute; reflexivity | ].
    split; [ rewrite He | rewrite Hc ]; vm_compute; reflexivity.
  - destruct (proj2 path_circle_radial_error powf_square atan2f_on_axes
                (binary32_point 0 0 0) (binary32_point 10 0 0)
                (binary32_point 20 0 0) binary32_status0 false) as [He Hc];
      [ vm_compute; reflexivity | vm_compute; reflexivity
      | vm_compute; reflexivity | ].
    split; [ exact He | ].
    etransitivity; [ exact Hc | vm_compute; reflexivity ].
Defined.

(** Two circles of integer coordinates, computed in binary32 with the square
    for [powf x 2].  In the first the current position is nearer to the
    center than the start point, by less than the rounding of the two
    lengths (the sums of squares are 4923188 and 4923189): the computed
    lengths are equal, and the error is 0.  In the second the current
    position is on the circle, the sums of squares being equal integers, and
    the computed lengths differ: the error is 2^-11. *)
Example binary32_circle_rounding :
  error (path_circle (O := binary32_standin)
           (binary32_point 2170 (-2794) 0) (binary32_point (-47) (-2704) 0)
           (binary32_point (-1899) (-3926) 0) binary32_status0 false) =
  S754_zero false /\
  error (path_circle (O := binary32_standin)
           (binary32_point (-26) (-2684) 0) (binary32_point 325 1865 0)
           (binary32_point 4154 4346 0) binary32_status0 false) =
  S754_finite false 8388608 (-34).
Proof. split; vm_compute; reflexivity. Qed.

(** ** The degenerate circle *)

(** C7.  Circle solver, degenerate case, in the arithmetic of the code and
    in every other: when the horizontal distance from the current position
    to the center, as the code computes it, is below 1e-6, the status is
    exactly progress 1, error = radius, correction direction (0,1,0) and
    path direction (1,0,0). *)
Theorem path_circle_degenerate :
  forall (F : Type) (O : FloatOps F) start_point end_point cur_point status clockwise,
    let radius :=
      hlength (c0 end_point - c0 start_point)%cfloat
              (c1 end_point - c1 start_point)%cfloat in
    let cradius :=
      hlength (c0 cur_point - c0 end_point)%cfloat
              (c1 cur_point - c1 end_point)%cfloat in
    (cradius <? c_1e_6f)%cfloat = true ->
    path_circle start_point end_point cur_point status clockwise =
    PathStatus f1 radius (Vec3 f0 f1 f0) (Vec3 f1 f0 f0).
Proof.
  intros F O s e c st cw radius cradius Hc.
  rewrite path_circle_writes. cbv zeta.
  change (sqrtf (fadd (powf (fsub (c0 c) (c0 e)) f2) (powf (fsub (c1 c) (c1 e)) f2)))
    with cradius.
  rewrite Hc. reflexivity.
Qed.

(** C7 in binary32 with the square for [powf x 2], at start (0,0,0), center
    (10,0,0) and the current position seven units under the center. *)
Lemma path_circle_degenerate_witness :
  path_circle (O := binary32_standin) (binary32_point 0 0 0) (binary32_point 10 0 0)
    (binary32_point 10 0 7) binary32_status0 true =
  PathStatus (binary32_of_Z 1) (binary32_of_Z 10)
    (binary32_point 0 1 0) (binary32_point 1 0 0).
Proof.
  rewrite (path_circle_degenerate spec_float binary32_standin
             (binary32_point 0 0 0) (binary32_point 10 0 0)
             (binary32_point 10 0 7) binary32_status0 true);
    vm_compute; reflexivity.
Defined.

(** At the distance 1e-6f from the center the code is not in the degenerate
    branch: the comparison is with the [float] 1e-6f itself. *)
Example binary32_circle_threshold :
  path_circle (O := binary32_standin) (binary32_point (-10) 0 0) (binary32_point 0 0 0)
    (Vec3 binary32_1e_6f (S754_zero false) (S754_zero false))
    binary32_status0 false =
  PathStatus binary32_half
    (SFsub 24 128 (binary32_of_Z 10) binary32_1e_6f)
    (binary32_point 1 0 0)
    (Vec3 (S754_zero false) (binary32_of_Z (-1)) (S754_zero false)).
Proof. vm_compute. reflexivity. Qed.

(** ** The endpoint solver *)

(** C4.  Endpoint solver postcondition, in the arithmetic of the code and in
    every other.  With [path = end - start] and [diff = end - current],
    vertical components zeroed when the 3D flag is off, and |path|, |diff|
    the lengths the code computes: if |diff| < 1e-6 the status is progress 1,
    error 0, path direction (0,0,1), correction (0,0,0); otherwise the
    progress is 1 - |diff| / (1 + |path|) when |path| + 1 > |diff| and 0
    when not, the error is |diff|, the path direction is diff / |diff| and
    the correction direction is (0,0,0).  In binary32 the progress is never
    negative: 0 <= progress with the comparison of the floats, for every
    input. *)
Theorem path_endpoint_postcondition :
  (forall (F : Type) (O : FloatOps F) start_point end_point cur_point status mode3D,
     let path := diff3 mode3D end_point start_point in
     let diff := diff3 mode3D end_point cur_point in
     let d_diff := length3 diff in
     let d_path := length3 path in
     let r := path_endpoint start_point end_point cur_point status mode3D in
     ((d_diff <? c_1e_6f) = true ->
        r = PathStatus f1 f0 (Vec3 f0 f0 f0) (Vec3 f0 f0 f1))%cfloat /\
     ((d_diff <? c_1e_6f) = false ->
        ((d_path + f1 >? d_diff) = true ->
           fractional_progress r = f1 - d_diff / (f1 + d_path)) /\
        ((d_path + f1 >? d_diff) = false -> fractional_progress r = f0) /\
        error r = d_diff /\
        path_direction r = vec_div diff d_diff /\
        correction_direction r = Vec3 f0 f0 f0)%cfloat) /\
  (forall powf atan2f start_point end_point cur_point status mode3D,
     SFleb (S754_zero false)
       (fractional_progress
          (path_endpoint (O := binary32_ops powf atan2f)
             start_point end_point cur_point status mode3D)) = true).
Proof.
  split.
  - intros F O s e c st mode3D path diff d_diff d_path r. subst r.
    rewrite path_endpoint_writes. cbv zeta. fold path diff.
    change (sqrtf (dot3 diff diff)) with d_diff.
    change (sqrtf (dot3 path path)) with d_path.
    split; intros Hd; rewrite Hd; [ reflexivity | ].
    cbn [fractional_progress error correction_direction path_direction].
    split; [ intros Hp; rewrite Hp; reflexivity | ].
    split; [ intros Hp; rewrite Hp; reflexivity | ].
    repeat split.
  - intros pw at2 s e c st mode3D.
    rewrite path_endpoint_writes. cbv zeta.
    set (O := binary32_ops pw at2).
    set (d := sqrtf (FloatOps := O) (dot3 (diff3 mode3D e c) (diff3 mode3D e c))).
    set (p := sqrtf (FloatOps := O) (dot3 (diff3 mode3D e s) (diff3 mode3D e s))).
    destruct (flt (FloatOps := O) d c_1e_6f); [ reflexivity | ].
    cbn [fractional_progress].
    apply (binary32_endpoint_formula_range d p).
    + apply SFsqrt_valid.
    + apply SFsqrt_not_below_zero.
    + apply SFsqrt_valid.
Qed.

(** C4 in binary32, at start (0,0,0), end (10,0,0), in 3D: half way the
    progress is 1 - 5/11, the error 5 and the path direction (1,0,0); at the
    end point the status is the degenerate one. *)
Lemma path_endpoint_postcondition_witness :
  let half := path_endpoint (O := binary32_standin)
                (binary32_point 0 0 0) (binary32_point 10 0 0) (binary32_point 5 0 0)
                binary32_status0 true in
  let there := path_endpoint (O := binary32_standin)
                 (binary32_point 0 0 0) (binary32_point 10 0 0) (binary32_point 10 0 0)
                 binary32_status0 true in
  (fractional_progress half =
   SFsub 24 128 (binary32_of_Z 1) (SFdiv 24 128 (binary32_of_Z 5) (binary32_of_Z 11)) /\
   error half = binary32_of_Z 5 /\
   path_direction half = binary32_point 1 0 0 /\
   correction_direction half = binary32_point 0 0 0) /\
  there = PathStatus (binary32_of_Z 1) (binary32_of_Z 0)
            (binary32_point 0 0 0) (binary32_point 0 0 1).
Proof.
  cbv zeta. split.
  - destruct (proj1 path_endpoint_postcondition spec_float binary32_standin
                (binary32_point 0 0 0) (binary32_point 10 0 0) (binary32_point 5 0 0)
                binary32_status0 true) as [_ H].
    destruct H as (Hfp & _ & He & Hpd & Hcd); [ vm_compute; reflexivity | ].
    split; [ rewrite Hfp; vm_compute; reflexivity | ].
    split; [ rewrite He; vm_compute; reflexivity | ].
    split; [ rewrite Hpd; vm_compute; reflexivity | ].
    rewrite Hcd. vm_compute. reflexivity.
  - destruct (proj1 path_endpoint_postcondition spec_float binary32_standin
                (binary32_point 0 0 0) (binary32_point 10 0 0) (binary32_point 10 0 0)
                binary32_status0 true) as [H _].
    rewrite H; vm_compute; reflexivity.
Defined.

(** The threshold is the [float] 1e-6f, 8796093 * 2^-43, a little below
    10^-6: at that distance from the end point the code is not in the
    degenerate branch; it reports the error 1e-6f and the path direction
    (-1,0,0). *)
Example binary32_endpoint_threshold : forall powf atan2f,
  let r := path_endpoint (O := binary32_ops powf atan2f)
             (binary32_point 10 0 0) (binary32_point 0 0 0)
             (Vec3 binary32_1e_6f (S754_zero false) (S754_zero false))
             binary32_status0 true in
  error r = binary32_1e_6f /\
  path_direction r = Vec3 (binary32_of_Z (-1)) (S754_zero false) (S754_zero false).
Proof. intros. split; vm_compute; reflexivity. Qed.

(** ** The dispatcher *)

(** C5.  For every mode value that is not one of the recognized codes,
    [path_progress] is the endpoint solver with the 3D flag off, whatever the
    points and the incoming status; the result is a status, there is no error
    value.  In every mode the call is the call of one solver. *)
Theorem path_progress_unknown_mode :
  forall (F : Type) (O : FloatOps F) (M : PathDesiredModes) (mode : Z),
    ~ In mode recognized_modes ->
    (forall start_point end_point cur_point status,
       path_progress start_point end_point cur_point status mode =
       path_endpoint start_point end_point cur_point status false) /\
    (forall mode' : Z, exists k : solver,
       forall start_point end_point cur_point status,
         path_progress start_point end_point cur_point status mode' =
         run_solver k start_point end_point cur_point status).
Proof.
  intros F O M mode Hn. split.
  - intros s e c st. rewrite path_progress_runs_selected.
    rewrite (selected_solver_unknown mode Hn). reflexivity.
  - intros mode'. exists (selected_solver mode'). intros s e c st.
    apply path_progress_runs_selected.
Qed.

(** C5 at the mode code 200. *)
Lemma path_progress_unknown_mode_witness :
  ~ In 200%Z (@recognized_modes example_modes) /\
  path_progress (M := example_modes)
    (Vec3 0 0 0) (Vec3 10 0 0) (Vec3 5 0 0) status0 200 =
  path_endpoint (Vec3 0 0 0) (Vec3 10 0 0) (Vec3 5 0 0) status0 false.
Proof.
  assert (Hn : ~ In 200%Z (@recognized_modes example_modes))
    by (simpl; intuition discriminate).
  split; [ exact Hn | ].
  apply (proj1 (path_progress_unknown_mode R R_ops example_modes 200%Z Hn)).
Defined.

(** ** Fly and drive modes *)

(** C6, as stated, fails: the fly-circle-left mode reports the same status
    whatever the vertical coordinates are. *)
Lemma fly_circle_counterexample : ~ @fly_drive_claim example_modes.
Proof.
  intros [Hfly _].
  destruct (Hfly 3%Z) as [Herr _]; [ simpl; tauto | ].
  apply vertical_affects_whole in Herr. revert Herr.
  apply (circle_ignores_vertical example_modes 3%Z false). reflexivity.
Qed.

(** C6, amended.  In the fly-vector and fly-endpoint modes the vertical axis
    takes part in the error and in the progress; in the drive-endpoint mode
    it takes part in nothing; in the drive-vector mode it takes no part in
    the progress and in the path direction; the four circle modes, fly and
    drive alike, report a status that does not depend on the vertical
    coordinates. *)
Theorem vertical_axis_by_mode :
  forall M : PathDesiredModes,
    distinct_modes ->
    (vertical_affects error PATHDESIRED_MODE_FLYVECTOR /\
     vertical_affects fractional_progress PATHDESIRED_MODE_FLYVECTOR) /\
    (vertical_affects error PATHDESIRED_MODE_FLYENDPOINT /\
     vertical_affects fractional_progress PATHDESIRED_MODE_FLYENDPOINT) /\
    ~ vertical_affects (fun r => r) PATHDESIRED_MODE_DRIVEENDPOINT /\
    (~ vertical_affects fractional_progress PATHDESIRED_MODE_DRIVEVECTOR /\
     ~ vertical_affects path_direction PATHDESIRED_MODE_DRIVEVECTOR) /\
    (forall mode, In mode circle_modes -> ~ vertical_affects (fun r => r) mode).
Proof.
  intros M Hd.
  destruct (selected_solver_recognized Hd)
    as (Hfv & Hdv & Hfcr & Hdcr & Hfcl & Hdcl & Hfe & Hde).
  split; [ apply fly_vector_uses_vertical; assumption | ].
  split; [ apply fly_endpoint_uses_vertical; assumption | ].
  split; [ apply drive_endpoint_ignores_vertical; assumption | ].
  split; [ apply drive_vector_progress_ignores_vertical; assumption | ].
  intros mode Hin. unfold circle_modes in Hin. simpl in Hin.
  destruct Hin as [<-|[<-|[<-|[<-|[]]]]].
  - apply (circle_ignores_vertical M _ false). assumption.
  - apply (circle_ignores_vertical M _ true). assumption.
  - apply (circle_ignores_vertical M _ false). assumption.
  - apply (circle_ignores_vertical M _ true). assumption.
Qed.

(** C6 for the codes 0 to 7. *)
Lemma vertical_axis_by_mode_witness :
  @distinct_modes example_modes /\
  vertical_affects (M := example_modes) error 1%Z /\
  ~ vertical_affects (M := example_modes) (fun r => r) 4%Z /\
  ~ vertical_affects (M := example_modes) (fun r => r) 3%Z.
Proof.
  assert (Hd : @distinct_modes example_modes).
  { unfold distinct_modes, recognized_modes. simpl.
    repeat (constructor; [ simpl; intuition discriminate | ]). constructor. }
  split; [ exact Hd | ].
  destruct (vertical_axis_by_mode example_modes Hd)
    as ((Hfv & _) & _ & Hde & _ & Hcircle).
  split; [ exact Hfv | ]. split; [ exact Hde | ].
  apply Hcircle. simpl. tauto.
Defined.

(** ** Invariants of the status *)






(** C9, as stated, fails in binary32: in the fly-circle-left mode, with the
    center at (10^20, 0, 0), the start point at the origin and the current
    position at (0, 5, 0), all three finite, both radii overflow to infinity
    and their difference, the error, is NaN: the comparison 0 <= error is
    false. *)
Lemma error_nan_counterexample :
  let start_point := binary32_point 0 0 0 in
  let end_point := binary32_point (10 ^ 20) 0 0 in
  let cur_point := binary32_point 0 5 0 in
  let r := path_progress (O := binary32_standin) (M := example_modes)
             start_point end_point cur_point binary32_status0 3 in
  let radius :=
    hlength (O := binary32_standin)
      (SFsub 24 128 (c0 end_point) (c0 start_point))
      (SFsub 24 128 (c1 end_point) (c1 start_point)) in
  let cradius :=
    hlength (O := binary32_standin)
      (SFsub 24 128 (c0 cur_point) (c0 end_point))
      (SFsub 24 128 (c1 cur_point) (c1 end_point)) in
  is_finite (c0 end_point) = true /\
  radius = S754_infinity false /\ cradius = S754_infinity false /\
  error r = S754_nan /\
  SFleb (S754_zero false) (error r) = false.
Proof. cbv zeta. repeat split; vm_compute; reflexivity. Qed.

(** C9, amended.  After every call of [path_progress] in binary32, in every
    mode, for every input and whatever [powf] and [atan2f] return, the error
    is NaN or it is not negative: 0 <= error. *)
Theorem error_nonnegative_or_nan :
  forall powf atan2f (M : PathDesiredModes) start_point end_point cur_point status mode,
    let e := error (path_progress (O := binary32_ops powf atan2f)
                      start_point end_point cur_point status mode) in
    e = S754_nan \/ SFleb (S754_zero false) e = true.
Proof.
  intros pw at2 M s e c st mode err. subst err.
  apply not_below_zero_cases.
  apply (error_never_below_zero (O := binary32_ops pw at2)).
  - intros x. apply SFsqrt_not_below_zero.
  - intros x. apply to_float_not_below_zero, SFsqrt_not_below_zero.
  - intros x. apply to_float_not_below_zero, SFabs_not_below_zero.
  - reflexivity.
Qed.

(** On the reals the bearing and the wrap of the code are those of the
    specification. *)
Lemma normalised_bearing_R : forall north east : R,
  normalised_bearing north east = bearing (Vec3 north east 0).
Proof.
  intros n e. unfold normalised_bearing, bearing. cbv zeta. cbn [c0 c1].
  unfold_ops. unfold Rltb. destruct (Rlt_dec (R_atan2 n e) 0); reflexivity.
Qed.

Lemma wrap_progress_R : forall p : R, wrap_progress p = wrap01 p.
Proof.
  intros p. unfold wrap_progress, wrap01. unfold_ops. unfold Rltb, Rleb.
  destruct (Rlt_dec p 0); [ reflexivity | ]. destruct (Rle_dec 1 p); reflexivity.
Qed.

Lemma angular_progress_R : forall diff_north diff_east radius_north radius_east : R,
  angular_progress diff_north diff_east radius_north radius_east =
  wrap01 (raw_progress (Vec3 diff_north diff_east 0) (Vec3 radius_north radius_east 0)).
Proof.
  intros dn de rn re. unfold angular_progress.
  rewrite wrap_progress_R, !normalised_bearing_R. reflexivity.
Qed.

(** C10.  Circle solver, range of the progress.  In the arithmetic of the
    code and in every other, when the current radial distance is not below
    1e-6, the counter-clockwise progress is the wrapped angular progress and
    the clockwise progress is 1 minus it: the mirror is applied after the
    wrap.  In binary32, when [atan2f] returns for the two bearings floats of
    [-M_PI_F, M_PI_F], the counter-clockwise progress p satisfies
    0 <= p < 1 and the clockwise progress q satisfies 0 < q <= 1, with the
    comparisons of the floats: the clockwise progress is never 0 and the
    counter-clockwise progress never 1.  In exact arithmetic the same ranges
    hold for every pair of horizontal vectors.  In binary32 the clockwise
    progress is exactly 1 whenever the counter-clockwise progress is a zero;
    this happens for a circle centered at the origin with its start point at
    (0, 1, 0) and the vehicle at the start point, where [atan2f] returns 0
    and PI. *)
Theorem path_circle_progress_range :
  (forall (F : Type) (O : FloatOps F) start_point end_point cur_point status,
     let diff_north := (c0 cur_point - c0 end_point)%cfloat in
     let diff_east := (c1 cur_point - c1 end_point)%cfloat in
     let radius_north := (c0 end_point - c0 start_point)%cfloat in
     let radius_east := (c1 end_point - c1 start_point)%cfloat in
     let ccw := fractional_progress
                  (path_circle start_point end_point cur_point status false) in
     let cw := fractional_progress
                 (path_circle start_point end_point cur_point status true) in
     (hlength diff_north diff_east <? c_1e_6f)%cfloat = false ->
     ccw = angular_progress diff_north diff_east radius_north radius_east /\
     cw = (f1 - ccw)%cfloat) /\
  (forall powf atan2f start_point end_point cur_point status,
     let O := binary32_ops powf atan2f in
     let diff_north := fsub (FloatOps := O) (c0 cur_point) (c0 end_point) in
     let diff_east := fsub (FloatOps := O) (c1 cur_point) (c1 end_point) in
     let radius_north := fsub (FloatOps := O) (c0 end_point) (c0 start_point) in
     let radius_east := fsub (FloatOps := O) (c1 end_point) (c1 start_point) in
     let cradius := hlength (O := O) diff_north diff_east in
     let ccw := fractional_progress
                  (path_circle (O := O) start_point end_point cur_point status false) in
     let cw := fractional_progress
                 (path_circle (O := O) start_point end_point cur_point status true) in
     SFltb cradius binary32_1e_6f = false ->
     angle_in_range (atan2f diff_north diff_east) ->
     angle_in_range (atan2f radius_north radius_east) ->
     (SFleb (S754_zero false) ccw = true /\ SFltb ccw (binary32_of_Z 1) = true) /\
     (SFltb (S754_zero false) cw = true /\ SFleb cw (binary32_of_Z 1) = true)) /\
  (forall diff_north diff_east radius_north radius_east : R,
     let progress :=
       angular_progress diff_north diff_east radius_north radius_east in
     0 <= progress < 1 /\ 0 < 1 - progress <= 1) /\
  (forall powf atan2f start_point end_point cur_point status,
     let O := binary32_ops powf atan2f in
     let cradius :=
       hlength (O := O) (fsub (c0 cur_point) (c0 end_point))
                        (fsub (c1 cur_point) (c1 end_point)) in
     let ccw := fractional_progress
                  (path_circle (O := O) start_point end_point cur_point status false) in
     let cw := fractional_progress
                 (path_circle (O := O) start_point end_point cur_point status true) in
     SFltb cradius binary32_1e_6f = false ->
     ccw = S754_zero false \/ ccw = S754_zero true ->
     cw = binary32_of_Z 1) /\
  (forall powf atan2f status,
     let O := binary32_ops powf atan2f in
     let zero := S754_zero false in
     let one := binary32_of_Z 1 in
     let start_point := binary32_point 0 1 0 in
     let end_point := binary32_point 0 0 0 in
     powf zero (binary32_of_Z 2) = zero ->
     powf one (binary32_of_Z 2) = one ->
     atan2f zero one = zero ->
     atan2f zero (binary32_of_Z (-1)) = binary32_pi ->
     fractional_progress
       (path_circle (O := O) start_point end_point start_point status false) = zero /\
     fractional_progress
       (path_circle (O := O) start_point end_point start_point status true) = one).
Proof.
  split; [ | split; [ | split; [ | split ] ] ].
  - intros F O s e c st dn de rn re ccw cw Hreg. subst ccw cw.
    rewrite !path_circle_writes. cbv zeta. fold dn de rn re.
    change (sqrtf (fadd (powf dn f2) (powf de f2))) with (hlength dn de).
    rewrite Hreg. split; reflexivity.
  - intros pw at2 s e c st O dn de rn re cradius ccw cw Hreg Hd Hr. subst ccw cw.
    rewrite !path_circle_writes. cbv zeta. fold dn de rn re.
    change (sqrtf (FloatOps := O)
              (fadd (powf (FloatOps := O) dn f2) (powf (FloatOps := O) de f2)))
      with cradius.
    change (flt (FloatOps := O) cradius c_1e_6f)
      with (SFltb cradius binary32_1e_6f).
    rewrite Hreg. cbn [fractional_progress].
    exact (binary32_angular_progress_range pw at2 dn de rn re Hd Hr).
  - intros dn de rn re progress. subst progress. rewrite angular_progress_R.
    assert (Hw : 0 <= wrap01 (raw_progress (Vec3 dn de 0) (Vec3 rn re 0)) < 1).
    { apply wrap01_bounds.
      pose proof (raw_progress_bounds (Vec3 dn de 0) (Vec3 rn re 0)). lra. }
    lra.
  - intros pw at2 s e c st O cradius ccw cw Hreg Hzero. subst ccw cw.
    revert Hzero. rewrite !path_circle_writes. cbv zeta.
    change (sqrtf (FloatOps := O)
              (fadd (powf (FloatOps := O) (fsub (c0 c) (c0 e)) f2)
                    (powf (FloatOps := O) (fsub (c1 c) (c1 e)) f2)))
      with cradius.
    change (flt (FloatOps := O) cradius c_1e_6f)
      with (SFltb cradius binary32_1e_6f).
    rewrite Hreg. cbn [fractional_progress].
    intros [-> | ->]; reflexivity.
  - intros pw at2 st O zero one s e Hp0 Hp1 Ha0 Hapi.
    rewrite !path_circle_writes. cbv zeta.
    change (fsub (FloatOps := O) (c0 s) (c0 e)) with zero.
    change (fsub (FloatOps := O) (c1 s) (c1 e)) with one.
    change (fsub (FloatOps := O) (c0 e) (c0 s)) with zero.
    change (fsub (FloatOps := O) (c1 e) (c1 s)) with (binary32_of_Z (-1)).
    change (powf (FloatOps := O)) with pw.
    change (atan2f (FloatOps := O)) with at2.
    change (@f2 _ O) with (binary32_of_Z 2).
    rewrite Hp0, Hp1, Ha0, Hapi.
    split; vm_compute; reflexivity.
Qed.

(** C10 in binary32 with the square for [powf x 2] and [atan2f] on the axes.
    With the start point south of the center and the vehicle at the start
    point, the bearings are -PI/2 and PI/2, in range: the counter-clockwise
    progress is in [0, 1) and the clockwise progress in (0, 1].  With the
    start point east of the center and the vehicle at the start point, the
    counter-clockwise progress is 0 and the clockwise progress is 1. *)
Lemma path_circle_progress_range_witness :
  (let ccw := fractional_progress
                (path_circle (O := binary32_standin) (binary32_point 0 0 0)
                   (binary32_point 10 0 0) (binary32_point 0 0 0)
                   binary32_status0 false) in
   let cw := fractional_progress
               (path_circle (O := binary32_standin) (binary32_point 0 0 0)
                  (binary32_point 10 0 0) (binary32_point 0 0 0)
                  binary32_status0 true) in
   (SFleb (S754_zero false) ccw = true /\ SFltb ccw (binary32_of_Z 1) = true) /\
   (SFltb (S754_zero false) cw = true /\ SFleb cw (binary32_of_Z 1) = true)) /\
  fractional_progress
    (path_circle (O := binary32_standin) (binary32_point 0 1 0) (binary32_point 0 0 0)
       (binary32_point 0 1 0) binary32_status0 false) = S754_zero false /\
  fractional_progress
    (path_circle (O := binary32_standin) (binary32_point 0 1 0) (binary32_point 0 0 0)
       (binary32_point 0 1 0) binary32_status0 true) = binary32_of_Z 1.
Proof.
  split.
  - apply (proj1 (proj2 path_circle_progress_range)
             powf_square atan2f_on_axes (binary32_point 0 0 0)
             (binary32_point 10 0 0) (binary32_point 0 0 0) binary32_status0).
    + vm_compute. reflexivity.
    + split; [ split; reflexivity | split; reflexivity ].
    + split; [ split; reflexivity | split; reflexivity ].
  - apply (proj2 (proj2 (proj2 (proj2 path_circle_progress_range)))
             powf_square atan2f_on_axes binary32_status0); reflexivity.
Defined.

(** At the start point south of the center the binary32 progress is at the
    other end of the range: the bearing -PI/2 + 2 PI is rounded, and with
    the rounded 2 PI and PI the quotient falls one unit in the last place
    short of 1, so the counter-clockwise progress is 1 - 2^-24 and the
    clockwise progress 2^-24. *)
Example binary32_circle_at_start :
  fractional_progress
    (path_circle (O := binary32_standin) (binary32_point 0 0 0) (binary32_point 10 0 0)
       (binary32_point 0 0 0) binary32_status0 false) =
  S754_finite false 16777215 (-24) /\
  fractional_progress
    (path_circle (O := binary32_standin) (binary32_point 0 0 0) (binary32_point 10 0 0)
       (binary32_point 0 0 0) binary32_status0 true) =
  S754_finite false 8388608 (-47).
Proof. split; vm_compute; reflexivity. Qed.

(** The sixteen positions of a start point and of the vehicle on the four
    half-axes around the center, at the distance 10, computed in binary32
    with [atan2f] on the axes: in each the counter-clockwise progress is in
    [0, 1) and the clockwise progress in (0, 1]. *)
Example binary32_circle_axes_in_range :
  let axis_points := [(10, 0); (0, 10); (-10, 0); (0, -10)]%Z in
  let progress clockwise (start_point cur_point : Z * Z) :=
    fractional_progress
      (path_circle (O := binary32_standin)
         (binary32_point (fst start_point) (snd start_point) 0)
         (binary32_point 0 0 0)
         (binary32_point (fst cur_point) (snd cur_point) 0)
         binary32_status0 clockwise) in
  forallb (fun start_point =>
    forallb (fun cur_point =>
      SFleb (S754_zero false) (progress false start_point cur_point) &&
      SFltb (progress false start_point cur_point) (binary32_of_Z 1) &&
      SFltb (S754_zero false) (progress true start_point cur_point) &&
      SFleb (progress true start_point cur_point) (binary32_of_Z 1))
      axis_points) axis_points = true.
Proof. vm_compute. reflexivity. Qed.

(** * Part IV: further properties of the code *)

(** ** Shared facts *)

Lemma vnorm_vscale : forall k a, vnorm (vscale k a) = Rabs k * vnorm a.
Proof.
  intros k [x y z]. unfold vnorm.
  replace (vdot (vscale k (Vec3 x y z)) (vscale k (Vec3 x y z)))
    with (Rsqr k * vdot (Vec3 x y z) (Vec3 x y z))
    by (unfold vdot, vscale, Rsqr; simpl; ring).
  rewrite sqrt_mult; [ | apply Rle_0_sqr | apply vdot_self_nonneg ].
  rewrite sqrt_Rsqr_abs. reflexivity.
Qed.

(** The progress of the endpoint solution, from the two distances. *)
Lemma endpoint_progress_cases : forall start_point end_point cur_point mode3D,
  let d := vnorm (vflat mode3D (vsub end_point cur_point)) in
  let p := vnorm (vflat mode3D (vsub end_point start_point)) in
  let fp := fractional_progress
              (endpoint_solution start_point end_point cur_point mode3D) in
  (d < eps /\ fp = 1) \/
  (eps <= d < p + 1 /\ fp = 1 - d / (1 + p) /\ 0 < fp < 1) \/
  (eps <= d /\ p + 1 <= d /\ fp = 0).
Proof.
  intros s e c mode3D d p fp. subst fp. unfold endpoint_solution. cbv zeta.
  fold d p. pose proof eps_pos as Heps.
  assert (Hp : 0 <= p) by apply vnorm_nonneg.
  destruct (Rlt_dec d eps) as [Hd|Hd]; cbn [fractional_progress].
  - left. split; [ assumption | reflexivity ].
  - destruct (Rlt_dec d (p + 1)) as [Hin|Hout].
    + right. left. split; [ lra | ]. split; [ reflexivity | ].
      assert (Hi : 0 < / (1 + p)) by (apply Rinv_0_lt_compat; lra).
      assert (Hm : (1 + p) * / (1 + p) = 1) by (field; lra).
      unfold Rdiv. split; nra.
    + right. right. repeat split; lra.
Qed.

(** ** The endpoint solver *)

(** X7.  The progress of the endpoint solver does not decrease when the
    current position gets closer to the end point: of two positions, the one
    at the smaller distance reports the larger progress. *)
Theorem path_endpoint_progress_monotone :
  forall start_point end_point cur_point cur_point' status status' mode3D,
    vnorm (vflat mode3D (vsub end_point cur_point)) <=
    vnorm (vflat mode3D (vsub end_point cur_point')) ->
    fractional_progress
      (path_endpoint start_point end_point cur_point' status' mode3D) <=
    fractional_progress
      (path_endpoint start_point end_point cur_point status mode3D).
Proof.
  intros s e c c' st st' mode3D Hle. rewrite !path_endpoint_solution.
  pose proof (vnorm_nonneg (vflat mode3D (vsub e s))) as Hp.
  destruct (endpoint_progress_cases s e c mode3D)
    as [[Hd ->]|[(Hd & -> & Hfp)|(Hd & Hout & ->)]];
  destruct (endpoint_progress_cases s e c' mode3D)
    as [[Hd' ->]|[(Hd' & -> & Hfp')|(Hd' & Hout' & ->)]];
  try lra.
  set (p := vnorm (vflat mode3D (vsub e s))) in *.
  assert (Hi : 0 < / (1 + p)) by (apply Rinv_0_lt_compat; lra).
  unfold Rdiv. nra.
Qed.

Lemma path_endpoint_progress_monotone_witness :
  fractional_progress
    (path_endpoint (Vec3 0 0 0) (Vec3 10 0 0) (Vec3 0 0 0) status0 true) <=
  fractional_progress
    (path_endpoint (Vec3 0 0 0) (Vec3 10 0 0) (Vec3 5 0 0) status0 true).
Proof.
  apply path_endpoint_progress_monotone.
  assert (Hd : vnorm (vflat true (vsub (Vec3 10 0 0) (Vec3 5 0 0))) = 5)
    by eval_vnorm 5.
  assert (Hd' : vnorm (vflat true (vsub (Vec3 10 0 0) (Vec3 0 0 0))) = 10)
    by eval_vnorm 10.
  rewrite Hd, Hd'. lra.
Defined.

(** X9.  Outside of the degenerate branch, moving from the current position
    along the path direction by the error reaches the end point: in 3D mode
    the end point itself, in 2D mode the point over or under it at the
    altitude of the current position. *)
Theorem path_endpoint_direction_reaches_end :
  forall start_point end_point cur_point status mode3D,
    let diff := vflat mode3D (vsub end_point cur_point) in
    let r := path_endpoint start_point end_point cur_point status mode3D in
    ~ vnorm diff < eps ->
    vadd cur_point (vscale (error r) (path_direction r)) =
    Vec3 (c0 end_point) (c1 end_point)
         (if mode3D then c2 end_point else c2 cur_point).
Proof.
  intros s e c st mode3D diff r Hd. subst r. rewrite path_endpoint_solution.
  unfold endpoint_solution. cbv zeta. fold diff.
  pose proof eps_pos as Heps.
  destruct (Rlt_dec (vnorm diff) eps); [ contradiction | ].
  cbn [error path_direction].
  assert (Hn : vnorm diff <> 0) by lra.
  subst diff. destruct e as [e0 e1 e2], c as [x0 x1 x2].
  set (d := vnorm _) in *.
  unfold vadd, vscale, vdiv, vflat, vsub. cbn [c0 c1 c2].
  destruct mode3D; f_equal; field; assumption.
Qed.

Lemma path_endpoint_direction_reaches_end_witness :
  let r := path_endpoint (Vec3 0 0 0) (Vec3 10 0 0) (Vec3 5 0 7) status0 false in
  vadd (Vec3 5 0 7) (vscale (error r) (path_direction r)) = Vec3 10 0 7.
Proof.
  cbv zeta.
  apply (path_endpoint_direction_reaches_end
           (Vec3 0 0 0) (Vec3 10 0 0) (Vec3 5 0 7) status0 false).
  assert (Hd : vnorm (vflat false (vsub (Vec3 10 0 0) (Vec3 5 0 7))) = 5)
    by eval_vnorm 5.
  rewrite Hd. unfold eps. lra.
Defined.

(** ** The circle solver *)

(** The circle solution away from the center. *)
Lemma circle_solution_regular : forall start_point end_point cur_point clockwise,
  let radius_vec := horizontal (vsub end_point start_point) in
  let diff := horizontal (vsub cur_point end_point) in
  let radius := vnorm radius_vec in
  let cradius := vnorm diff in
  eps <= cradius ->
  circle_solution start_point end_point cur_point clockwise =
  PathStatus
    (if clockwise then 1 - wrap01 (raw_progress diff radius_vec)
     else wrap01 (raw_progress diff radius_vec))
    (Rabs (radius - cradius))
    (vscale (if Rlt_dec cradius radius then 1 else - 1) (vdiv diff cradius))
    (if clockwise
     then Vec3 (- c1 diff / cradius) (c0 diff / cradius) 0
     else Vec3 (c1 diff / cradius) (- c0 diff / cradius) 0).
Proof.
  intros s e c cw radius_vec diff radius cradius Hc.
  unfold circle_solution. cbv zeta. fold radius_vec diff. fold radius cradius.
  destruct (Rlt_dec cradius eps); [ lra | reflexivity ].
Qed.

Lemma horizontal_sqr : forall a : vec3 R,
  vnorm (horizontal a) * vnorm (horizontal a) = c0 a * c0 a + c1 a * c1 a.
Proof.
  intros [x y z]. rewrite vnorm_sqr. unfold vdot, horizontal, vflat. simpl. ring.
Qed.

(** X15.  After every call of the circle solver the path direction and the
    correction direction are perpendicular, the fixed vectors of the
    degenerate branch included. *)
Theorem path_circle_directions_perpendicular :
  forall start_point end_point cur_point status clockwise,
    let r := path_circle start_point end_point cur_point status clockwise in
    vdot (path_direction r) (correction_direction r) = 0.
Proof.
  intros s e c st cw r. subst r. rewrite path_circle_solution.
  unfold circle_solution. cbv zeta.
  set (diff := horizontal (vsub c e)).
  destruct (Rlt_dec (vnorm diff) eps); cbn [path_direction correction_direction].
  - unfold vdot. simpl. ring.
  - destruct cw; destruct (Rlt_dec (vnorm diff) _);
      unfold vdot, vscale, vdiv; cbn [c0 c1 c2]; unfold Rdiv; ring.
Qed.

(** X16.  The winding flag turns the path direction the way it says.  With
    [diff] the horizontal vector from the center to the current position,
    at a radial distance of at least 1e-6, the determinant of [diff] and of
    the path direction, north component first, is the radial distance under
    the clockwise flag and its opposite otherwise: from [diff] the path
    direction is a quarter turn from north towards east, clockwise seen
    from above, exactly when the flag is set. *)
Theorem path_circle_winding :
  forall start_point end_point cur_point status clockwise,
    let diff := horizontal (vsub cur_point end_point) in
    let cradius := vnorm diff in
    let r := path_circle start_point end_point cur_point status clockwise in
    eps <= cradius ->
    c0 diff * c1 (path_direction r) - c1 diff * c0 (path_direction r) =
    if clockwise then cradius else - cradius.
Proof.
  intros s e c st cw diff cradius r Hc. subst r.
  rewrite path_circle_solution, circle_solution_regular by exact Hc.
  fold diff. fold cradius. cbn [path_direction].
  pose proof eps_pos as Heps.
  assert (Hs : cradius * cradius = c0 diff * c0 diff + c1 diff * c1 diff).
  { subst cradius diff. rewrite horizontal_sqr. reflexivity. }
  assert (Hn : cradius <> 0) by lra.
  destruct cw; cbn [c0 c1].
  - replace (c0 diff * (c0 diff / cradius) - c1 diff * (- c1 diff / cradius))
      with ((c0 diff * c0 diff + c1 diff * c1 diff) / cradius)
      by (field; assumption).
    rewrite <- Hs. field. assumption.
  - replace (c0 diff * (- c0 diff / cradius) - c1 diff * (c1 diff / cradius))
      with (- ((c0 diff * c0 diff + c1 diff * c1 diff) / cradius))
      by (field; assumption).
    rewrite <- Hs. field. assumption.
Qed.

Lemma path_circle_winding_witness :
  let diff := horizontal (vsub (Vec3 10 5 0) (Vec3 10 0 0)) in
  let r := path_circle (Vec3 0 0 0) (Vec3 10 0 0) (Vec3 10 5 0) status0 true in
  c0 diff * c1 (path_direction r) - c1 diff * c0 (path_direction r) = 5.
Proof.
  cbv zeta.
  assert (Hd : vnorm (horizontal (vsub (Vec3 10 5 0) (Vec3 10 0 0))) = 5).
  { apply vnorm_horizontal_is; [ lra | simpl; lra ]. }
  pose proof (path_circle_winding
                (Vec3 0 0 0) (Vec3 10 0 0) (Vec3 10 5 0) status0 true) as H.
  cbv zeta in H. rewrite Hd in H. apply H. unfold eps. lra.
Defined.

(** X17.  The correction leads to the circle: at a radial distance of at
    least 1e-6, the point reached from the current position by moving along
    the correction direction by the error is at the distance [radius] from
    the center, in the horizontal plane. *)
Theorem path_circle_correction_reaches_circle :
  forall start_point end_point cur_point status clockwise,
    let radius := vnorm (horizontal (vsub end_point start_point)) in
    let cradius := vnorm (horizontal (vsub cur_point end_point)) in
    let r := path_circle start_point end_point cur_point status clockwise in
    let target := vadd cur_point (vscale (error r) (correction_direction r)) in
    eps <= cradius ->
    vnorm (horizontal (vsub target end_point)) = radius.
Proof.
  intros s e c st cw radius cradius r target Hc. subst target r.
  rewrite path_circle_solution, circle_solution_regular by exact Hc.
  cbn [error correction_direction].
  set (diff := horizontal (vsub c e)). fold cradius radius.
  pose proof eps_pos as Heps.
  assert (Hr : 0 <= radius) by apply vnorm_nonneg.
  assert (Hn : cradius <> 0) by lra.
  set (side := if Rlt_dec cradius radius then 1 else - 1).
  assert (Hside : Rabs (radius - cradius) * side = radius - cradius).
  { subst side. destruct (Rlt_dec cradius radius).
    - rewrite Rabs_pos_eq by lra. ring.
    - rewrite Rabs_left1 by lra. ring. }
  assert (Heq : horizontal
                  (vsub (vadd c (vscale (Rabs (radius - cradius))
                                   (vscale side (vdiv diff cradius)))) e) =
                vscale (radius / cradius) diff).
  { subst diff. destruct c as [x0 x1 x2], e as [e0 e1 e2].
    unfold horizontal, vflat, vsub, vadd, vscale, vdiv. cbn [c0 c1 c2].
    f_equal.
    - replace (x0 + Rabs (radius - cradius) * (side * ((x0 - e0) / cradius)) - e0)
        with ((x0 - e0) + (Rabs (radius - cradius) * side) * ((x0 - e0) / cradius))
        by ring.
      rewrite Hside. field. assumption.
    - replace (x1 + Rabs (radius - cradius) * (side * ((x1 - e1) / cradius)) - e1)
        with ((x1 - e1) + (Rabs (radius - cradius) * side) * ((x1 - e1) / cradius))
        by ring.
      rewrite Hside. field. assumption.
    - ring. }
  change (vnorm diff) with cradius. fold side.
  rewrite Heq, vnorm_vscale. change (vnorm diff) with cradius.
  assert (Hq : 0 <= radius / cradius).
  { unfold Rdiv. apply Rmult_le_pos; [ assumption | ].
    left. apply Rinv_0_lt_compat. lra. }
  rewrite Rabs_pos_eq by assumption. field. assumption.
Qed.

Lemma path_circle_correction_reaches_circle_witness :
  let r := path_circle (Vec3 0 0 0) (Vec3 10 0 0) (Vec3 10 5 0) status0 false in
  vnorm (horizontal
           (vsub (vadd (Vec3 10 5 0)
                    (vscale (error r) (correction_direction r)))
                 (Vec3 10 0 0))) = 10.
Proof.
  cbv zeta.
  assert (Hr : vnorm (horizontal (vsub (Vec3 10 0 0) (Vec3 0 0 0))) = 10).
  { apply vnorm_horizontal_is; [ lra | simpl; lra ]. }
  assert (Hd : vnorm (horizontal (vsub (Vec3 10 5 0) (Vec3 10 0 0))) = 5).
  { apply vnorm_horizontal_is; [ lra | simpl; lra ]. }
  pose proof (path_circle_correction_reaches_circle
                (Vec3 0 0 0) (Vec3 10 0 0) (Vec3 10 5 0) status0 false) as H.
  cbv zeta in H. rewrite Hr, Hd in H. apply H. unfold eps. lra.
Defined.

Lemma horizontal_vsub_vadd : forall a w : vec3 R,
  horizontal (vsub (vadd a w) a) = horizontal w.
Proof.
  intros [a0 a1 a2] [w0 w1 w2]. unfold horizontal, vflat, vsub, vadd. simpl.
  f_equal; ring.
Qed.

(** X19.  Half way around: for a circle of radius at least 1e-6 and the
    current position center + (center - start), opposite the start point,
    the circle solver reports the progress 1/2 under either flag, and the
    error 0. *)
Theorem path_circle_progress_opposite_start :
  forall start_point end_point status clockwise,
    let radius := vnorm (horizontal (vsub end_point start_point)) in
    let cur_point := vadd end_point (vsub end_point start_point) in
    let r := path_circle start_point end_point cur_point status clockwise in
    eps <= radius ->
    fractional_progress r = 1 / 2 /\ error r = 0.
Proof.
  intros s e st cw radius c r Hr. subst r.
  assert (Hdiff : horizontal (vsub c e) = horizontal (vsub e s)).
  { subst c. apply horizontal_vsub_vadd. }
  assert (Hc : eps <= vnorm (horizontal (vsub c e))) by (rewrite Hdiff; exact Hr).
  rewrite path_circle_solution, circle_solution_regular by exact Hc.
  rewrite Hdiff. fold radius. cbn [fractional_progress error].
  pose proof PI_RGT_0 as Hpi.
  assert (Hw : wrap01 (raw_progress (horizontal (vsub e s))
                                    (horizontal (vsub e s))) = 1 / 2).
  { unfold raw_progress.
    replace ((bearing (horizontal (vsub e s)) - bearing (horizontal (vsub e s)) + PI)
             / (2 * PI)) with (1 / 2) by (field; lra).
    unfold wrap01. destruct (Rlt_dec (1 / 2) 0); [ lra | ].
    destruct (Rle_dec 1 (1 / 2)); lra. }
  rewrite Hw. split.
  - destruct cw; lra.
  - replace (radius - radius) with 0 by ring. apply Rabs_R0.
Qed.

Lemma path_circle_progress_opposite_start_witness :
  let r := path_circle (Vec3 0 3 0) (Vec3 0 0 0)
             (vadd (Vec3 0 0 0) (vsub (Vec3 0 0 0) (Vec3 0 3 0))) status0 true in
  fractional_progress r = 1 / 2 /\ error r = 0.
Proof.
  cbv zeta.
  apply (path_circle_progress_opposite_start (Vec3 0 3 0) (Vec3 0 0 0) status0 true).
  assert (Hr : vnorm (horizontal (vsub (Vec3 0 0 0) (Vec3 0 3 0))) = 3).
  { apply vnorm_horizontal_is; [ lra | simpl; lra ]. }
  rewrite Hr. unfold eps. lra.
Defined.

(** ** The dispatcher *)

(** X2.  The switch, mode by mode: with pairwise distinct codes, and for
    every arithmetic, the vector modes run [path_vector] with the 3D flag on
    for fly and off for drive, the endpoint modes run [path_endpoint]
    likewise, the two circle-right modes run [path_circle] clockwise and the
    two circle-left modes run it counter-clockwise. *)
Theorem path_progress_dispatch :
  forall (F : Type) (O : FloatOps F) (M : PathDesiredModes),
    distinct_modes ->
    forall (start_point end_point cur_point : vec3 F) status,
      path_progress start_point end_point cur_point status PATHDESIRED_MODE_FLYVECTOR =
      path_vector start_point end_point cur_point status true /\
      path_progress start_point end_point cur_point status PATHDESIRED_MODE_DRIVEVECTOR =
      path_vector start_point end_point cur_point status false /\
      path_progress start_point end_point cur_point status PATHDESIRED_MODE_FLYCIRCLERIGHT =
      path_circle start_point end_point cur_point status true /\
      path_progress start_point end_point cur_point status PATHDESIRED_MODE_DRIVECIRCLERIGHT =
      path_circle start_point end_point cur_point status true /\
      path_progress start_point end_point cur_point status PATHDESIRED_MODE_FLYCIRCLELEFT =
      path_circle start_point end_point cur_point status false /\
      path_progress start_point end_point cur_point status PATHDESIRED_MODE_DRIVECIRCLELEFT =
      path_circle start_point end_point cur_point status false /\
      path_progress start_point end_point cur_point status PATHDESIRED_MODE_FLYENDPOINT =
      path_endpoint start_point end_point cur_point status true /\
      path_progress start_point end_point cur_point status PATHDESIRED_MODE_DRIVEENDPOINT =
      path_endpoint start_point end_point cur_point status false.
Proof.
  intros F O M Hd s e c st.
  destruct (selected_solver_recognized Hd)
    as (Hfv & Hdv & Hfcr & Hdcr & Hfcl & Hdcl & Hfe & Hde).
  rewrite !path_progress_runs_selected.
  rewrite Hfv, Hdv, Hfcr, Hdcr, Hfcl, Hdcl, Hfe, Hde.
  repeat split; reflexivity.
Qed.

Lemma path_progress_dispatch_witness :
  @distinct_modes example_modes /\
  path_progress (M := example_modes)
    (Vec3 0 0 0) (Vec3 10 0 0) (Vec3 5 5 0) status0 7 =
  path_circle (Vec3 0 0 0) (Vec3 10 0 0) (Vec3 5 5 0) status0 true.
Proof.
  assert (Hd : @distinct_modes example_modes).
  { unfold distinct_modes, recognized_modes. simpl.
    repeat (constructor; [ simpl; intuition discriminate | ]). constructor. }
  split; [ exact Hd | ].
  destruct (path_progress_dispatch R R_ops example_modes Hd
              (Vec3 0 0 0) (Vec3 10 0 0) (Vec3 5 5 0) status0)
    as (_ & _ & _ & H & _).
  exact H.
Defined.

(** ** NaN in binary32 arithmetic *)

Lemma SFsub_nan_r : forall prec emax x, SFsub prec emax x S754_nan = S754_nan.
Proof. intros prec emax [s|s| |s m e]; reflexivity. Qed.

Lemma SFadd_nan_r : forall prec emax x, SFadd prec emax x S754_nan = S754_nan.
Proof. intros prec emax [s|s| |s m e]; reflexivity. Qed.

Lemma SFltb_nan_l : forall x, SFltb S754_nan x = false.
Proof. reflexivity. Qed.

(** X4.  A NaN in the current position, in a coordinate the mode reads,
    makes every comparison of the endpoint solver false: in binary32
    arithmetic the solver then reports the progress 0, not the progress 1 of
    the degenerate branch, and a NaN error. *)
Theorem binary32_endpoint_nan :
  forall powf atan2f start_point end_point cur_point status mode3D,
    let r := path_endpoint (O := binary32_ops powf atan2f)
               start_point end_point cur_point status mode3D in
    c0 cur_point = S754_nan \/ c1 cur_point = S754_nan \/
    (mode3D = true /\ c2 cur_point = S754_nan) ->
    fractional_progress r = S754_zero false /\ error r = S754_nan.
Proof.
  intros powf atan2f s e c st mode3D r Hnan. subst r.
  rewrite path_endpoint_writes. cbv zeta.
  set (O := binary32_ops powf atan2f).
  set (diff := diff3 (O := O) mode3D e c).
  assert (Hd : sqrtf (FloatOps := O) (dot3 (O := O) diff diff) = S754_nan).
  { subst diff O. unfold dot3, diff3. cbn [c0 c1 c2].
    cbn [fadd fsub fmul sqrtf binary32_ops].
    destruct Hnan as [H|[H|[-> H]]]; rewrite H, SFsub_nan_r;
      cbn [SFmul]; rewrite ?SFadd_nan_r; reflexivity. }
  rewrite Hd. subst O. cbn [flt binary32_ops].
  rewrite !SFltb_nan_l.
  cbn [fractional_progress error f0 binary32_ops]. split; reflexivity.
Qed.

Lemma binary32_endpoint_nan_witness :
  let r := path_endpoint
             (O := binary32_ops (fun x _ => x) (fun x _ => x))
             (binary32_point 0 0 0) (binary32_point 10 0 0)
             (Vec3 S754_nan (binary32_of_Z 0) (binary32_of_Z 0))
             binary32_status0 false in
  fractional_progress r = S754_zero false /\ error r = S754_nan.
Proof.
  cbv zeta.
  apply (binary32_endpoint_nan (fun x _ => x) (fun x _ => x)
           (binary32_point 0 0 0) (binary32_point 10 0 0)
           (Vec3 S754_nan (binary32_of_Z 0) (binary32_of_Z 0))
           binary32_status0 false).
  left. reflexivity.
Defined.

(** ** The radius of the current position *)

Lemma sign_scale : forall k x, 0 < k ->
  (0 < k * x <-> 0 < x) /\ (k * x < 0 <-> x < 0) /\ (0 <= k * x <-> 0 <= x).
Proof.
  intros k x Hk. destruct (Rtotal_order x 0) as [H|[H|H]].
  - assert (k * x < 0)
      by (rewrite <- (Rmult_0_r k); apply Rmult_lt_compat_l; assumption).
    repeat split; intros; lra.
  - subst x. rewrite Rmult_0_r. repeat split; intros; lra.
  - assert (0 < k * x) by (apply Rmult_lt_0_compat; assumption).
    repeat split; intros; lra.
Qed.

Lemma R_atan2_scale : forall k y x, 0 < k -> R_atan2 (k * y) (k * x) = R_atan2 y x.
Proof.
  intros k y x Hk. unfold R_atan2.
  assert (Hq : x <> 0 -> k * y / (k * x) = y / x) by (intros; field; lra).
  destruct (sign_scale k x Hk) as (Hx1 & Hx2 & _).
  destruct (sign_scale k y Hk) as (Hy1 & Hy2 & Hy3).
  destruct (Rlt_dec 0 x) as [Hx|Hx]; destruct (Rlt_dec 0 (k * x));
    try (exfalso; tauto).
  - rewrite Hq by lra. reflexivity.
  - destruct (Rlt_dec x 0) as [Hx'|Hx']; destruct (Rlt_dec (k * x) 0);
      try (exfalso; tauto).
    + rewrite Hq by lra.
      destruct (Rle_dec 0 y); destruct (Rle_dec 0 (k * y));
        try (exfalso; tauto); reflexivity.
    + destruct (Rlt_dec 0 y); destruct (Rlt_dec 0 (k * y));
        try (exfalso; tauto); try reflexivity.
      destruct (Rlt_dec y 0); destruct (Rlt_dec (k * y) 0);
        try (exfalso; tauto); reflexivity.
Qed.

(** X20.  The progress around the circle and the path direction depend on
    the direction from the center to the current position only, not on the
    radial distance: moving the current position along its radius, by a
    factor k > 0, changes neither of them, as long as the radial distance
    stays at or above 1e-6. *)
Theorem path_circle_radial_invariance :
  forall start_point end_point cur_point status clockwise k,
    let cradius := vnorm (horizontal (vsub cur_point end_point)) in
    let cur_point' := vadd end_point (vscale k (vsub cur_point end_point)) in
    let r := path_circle start_point end_point cur_point status clockwise in
    let r' := path_circle start_point end_point cur_point' status clockwise in
    0 < k -> eps <= cradius -> eps <= k * cradius ->
    fractional_progress r' = fractional_progress r /\
    path_direction r' = path_direction r.
Proof.
  intros s e c st cw k cradius c' r r' Hk Hc Hc'. subst r r'.
  set (diff := horizontal (vsub c e)) in *.
  assert (Hdiff : horizontal (vsub c' e) = vscale k diff).
  { subst c' diff. rewrite horizontal_vsub_vadd.
    destruct c as [x0 x1 x2], e as [e0 e1 e2].
    unfold horizontal, vflat, vsub, vscale. simpl. f_equal. ring. }
  assert (Hn' : vnorm (horizontal (vsub c' e)) = k * cradius).
  { rewrite Hdiff, vnorm_vscale, Rabs_pos_eq by lra. reflexivity. }
  assert (Hc'' : eps <= vnorm (horizontal (vsub c' e))) by (rewrite Hn'; exact Hc').
  rewrite !path_circle_solution.
  rewrite (circle_solution_regular s e c' cw Hc'').
  rewrite (circle_solution_regular s e c cw Hc).
  fold diff. rewrite Hdiff. rewrite vnorm_vscale, (Rabs_pos_eq k) by lra.
  change (vnorm diff) with cradius.
  cbn [fractional_progress path_direction].
  pose proof eps_pos as Heps.
  assert (Hb : bearing (vscale k diff) = bearing diff).
  { unfold bearing, vscale. cbn [c0 c1]. cbv zeta.
    rewrite R_atan2_scale by exact Hk. reflexivity. }
  split.
  - unfold raw_progress. rewrite Hb. reflexivity.
  - unfold vscale. cbn [c0 c1]. destruct cw; f_equal; field; lra.
Qed.

Lemma path_circle_radial_invariance_witness :
  let r := path_circle (Vec3 0 0 0) (Vec3 10 0 0) (Vec3 10 5 0) status0 true in
  let r' := path_circle (Vec3 0 0 0) (Vec3 10 0 0)
              (vadd (Vec3 10 0 0) (vscale 2 (vsub (Vec3 10 5 0) (Vec3 10 0 0))))
              status0 true in
  fractional_progress r' = fractional_progress r /\
  path_direction r' = path_direction r.
Proof.
  cbv zeta.
  assert (Hd : vnorm (horizontal (vsub (Vec3 10 5 0) (Vec3 10 0 0))) = 5).
  { apply vnorm_horizontal_is; [ lra | simpl; lra ]. }
  apply (path_circle_radial_invariance
           (Vec3 0 0 0) (Vec3 10 0 0) (Vec3 10 5 0) status0 true 2).
  - lra.
  - rewrite Hd. unfold eps. lra.
  - rewrite Hd. unfold eps. lra.
Defined.

(** ** Half way around the circle, in binary32 *)

(** X21.  Half way around, in binary32 and without rounding: when the
    horizontal vector from the center to the current position and the one
    from the start point to the center are the same two floats, which is the
    current position opposite the start point, the circle solver reports the
    progress 1/2 under either winding flag and the error 0, whatever [powf]
    and [atan2f] return, provided the radius they give is a finite number
    not below 1e-6 and the bearing is a finite number. *)
Theorem binary32_circle_opposite_start :
  forall powf atan2f start_point end_point cur_point status clockwise,
    let O := binary32_ops powf atan2f in
    let radius_north := SFsub 24 128 (c0 end_point) (c0 start_point) in
    let radius_east := SFsub 24 128 (c1 end_point) (c1 start_point) in
    let radius := hlength (O := O) radius_north radius_east in
    let a := normalised_bearing (O := O) radius_north radius_east in
    let r := path_circle (O := O) start_point end_point cur_point status clockwise in
    SFsub 24 128 (c0 cur_point) (c0 end_point) = radius_north ->
    SFsub 24 128 (c1 cur_point) (c1 end_point) = radius_east ->
    SFltb radius binary32_1e_6f = false ->
    is_finite radius = true ->
    is_finite a = true ->
    fractional_progress r = binary32_half /\ error r = S754_zero false.
Proof.
  intros pw at2 s e c st cw O rn re radius a r Hn He Hreg Hfr Hfa.
  destruct (binary32_circle_same_vector pw at2 s e c st cw Hn He Hreg)
    as [Hfp Herr].
  subst r. split.
  - etransitivity; [ exact Hfp | ].
    change (normalised_bearing (O := binary32_ops pw at2) _ _) with a.
    rewrite (SFsub_diag a Hfa). destruct cw; vm_compute; reflexivity.
  - etransitivity; [ exact Herr | ].
    change (hlength (O := binary32_ops pw at2) _ _) with radius.
    rewrite (SFsub_diag radius Hfr). reflexivity.
Qed.

(** X21 with the square for [powf x 2] and [atan2f] on the axes, for the
    circle of radius 3 around the origin that starts at (0,3,0), and the
    current position (0,-3,0). *)
Lemma binary32_circle_opposite_start_witness :
  let r := path_circle (O := binary32_standin) (binary32_point 0 3 0)
             (binary32_point 0 0 0) (binary32_point 0 (-3) 0)
             binary32_status0 true in
  fractional_progress r = binary32_half /\ error r = S754_zero false.
Proof.
  cbv zeta.
  apply (binary32_circle_opposite_start powf_square atan2f_on_axes
           (binary32_point 0 3 0) (binary32_point 0 0 0) (binary32_point 0 (-3) 0)
           binary32_status0 true); vm_compute; reflexivity.
Defined.

(** ** The progress of the endpoint solver is a number *)

(** Rounding a mantissa that is not negative does not give NaN. *)
Lemma shr_1_nonneg : forall mrs, (0 <= shr_m mrs)%Z -> (0 <= shr_m (shr_1 mrs))%Z.
Proof.
  intros [[|[p|p|]|p] r s] H; simpl in *; try discriminate; try lia.
  all: exfalso; apply H; reflexivity.
Qed.

Lemma iter_shr_1_nonneg : forall p mrs,
  (0 <= shr_m mrs)%Z -> (0 <= shr_m (iter_pos shr_1 p mrs))%Z.
Proof.
  induction p as [p IH|p IH|]; intros mrs H; simpl.
  - apply IH, IH, shr_1_nonneg, H.
  - apply IH, IH, H.
  - apply shr_1_nonneg, H.
Qed.

Lemma shr_fexp_nonneg : forall prec emax m e l,
  (0 <= m)%Z -> (0 <= shr_m (fst (shr_fexp prec emax m e l)))%Z.
Proof.
  intros prec emax m e l H. unfold shr_fexp, shr.
  assert (H0 : (0 <= shr_m (shr_record_of_loc m l))%Z)
    by (destruct l as [|[| |]]; exact H).
  destruct (Z.sub _ e); simpl; [ exact H0 | | exact H0 ].
  apply iter_shr_1_nonneg, H0.
Qed.

Lemma round_nearest_even_nonneg : forall m l,
  (0 <= m)%Z -> (0 <= round_nearest_even m l)%Z.
Proof.
  intros m [|[| |]] H; simpl; try lia. destruct (Z.even m); lia.
Qed.

Lemma binary_round_aux_not_nan : forall prec emax s mx ex lx,
  (0 <= mx)%Z -> binary_round_aux prec emax s mx ex lx <> S754_nan.
Proof.
  intros prec emax s mx ex lx H. unfold binary_round_aux.
  pose proof (shr_fexp_nonneg prec emax mx ex lx H) as H1.
  destruct (shr_fexp prec emax mx ex lx) as [mrs' e']. simpl in H1.
  pose proof (shr_fexp_nonneg prec emax _ e' loc_Exact
                (round_nearest_even_nonneg _ (loc_of_shr_record mrs') H1)) as H2.
  destruct (shr_fexp prec emax _ e' loc_Exact) as [mrs'' e'']. simpl in H2.
  destruct (shr_m mrs'') as [|m|m]; [ discriminate | | lia ].
  destruct (Z.leb e'' _); discriminate.
Qed.

Lemma binary_normalize_not_nan : forall prec emax m e szero,
  binary_normalize prec emax m e szero <> S754_nan.
Proof.
  intros prec emax [|m|m] e szero; [ discriminate | | ];
    unfold binary_normalize, binary_round;
    destruct (shl_align _ _ _) as [mz ez];
    apply binary_round_aux_not_nan; lia.
Qed.

(** The sum and the difference of a finite number and of a float that is not
    NaN, and the quotient of a finite non-zero number by a float that is not
    NaN, are not NaN. *)
Lemma SFadd_finite_not_nan : forall s m e y,
  y <> S754_nan -> SFadd 24 128 (S754_finite s m e) y <> S754_nan.
Proof.
  intros s m e [sy|sy| |sy my ey] Hy; try discriminate; [ contradiction | ].
  apply binary_normalize_not_nan.
Qed.

Lemma SFsub_finite_not_nan : forall s m e y,
  y <> S754_nan -> SFsub 24 128 (S754_finite s m e) y <> S754_nan.
Proof.
  intros s m e [sy|sy| |sy my ey] Hy; try discriminate; [ contradiction | ].
  apply binary_normalize_not_nan.
Qed.

Lemma SFdiv_finite_not_nan : forall s m e y,
  y <> S754_nan -> SFdiv 24 128 (S754_finite s m e) y <> S754_nan.
Proof.
  intros s m e [sy|sy| |sy my ey] Hy; try discriminate; [ contradiction | ].
  unfold SFdiv, SFdiv_core_binary. cbv zeta.
  match goal with
  | |- context [Z.div_eucl ?a (Zpos my)] =>
      assert (Ha : (0 <= a)%Z);
      [ | pose proof (Z.div_pos a (Zpos my) Ha eq_refl) as Hq;
          unfold Z.div in Hq; destruct (Z.div_eucl a (Zpos my)) as [q r] ]
  end.
  - destruct (Z.sub (Z.sub e ey) _); try lia.
    apply Z.shiftl_nonneg. lia.
  - apply binary_round_aux_not_nan. exact Hq.
Qed.

(** X22.  The endpoint solver reports a progress that is a number: in
    binary32, for every input, NaN and infinities included, its progress is
    never NaN. *)
Theorem binary32_endpoint_progress_not_nan :
  forall powf atan2f start_point end_point cur_point status mode3D,
    fractional_progress
      (path_endpoint (O := binary32_ops powf atan2f)
         start_point end_point cur_point status mode3D) <> S754_nan.
Proof.
  intros pw at2 s e c st mode3D. rewrite path_endpoint_writes. cbv zeta.
  set (O := binary32_ops pw at2).
  set (d := sqrtf (FloatOps := O) (dot3 (O := O) (diff3 (O := O) mode3D e c)
                                          (diff3 (O := O) mode3D e c))).
  set (p := sqrtf (FloatOps := O) (dot3 (O := O) (diff3 (O := O) mode3D e s)
                                          (diff3 (O := O) mode3D e s))).
  assert (Hd : not_below_zero d) by apply SFsqrt_not_below_zero.
  change (flt (FloatOps := O) d c_1e_6f)
    with (SFltb d binary32_1e_6f).
  change (flt (FloatOps := O) d (fadd (FloatOps := O) p f1))
    with (SFltb d (SFadd 24 128 p (binary32_of_Z 1))).
  destruct (SFltb d binary32_1e_6f) eqn:Hdeg;
    [ discriminate | ].
  destruct (SFltb d (SFadd 24 128 p (binary32_of_Z 1))) eqn:Hin;
    [ | discriminate ].
  cbn [fractional_progress].
  change (fsub (FloatOps := O) f1
            (fdiv (FloatOps := O) d (fadd (FloatOps := O) f1 p)))
    with (SFsub 24 128 (S754_finite false 8388608 (-23))
            (SFdiv 24 128 d (SFadd 24 128 (S754_finite false 8388608 (-23)) p))).
  assert (Hp : p <> S754_nan).
  { intros Hp. rewrite Hp in Hin. destruct d; discriminate Hin. }
  apply SFsub_finite_not_nan.
  destruct d as [sd|sd| |sd md ed].
  - discriminate Hdeg.
  - destruct sd; [ discriminate Hd | ].
    destruct (SFadd 24 128 p (binary32_of_Z 1)) as [sq|[|]| |sq mq eq];
      discriminate Hin.
  - discriminate Hin.
  - apply SFdiv_finite_not_nan, SFadd_finite_not_nan, Hp.
Qed.

(** ** The error of the endpoint solver on finite positions *)

Lemma binary_round_aux_nonneg_number : forall prec emax mx ex lx,
  (0 <= mx)%Z -> is_nonneg_number (binary_round_aux prec emax false mx ex lx) = true.
Proof.
  intros prec emax mx ex lx H.
  pose proof (binary_round_aux_not_nan prec emax false mx ex lx H) as Hn.
  revert Hn. unfold binary_round_aux.
  destruct (shr_fexp prec emax mx ex lx) as [mrs' e'].
  destruct (shr_fexp prec emax _ e' loc_Exact) as [mrs'' e''].
  destruct (shr_m mrs'') as [|m|m]; [ reflexivity | | intros Hn; contradiction ].
  destruct (Z.leb e'' _); reflexivity.
Qed.

Lemma binary_normalize_pos_nonneg_number : forall prec emax m e szero,
  is_nonneg_number (binary_normalize prec emax (Zpos m) e szero) = true.
Proof.
  intros prec emax m e szero. unfold binary_normalize, binary_round.
  destruct (shl_align m e _) as [mz ez].
  apply binary_round_aux_nonneg_number. lia.
Qed.

(** The square of a float that is not NaN, the sum of two numbers that are
    not negative and the square root of such a number are numbers that are
    not negative. *)
Lemma SFmul_self_nonneg_number : forall x,
  x <> S754_nan -> is_nonneg_number (SFmul 24 128 x x) = true.
Proof.
  intros [[|]|[|]| |[|] m e] Hx; try reflexivity; try contradiction;
    apply binary_round_aux_nonneg_number; lia.
Qed.

Lemma SFadd_nonneg_number : forall x y,
  is_nonneg_number x = true -> is_nonneg_number y = true ->
  is_nonneg_number (SFadd 24 128 x y) = true.
Proof.
  intros [[|]|[|]| |[|] mx ex] [[|]|[|]| |[|] my ey] Hx Hy;
    try discriminate; try reflexivity.
  unfold SFadd, cond_Zopp. cbv zeta.
  match goal with
  | |- context [Z.add (Zpos ?a) (Zpos ?b)] =>
      change (Z.add (Zpos a) (Zpos b)) with (Zpos (Pos.add a b))
  end.
  apply binary_normalize_pos_nonneg_number.
Qed.

Lemma SFsqrt_nonneg_number : forall x,
  is_nonneg_number x = true -> is_nonneg_number (SFsqrt 24 128 x) = true.
Proof.
  intros [[|]|[|]| |[|] m e] Hx; try discriminate; try reflexivity.
  unfold SFsqrt, SFsqrt_core_binary. cbv zeta.
  match goal with
  | |- context [Z.sqrtrem ?a] =>
      assert (Ha : (0 <= a)%Z);
      [ | pose proof (Z.sqrtrem_spec a Ha) as Hs;
          destruct (Z.sqrtrem a) as [q r] ]
  end.
  - destruct (Z.sub e _); try lia. apply Z.shiftl_nonneg. lia.
  - apply binary_round_aux_nonneg_number. lia.
Qed.

Lemma SFsub_finite_number : forall x y,
  is_finite x = true -> is_finite y = true -> SFsub 24 128 x y <> S754_nan.
Proof.
  intros [[|]|[|]| |sx mx ex] [[|]|[|]| |sy my ey] Hx Hy;
    try discriminate; apply binary_normalize_not_nan.
Qed.

(** X23.  On positions that are finite numbers the endpoint solver does not
    report a NaN error: in binary32, when the coordinates of the end point
    and of the current position that the mode reads are finite, the error is
    a number that is not negative; it is +infinity when a square overflows. *)
Theorem binary32_endpoint_error_number :
  forall powf atan2f start_point end_point cur_point status mode3D,
    let r := path_endpoint (O := binary32_ops powf atan2f)
               start_point end_point cur_point status mode3D in
    is_finite (c0 end_point) = true -> is_finite (c0 cur_point) = true ->
    is_finite (c1 end_point) = true -> is_finite (c1 cur_point) = true ->
    (mode3D = true ->
     is_finite (c2 end_point) = true /\ is_finite (c2 cur_point) = true) ->
    is_nonneg_number (error r) = true.
Proof.
  intros pw at2 s e c st mode3D r He0 Hc0 He1 Hc1 H2. subst r.
  rewrite path_endpoint_writes. cbv zeta.
  set (O := binary32_ops pw at2).
  assert (Hd : is_nonneg_number
                 (sqrtf (FloatOps := O)
                    (dot3 (O := O) (diff3 (O := O) mode3D e c)
                                   (diff3 (O := O) mode3D e c))) = true).
  { unfold dot3, diff3. cbn [c0 c1 c2].
    change (sqrtf (FloatOps := O)) with (SFsqrt 24 128).
    change (fadd (FloatOps := O)) with (SFadd 24 128).
    change (fmul (FloatOps := O)) with (SFmul 24 128).
    change (fsub (FloatOps := O)) with (SFsub 24 128).
    apply SFsqrt_nonneg_number, SFadd_nonneg_number;
      [ apply SFadd_nonneg_number | ].
    - apply SFmul_self_nonneg_number, SFsub_finite_number; assumption.
    - apply SFmul_self_nonneg_number, SFsub_finite_number; assumption.
    - destruct mode3D; [ | reflexivity ].
      destruct (H2 eq_refl) as [He2 Hc2].
      apply SFmul_self_nonneg_number, SFsub_finite_number; assumption. }
  destruct (flt _ c_1e_6f); cbn [error]; [ reflexivity | exact Hd ].
Qed.

(** X23 at the end point (10^20, 0, 0), seen from the origin: the square
    overflows and the error is +infinity. *)
Lemma binary32_endpoint_error_number_witness :
  let r := path_endpoint (O := binary32_standin) (binary32_point 0 0 0)
             (binary32_point (10 ^ 20) 0 0) (binary32_point 0 0 0)
             binary32_status0 true in
  is_nonneg_number (error r) = true /\ error r = S754_infinity false.
Proof.
  cbv zeta. split; [ | vm_compute; reflexivity ].
  apply (binary32_endpoint_error_number powf_square atan2f_on_axes
           (binary32_point 0 0 0) (binary32_point (10 ^ 20) 0 0)
           (binary32_point 0 0 0) binary32_status0 true);
    try reflexivity.
  intros _. split; reflexivity.
Defined.

(** ** The range of the progress of the endpoint solver *)

(** X24.  In binary32 the progress of the endpoint solver is a number of [0, 1],
    for every input: never negative, never above 1, never NaN. *)
Theorem binary32_endpoint_progress_range :
  forall powf atan2f start_point end_point cur_point status mode3D,
    let progress :=
      fractional_progress
        (path_endpoint (O := binary32_ops powf atan2f)
           start_point end_point cur_point status mode3D) in
    SFleb (S754_zero false) progress = true /\
    SFleb progress (binary32_of_Z 1) = true.
Proof.
  intros pw at2 s e c st mode3D progress. subst progress.
  rewrite path_endpoint_writes. cbv zeta.
  set (O := binary32_ops pw at2).
  set (d := sqrtf (FloatOps := O) (dot3 (diff3 mode3D e c) (diff3 mode3D e c))).
  set (p := sqrtf (FloatOps := O) (dot3 (diff3 mode3D e s) (diff3 mode3D e s))).
  destruct (flt (FloatOps := O) d c_1e_6f); [ split; reflexivity | ].
  cbn [fractional_progress].
  apply (binary32_endpoint_formula_range d p).
  - apply SFsqrt_valid.
  - apply SFsqrt_not_below_zero.
  - apply SFsqrt_valid.
Qed.
